(** * HermesContext: the retrieval core of [src/engine.py]

    A shallow embedding of the chunker ([_split_text]), the enricher
    ([_enrich_chunk]), Reciprocal Rank Fusion ([_reciprocal_rank_fusion]),
    the cross-encoder reranking step ([_rerank]), the query cache
    ([_check_cache], [_set_cache]) and the retrieval coordinator ([search]),
    together with the properties the design document states about them.

    Conventions.
    - A Python [str] is a [string]; a character is read as the code point
      with the same number (0..255).
    - A Python [int] is a [Z].
    - A Python [float] is an abstract type [F] with the operations the code
      uses; the statements hold for every such arithmetic, and the examples
      instantiate it with the exact rationals [Q].
    - A Python exception is a value of [exn]; a call that may raise returns
      a [result]. *)

From Stdlib Require Import List String Ascii ZArith QArith Lia Bool Arith.
From Stdlib Require Import DecimalString Sorted Permutation.
Import ListNotations.

Local Open Scope string_scope.
Local Open Scope list_scope.
Local Open Scope Z_scope.

(** ** Exceptions and fallible results *)

Inductive exn : Type :=
| ValueError
| ZeroDivisionError
| KeyError
| TypeError
| BackendError (who : string).

Inductive result (A : Type) : Type :=
| Ok (a : A)
| Raise (e : exn).

Arguments Ok {A} a.
Arguments Raise {A} e.

Definition rbind {A B : Type} (m : result A) (k : A -> result B) : result B :=
  match m with
  | Ok a => k a
  | Raise e => Raise e
  end.

Declare Scope result_scope.
Delimit Scope result_scope with result.
Notation "x <- m ;; k" := (rbind m (fun x => k))
  (at level 61, m at next level, right associativity) : result_scope.

(** ** Python's [str] methods used by the chunker *)

Module PyStr.

(** [str.isspace] on one character, for code points below 256:
    TAB, LF, VT, FF, CR, the separators 0x1c..0x1f, SPACE, NEL (0x85)
    and NO-BREAK SPACE (0xa0). *)
Definition isspace (c : ascii) : bool :=
  let n := nat_of_ascii c in
  ((9 <=? n) && (n <=? 13))%nat || ((28 <=? n) && (n <=? 32))%nat
  || (n =? 133)%nat || (n =? 160)%nat.

(** [s.split()]: the maximal runs of non-whitespace characters. *)
Fixpoint split_ws (s : string) : list string :=
  match s with
  | EmptyString => []
  | String c s' =>
      if isspace c then split_ws s'
      else match s' with
           | EmptyString => [String c EmptyString]
           | String c' _ =>
               if isspace c' then String c EmptyString :: split_ws s'
               else match split_ws s' with
                    | w :: ws => String c w :: ws
                    | [] => [String c EmptyString]
                    end
           end
  end.

(** [len(s.split())], the length unit of the chunker. *)
Definition word_count (s : string) : Z := Z.of_nat (List.length (split_ws s)).

Fixpoint lstrip (s : string) : string :=
  match s with
  | EmptyString => EmptyString
  | String c s' => if isspace c then lstrip s' else s
  end.

Fixpoint rstrip (s : string) : string :=
  match s with
  | EmptyString => EmptyString
  | String c s' =>
      match rstrip s' with
      | EmptyString => if isspace c then EmptyString else String c EmptyString
      | r => String c r
      end
  end.

(** [s.strip()] *)
Definition strip (s : string) : string := rstrip (lstrip s).

(** Truth value of a string: non-empty. *)
Definition truthy (s : string) : bool :=
  match s with
  | EmptyString => false
  | String _ _ => true
  end.

(** [sep.join(parts)] *)
Definition join (sep : string) (parts : list string) : string :=
  String.concat sep parts.

(** [strip_prefix p s] is the rest of [s] after a leading [p], if any. *)
Fixpoint strip_prefix (p s : string) : option string :=
  match p with
  | EmptyString => Some s
  | String a p' =>
      match s with
      | EmptyString => None
      | String b s' => if Ascii.eqb a b then strip_prefix p' s' else None
      end
  end.

Definition cons_head (c : ascii) (parts : list string) : list string :=
  match parts with
  | p :: ps => String c p :: ps
  | [] => [String c EmptyString]
  end.

(** Scan of [s.split(sep)] for a non-empty [sep]: leftmost occurrences,
    not overlapping.  [fuel] bounds the number of characters still to be
    looked at; [String.length s] is always enough. *)
Fixpoint split_scan (fuel : nat) (sep s : string) : list string :=
  match fuel with
  | O => [s]
  | S fuel' =>
      match s with
      | EmptyString => [EmptyString]
      | String c s' =>
          match strip_prefix sep s with
          | Some rest => EmptyString :: split_scan fuel' sep rest
          | None => cons_head c (split_scan fuel' sep s')
          end
      end
  end.

(** [s.split(sep)]; an empty separator raises [ValueError]. *)
Definition split (s sep : string) : result (list string) :=
  match sep with
  | EmptyString => Raise ValueError
  | String _ _ => Ok (split_scan (String.length s) sep s)
  end.

(** [str(n)] for an [int] *)
Definition str_of_int (n : Z) : string := NilZero.string_of_int (Z.to_int n).

End PyStr.

(** ** Python's [range] and list slices *)

Module PySeq.

(** [range(0, n, step)] for [0 <= n]: a zero step raises [ValueError], a
    negative step gives the empty range, a positive one gives
    [0, step, 2*step, ...] below [n]. *)
Definition range0 (n step : Z) : result (list Z) :=
  if step =? 0 then Raise ValueError
  else if step <? 0 then Ok []
  else Ok (List.map (fun j => Z.of_nat j * step)
                    (List.seq 0 (Z.to_nat ((n + step - 1) / step)))).

(** Clamp a slice bound to [0 .. len], counting a negative bound from the
    end. *)
Definition clamp (len : nat) (i : Z) : nat :=
  if i <? 0 then Z.to_nat (Z.max 0 (i + Z.of_nat len))
  else Nat.min (Z.to_nat i) len.

(** [l[lo:hi]] *)
Definition slice {A : Type} (l : list A) (lo hi : Z) : list A :=
  let a := clamp (List.length l) lo in
  let b := clamp (List.length l) hi in
  firstn (b - a) (skipn a l).

(** [l[:hi]] *)
Definition slice_to {A : Type} (l : list A) (hi : Z) : list A :=
  firstn (clamp (List.length l) hi) l.

End PySeq.

(** ** Configuration ([src/config.py]) *)

Module Settings.
Definition nl : string := String (ascii_of_nat 10) EmptyString.
Definition chunk_size : Z := 512.
Definition chunk_overlap : Z := 64.
Definition chunk_separators : list string :=
  [nl ++ nl; nl; ". "; ", "; " "]%string.
Definition retrieval_top_k : Z := 20.
Definition rerank_top_k : Z := 5.
Definition rrf_k : Z := 60.
Definition cache_ttl_seconds : Z := 3600.
End Settings.

(** ** Chunker and enricher *)

Module Chunker.
Import PyStr PySeq.

(** The [for sep in separators: ... break / else:] loop: the first
    separator that cuts the text into more than one part, with the parts;
    [None] when the loop runs to its [else]. *)
Fixpoint find_separator (text : string) (separators : list string)
  : result (option (string * list string)) :=
  match separators with
  | [] => Ok None
  | sep :: rest =>
      (parts <- split text sep ;;
       if (1 <? List.length parts)%nat then Ok (Some (sep, parts))
       else find_separator text rest)%result
  end.

(** The sliding window over words of the [else] branch. *)
Definition fallback (text : string) (chunk_size overlap : Z)
  : result (list string) :=
  let words := split_ws text in
  (starts <- range0 (Z.of_nat (List.length words)) (chunk_size - overlap) ;;
   let parts :=
     List.map (fun i => join " " (slice words i (i + chunk_size))) starts in
   Ok (List.map strip (List.filter (fun p => truthy (strip p)) parts)))%result.

(** The backward walk that picks the overlap: [rev_current] is what is
    left of [reversed(current)]. *)
Fixpoint overlap_walk (overlap : Z) (rev_current : list string)
         (overlap_parts : list string) (overlap_len : Z)
  : list string * Z :=
  match rev_current with
  | [] => (overlap_parts, overlap_len)
  | p :: rest =>
      let plen := word_count p in
      if overlap_len + plen >? overlap then (overlap_parts, overlap_len)
      else overlap_walk overlap rest (p :: overlap_parts) (overlap_len + plen)
  end.

(** The loop state: [chunks], [current], [current_len]. *)
Record acc : Type := mkAcc {
  chunks : list string;
  current : list string;
  current_len : Z
}.

Definition emit (sep : string) (cur : list string) (out : list string)
  : list string :=
  let chunk_text := strip (join sep cur) in
  if truthy chunk_text then out ++ [chunk_text] else out.

Definition nonempty {A : Type} (l : list A) : bool :=
  match l with
  | [] => false
  | _ :: _ => true
  end.

(** One iteration of [for part in parts]. *)
Definition step (sep : string) (chunk_size overlap : Z) (st : acc)
           (part : string) : acc :=
  let part_len := word_count part in
  let st1 :=
    if (current_len st + part_len >? chunk_size) && nonempty (current st)
    then
      let '(overlap_parts, overlap_len) :=
        overlap_walk overlap (List.rev (current st)) [] 0 in
      mkAcc (emit sep (current st) (chunks st)) overlap_parts overlap_len
    else st in
  mkAcc (chunks st1) (current st1 ++ [part]) (current_len st1 + part_len).

Definition flush (sep : string) (st : acc) : list string :=
  if nonempty (current st) then emit sep (current st) (chunks st)
  else chunks st.

Definition merge (sep : string) (chunk_size overlap : Z)
           (parts : list string) : list string :=
  flush sep (List.fold_left (step sep chunk_size overlap) parts
                            (mkAcc [] [] 0)).

Definition _split_text (text : string) (chunk_size overlap : Z)
           (separators : list string) : result (list string) :=
  if word_count text <=? chunk_size then
    Ok (if truthy (strip text) then [strip text] else [])
  else
    match find_separator text separators with
    | Raise e => Raise e
    | Ok None => fallback text chunk_size overlap
    | Ok (Some (sep, parts)) => Ok (merge sep chunk_size overlap parts)
    end.

(** [_enrich_chunk]; [if doc_type:] is false for [None] and for the empty
    string. *)
Definition _enrich_chunk (chunk_text doc_title : string) (chunk_index : Z)
           (doc_type : option string) : string :=
  let prefix_parts :=
    ["Documento: " ++ doc_title]%string
    ++ match doc_type with
       | Some t => if truthy t then ["Tipo: " ++ t]%string else []
       | None => []
       end
    ++ ["Trecho " ++ str_of_int (chunk_index + 1)]%string in
  let prefix := join " | " prefix_parts in
  ("[" ++ prefix ++ "] " ++ chunk_text)%string.

End Chunker.

(** ** Floats *)

(** The operations of Python's [float] that the retrieval code uses.  The
    division is [float / int] with a divisor that is not zero (a zero divisor
    raises [ZeroDivisionError] before it gets here) and that is small enough
    to be converted to a float. *)
Class PyFloat (F : Type) : Type := {
  flit : Q -> F;               (* the float written as a decimal literal *)
  fadd : F -> F -> F;          (* [x + y] *)
  fdiv_int : F -> Z -> F;      (* [x / n] for an [int] [n <> 0] *)
  flt : F -> F -> bool;        (* [x < y] *)
  fround : F -> Z -> F         (* [round(x, ndigits)] *)
}.

(** [x <= y], read off [<]. *)
Definition fle {F : Type} {PF : PyFloat F} (x y : F) : Prop := flt y x = false.

(** ** Python helpers: dictionaries in insertion order, sorting *)

Module PyDict.

(** A [dict] with [int] keys, as the list of its items in insertion
    order. *)
Definition dict (V : Type) : Type := list (Z * V).

(** [list(d.keys())] *)
Definition keys {V : Type} (d : dict V) : list Z := List.map fst d.

Fixpoint get {V : Type} (d : dict V) (k : Z) : option V :=
  match d with
  | [] => None
  | (k', v) :: d' => if k =? k' then Some v else get d' k
  end.

(** [d.get(k, default)] *)
Definition get_default {V : Type} (d : dict V) (k : Z) (default : V) : V :=
  match get d k with
  | Some v => v
  | None => default
  end.

(** [k in d] *)
Definition mem {V : Type} (d : dict V) (k : Z) : bool :=
  match get d k with
  | Some _ => true
  | None => false
  end.

(** [d[k] = v]: an existing key keeps its place, a new key goes last. *)
Fixpoint set {V : Type} (k : Z) (v : V) (d : dict V) : dict V :=
  match d with
  | [] => [(k, v)]
  | (k', v') :: d' => if k =? k' then (k, v) :: d' else (k', v') :: set k v d'
  end.

(** [d[k]] *)
Definition item {V : Type} (d : dict V) (k : Z) : result V :=
  match get d k with
  | Some v => Ok v
  | None => Raise KeyError
  end.

End PyDict.

Module PySort.
Section Sort.
Context {F : Type} {PF : PyFloat F} {A : Type}.
Variable key : A -> F.

(** Put [x], which came before every element of [l], into the
    descending list [l]: it passes the elements with a strictly larger
    key only. *)
Fixpoint insert_desc (x : A) (l : list A) : list A :=
  match l with
  | [] => [x]
  | y :: l' => if flt (key x) (key y) then y :: insert_desc x l'
               else x :: y :: l'
  end.

(** [sorted(l, key=key, reverse=True)]: descending by key, elements with
    equal keys in their original order. *)
Definition sorted_desc (l : list A) : list A :=
  List.fold_right insert_desc [] l.

(** No element is followed, anywhere later, by one with a larger key. *)
Definition descending (l : list A) : Prop :=
  StronglySorted (fun a b => fle (key b) (key a)) l.
End Sort.
End PySort.

(** ** Candidates, responses and settings *)

Section Model.
Context {F : Type} {PF : PyFloat F}.

(** A candidate [dict]: the keys [vector_search] and [keyword_search]
    produce ([distance] only by the first), and the two scores the
    pipeline adds. *)
Record candidate : Type := mkCandidate {
  chunk_id : Z;
  chunk_text : string;
  enriched_text : option string;
  document_id : Z;
  document_title : string;
  distance : option F;
  score : F;
  rrf_score : option F;
  rerank_score : option F
}.

Definition set_rrf_score (c : candidate) (s : F) : candidate :=
  mkCandidate (chunk_id c) (chunk_text c) (enriched_text c) (document_id c)
              (document_title c) (distance c) (score c) (Some s)
              (rerank_score c).

Definition set_rerank_score (c : candidate) (s : F) : candidate :=
  mkCandidate (chunk_id c) (chunk_text c) (enriched_text c) (document_id c)
              (document_title c) (distance c) (score c) (rrf_score c)
              (Some s).

(** The [dict] that [search] returns. *)
Record response : Type := mkResponse {
  query : string;
  results : list candidate;
  total_candidates : Z;
  elapsed_ms : Z;
  cached : bool
}.

Definition set_cached (r : response) (b : bool) : response :=
  mkResponse (query r) (results r) (total_candidates r) (elapsed_ms r) b.

(** What [json.loads] makes of a cache entry: any JSON value.  [search]
    takes its truth value and then writes the key ["cached"] into it,
    which only a dict accepts.  A dict that is not empty is read as a
    response, which is what [_set_cache] stores. *)
Inductive decoded : Type :=
| JDict (d : response)
    (* a dict that is not empty *)
| JFalsy
    (* the values that are false: [{}], [[]], [""], [0], [0.0], [false], [null] *)
| JNotDict.
    (* every other list, string or number, and [true] *)

(** The retrieval part of [Settings]. *)
Record retrieval_settings : Type := mkSettings {
  retrieval_top_k : Z;
  rerank_top_k : Z;
  vector_weight : F;
  keyword_weight : F;
  rrf_k : Z;
  cache_ttl_seconds : Z
}.

(** [settings = Settings()] *)
Definition default_settings : retrieval_settings :=
  mkSettings Settings.retrieval_top_k Settings.rerank_top_k
             (flit (7 # 10)) (flit (3 # 10))
             Settings.rrf_k Settings.cache_ttl_seconds.

(** *** Reciprocal Rank Fusion *)

Section Fusion.
Variable settings : retrieval_settings.
Import PyDict.

(** [scores[cid] = scores.get(cid, 0.0) + weight / (k + rank + 1)] *)
Definition add_contribution (weight : F) (k : Z) (rank : nat) (cid : Z)
           (scores : dict F) : result (dict F) :=
  let d := k + Z.of_nat rank + 1 in
  if d =? 0 then Raise ZeroDivisionError
  else Ok (set cid (fadd (get_default scores cid (flit 0)) (fdiv_int weight d))
               scores).

(** [for rank, r in enumerate(vector_results)], from [rank] on. *)
Fixpoint vector_pass (k : Z) (rank : nat) (rs : list candidate)
         (scores : dict F) (chunk_map : dict candidate)
  : result (dict F * dict candidate) :=
  match rs with
  | [] => Ok (scores, chunk_map)
  | r :: rs' =>
      let cid := chunk_id r in
      (scores' <- add_contribution (vector_weight settings) k rank cid scores ;;
       vector_pass k (S rank) rs' scores' (set cid r chunk_map))%result
  end.

(** [for rank, r in enumerate(keyword_results)], from [rank] on. *)
Fixpoint keyword_pass (k : Z) (rank : nat) (rs : list candidate)
         (scores : dict F) (chunk_map : dict candidate)
  : result (dict F * dict candidate) :=
  match rs with
  | [] => Ok (scores, chunk_map)
  | r :: rs' =>
      let cid := chunk_id r in
      (scores' <- add_contribution (keyword_weight settings) k rank cid scores ;;
       keyword_pass k (S rank) rs' scores'
                    (if mem chunk_map cid then chunk_map
                     else set cid r chunk_map))%result
  end.

(** [for cid, rrf_score in ranked: ...] *)
Fixpoint build_results (chunk_map : dict candidate) (ranked : list (Z * F))
  : result (list candidate) :=
  match ranked with
  | [] => Ok []
  | (cid, s) :: rest =>
      (c <- item chunk_map cid ;;
       out <- build_results chunk_map rest ;;
       Ok (set_rrf_score c (fround s 6) :: out))%result
  end.

Definition _reciprocal_rank_fusion (vector_results keyword_results : list candidate)
           (k : Z) : result (list candidate) :=
  (pass1 <- vector_pass k 0 vector_results [] [] ;;
   pass2 <- keyword_pass k 0 keyword_results (fst pass1) (snd pass1) ;;
   let ranked := PySort.sorted_desc snd (fst pass2) in
   build_results (snd pass2) ranked)%result.
End Fusion.

End Model.

Arguments candidate F : clear implicits.
Arguments response F : clear implicits.
Arguments decoded F : clear implicits.
Arguments retrieval_settings F : clear implicits.

(** ** Reranking, cache and search *)

Section Engine.
Context {F : Type} {PF : PyFloat F}.
Import PyStr PySeq.

(** *** The store of mutable objects

    [_rerank] writes into the candidate dicts it is given and sorts the
    list it is given, so both live in a store: a candidate dict and a list
    of candidates are addresses, and a list holds the addresses of its
    elements. *)
Record heap : Type := mkHeap {
  dict_at : nat -> candidate F;
  list_at : nat -> list nat
}.

Definition set_dict (h : heap) (a : nat) (c : candidate F) : heap :=
  mkHeap (fun a' => if Nat.eqb a' a then c else dict_at h a') (list_at h).

Definition set_list (h : heap) (a : nat) (l : list nat) : heap :=
  mkHeap (dict_at h) (fun a' => if Nat.eqb a' a then l else list_at h a').

(** *** Collaborators

    The embedding model, the storage, the cross-encoder, the cache
    backend with its state [C], and the library calls [search] goes
    through.  [monotonic n] is the [n]-th reading of the clock and
    [millis_between t0 t1] is [int((t1 - t0) * 1000)]. *)
Context {C : Type}.

Record collaborators : Type := mkCollaborators {
  embed_query : string -> result (list F);
  vector_search : list F -> Z -> result (list (candidate F));
  keyword_search : string -> Z -> result (list (candidate F));
  predict : list (string * string) -> result (list F);
  cache_get : C -> string -> result (option string);
  cache_setex : C -> string -> Z -> string -> result C;
  sha256_hexdigest : string -> string;
  json_dumps : response F -> result string;
  json_loads : string -> result (decoded F);
  monotonic : nat -> F;
  millis_between : F -> F -> Z
}.

(** What a call does to the outside, in order. *)
Inductive event : Type :=
| EvCacheGet (key : string)
| EvCacheSet (key : string)
| EvEmbed (text : string)
| EvVectorSearch (top_k : Z)
| EvKeywordSearch (text : string) (top_k : Z)
| EvFusion
| EvRerank.

Record world : Type := mkWorld {
  cache : C;
  log : list event;
  clock : nat
}.

Definition record (e : event) (w : world) : world :=
  mkWorld (cache w) (log w ++ [e]) (clock w).

Variable settings : retrieval_settings F.
Variable env : collaborators.

(** *** [_rerank] *)

(** [c.get("enriched_text") or c["chunk_text"]] *)
Definition candidate_text (c : candidate F) : string :=
  match enriched_text c with
  | Some t => if truthy t then t else chunk_text c
  | None => chunk_text c
  end.

(** [for c, s in zip(candidates, scores): c["rerank_score"] = round(float(s), 4)] *)
Fixpoint attach_scores (cands : list nat) (scores : list F) (h : heap) : heap :=
  match cands, scores with
  | a :: cands', s :: scores' =>
      attach_scores cands' scores'
                    (set_dict h a (set_rerank_score (dict_at h a) (fround s 4)))
  | _, _ => h
  end.

(** The sort keys [x["rerank_score"]] of the elements, each with its
    element. *)
Fixpoint sort_keys (h : heap) (cands : list nat) : result (list (nat * F)) :=
  match cands with
  | [] => Ok []
  | a :: cands' =>
      match rerank_score (dict_at h a) with
      | None => Raise KeyError
      | Some s => (keyed <- sort_keys h cands' ;; Ok ((a, s) :: keyed))%result
      end
  end.

(** [candidates] is the address of the list; the returned slice is a new
    list, given by the addresses of its elements. *)
Definition _rerank (query : string) (candidates : nat) (top_k : Z) (h : heap)
  : result (list nat * heap) :=
  let cands := list_at h candidates in
  if negb (Chunker.nonempty cands) then Ok ([], h)
  else
    let pairs := List.map (fun a => (query, candidate_text (dict_at h a))) cands in
    (scores <- predict env pairs ;;
     let h1 := attach_scores cands scores h in
     keyed <- sort_keys h1 cands ;;
     let sorted := List.map fst (PySort.sorted_desc snd keyed) in
     let h2 := set_list h1 candidates sorted in
     Ok (slice_to sorted top_k, h2))%result.

(** *** Cache *)

(** [f"rag:cache:{hashlib.sha256(query.encode()).hexdigest()[:16]}"] *)
Definition _cache_key (query : string) : string :=
  ("rag:cache:" ++ String.substring 0 16 (sha256_hexdigest env query))%string.

(** Every exception inside the [try] ends in [return None]; otherwise the
    value is whatever [json.loads] returns. *)
Definition _check_cache (query : string) (w : world) : option (decoded F) * world :=
  let key := _cache_key query in
  let w1 := record (EvCacheGet key) w in
  match cache_get env (cache w) key with
  | Raise _ => (None, w1)
  | Ok None => (None, w1)
  | Ok (Some cached) =>
      if truthy cached then
        match json_loads env cached with
        | Raise _ => (None, w1)
        | Ok r => (Some r, w1)
        end
      else (None, w1)
  end.

(** Every exception inside the [try] is dropped. *)
Definition _set_cache (query : string) (result : response F) (w : world) : world :=
  let key := _cache_key query in
  match json_dumps env result with
  | Raise _ => w
  | Ok text =>
      let w1 := record (EvCacheSet key) w in
      match cache_setex env (cache w) key (cache_ttl_seconds settings) text with
      | Raise _ => w1
      | Ok c => mkWorld c (log w1) (clock w1)
      end
  end.

(** *** [search] *)

Definition read_clock (w : world) : F * world :=
  (monotonic env (clock w), mkWorld (cache w) (log w) (S (clock w))).

Definition placeholder : candidate F :=
  mkCandidate 0 EmptyString None 0 EmptyString None (flit 0) None None.

(** The call [self._rerank(query, fused[:n], top_k)] of [search]: the
    slice is a new list of the dicts that fusion has just made, so the
    store holds nothing else. *)
Definition rerank_call (query : string) (cands : list (candidate F)) (top_k : Z)
  : result (list (candidate F)) :=
  let h := mkHeap (fun a => List.nth a cands placeholder)
                  (fun l => match l with
                            | O => List.seq 0 (List.length cands)
                            | S _ => []
                            end) in
  (done <- _rerank query 0 top_k h ;;
   Ok (List.map (dict_at (snd done)) (fst done)))%result.

(** Steps 2 to 6 of [search]; an exception of a collaborator ends it. *)
Definition pipeline (query : string) (top_k : Z) (use_reranker : bool) (w : world)
  : result (list (candidate F) * Z * world) :=
  (let w := record (EvEmbed query) w in
   query_vec <- embed_query env query ;;
   let w := record (EvVectorSearch (retrieval_top_k settings)) w in
   vector_results <- vector_search env query_vec (retrieval_top_k settings) ;;
   let w := record (EvKeywordSearch query (retrieval_top_k settings)) w in
   keyword_results <- keyword_search env query (retrieval_top_k settings) ;;
   let w := record EvFusion w in
   fused <- _reciprocal_rank_fusion settings vector_results keyword_results
                                    (rrf_k settings) ;;
   let total_candidates := Z.of_nat (List.length fused) in
   if use_reranker && Chunker.nonempty fused then
     let w := record EvRerank w in
     results <- rerank_call query (slice_to fused (retrieval_top_k settings))
                            top_k ;;
     Ok (results, total_candidates, w)
   else Ok (slice_to fused top_k, total_candidates, w))%result.

(** [search].  [if cached:] takes the truth value of what [_check_cache]
    returned, and [cached["cached"] = True], which is outside every
    [try], raises [TypeError] on a value that is not a dict. *)
Definition search (query : string) (top_k : Z) (use_cache use_reranker : bool)
           (w : world) : result (response F * world) :=
  let '(t0, w) := read_clock w in
  let '(hit, w) := if use_cache then _check_cache query w else (None, w) in
  match hit with
  | Some (JDict cached) => Ok (set_cached cached true, w)
  | Some JNotDict => Raise TypeError
  | Some JFalsy | None =>
      match pipeline query top_k use_reranker w with
      | Raise e => Raise e
      | Ok (results, total_candidates, w) =>
          let '(t1, w) := read_clock w in
          let response :=
            mkResponse query results total_candidates
                       (millis_between env t0 t1) false in
          let w := if use_cache && Chunker.nonempty results
                   then _set_cache query response w else w in
          Ok (response, w)
      end
  end.

End Engine.

Arguments heap F : clear implicits.
Arguments collaborators F C : clear implicits.
Arguments world C : clear implicits.

(** ** Definitions used to state the chunker's properties *)

Module TextProps.
Import PyStr.

Fixpoint all_space (s : string) : bool :=
  match s with
  | EmptyString => true
  | String c s' => isspace c && all_space s'
  end.

Fixpoint no_space (s : string) : bool :=
  match s with
  | EmptyString => true
  | String c s' => negb (isspace c) && no_space s'
  end.

(** A word: non-empty and free of whitespace. *)
Definition is_word (w : string) : Prop := truthy w = true /\ no_space w = true.

(** Does the string begin a word, i.e. start with a non-blank? *)
Definition starts_word (s : string) : bool :=
  match s with
  | EmptyString => false
  | String c _ => negb (isspace c)
  end.

End TextProps.

Module Windows.
Import PyStr Chunker.

(** The number of windows of a positive step over [n] words. *)
Definition window_count (n step : Z) : nat := Z.to_nat ((n + step - 1) / step).

(** The window that starts at word [j * step]. *)
Definition window (words : list string) (chunk_size step : Z) (j : nat)
  : list string :=
  firstn (Z.to_nat chunk_size) (skipn (j * Z.to_nat step) words).

(** A returned segment read as a pair: the words it repeats from the end
    of the segment before it, and the words it adds. *)
Definition segment : Type := (list string * list string)%type.

Definition seg_words (s : segment) : list string := fst s ++ snd s.

(** Every segment's repeated words end the words of the segment before;
    [prev] stands for the segment before the first one. *)
Fixpoint chained (prev : list string) (segs : list segment) : Prop :=
  match segs with
  | [] => True
  | s :: rest => (exists pre, prev = pre ++ fst s) /\ chained (seg_words s) rest
  end.

Definition last_words (prev : list string) (segs : list segment) : list string :=
  List.fold_left (fun _ s => seg_words s) segs prev.




End Windows.

Module EnricherSpec.
Import PyStr.

(** The enricher as the design document words it. *)
Definition spec_enrich (segment_text document_title : string)
           (segment_index : Z) (doc_type : option string) : string :=
  let prefix :=
    join " | "
         (["Document: " ++ document_title]%string
          ++ match doc_type with
             | Some t => ["Type: " ++ t]%string
             | None => []
             end
          ++ ["Segment " ++ str_of_int (segment_index + 1)]%string) in
  ("[" ++ prefix ++ "] " ++ segment_text)%string.

End EnricherSpec.

(** ** Floats as exact rationals, for the examples *)

Module QFloat.

(** The integer nearest to [num / den], a tie going to the even one. *)
Definition round_half_even (num den : Z) : Z :=
  let q := num / den in
  let r := num mod den in
  if 2 * r <? den then q
  else if den <? 2 * r then q + 1
  else if Z.even q then q else q + 1.

(** [round(x, ndigits)] for [0 <= ndigits]: the nearest multiple of
    [10 ^ -ndigits]. *)
Definition Qround (x : Q) (ndigits : Z) : Q :=
  let scale := 10 ^ ndigits in
  Qmake (round_half_even (Qnum x * scale) (Z.pos (Qden x))) (Z.to_pos scale).

#[global] Instance Q_float : PyFloat Q := {
  flit := fun q => q;
  fadd := Qplus;
  fdiv_int := fun x n => Qdiv x (inject_Z n);
  flt := fun x y => negb (Qle_bool y x);
  fround := Qround
}.

End QFloat.

(** ** Definitions used to state the properties *)

Section Statements.
Context {F : Type} {PF : PyFloat F}.

Definition ids (rs : list (candidate F)) : list Z := List.map chunk_id rs.

(** The 0-based rank of [cid] in a ranked list of identifiers. *)
Fixpoint rank_of (cid : Z) (l : list Z) : option nat :=
  match l with
  | [] => None
  | x :: l' => if cid =? x then Some O else option_map S (rank_of cid l')
  end.

(** The total of the design document: starting from [0.0], the
    contribution [weight / (k + rank + 1)] of each list the candidate is
    in, the vector list first. *)
Definition rrf_total (settings : retrieval_settings F) (k : Z)
           (vector_ids keyword_ids : list Z) (cid : Z) : F :=
  let s0 := flit 0 in
  let s1 := match rank_of cid vector_ids with
            | Some r => fadd s0 (fdiv_int (vector_weight settings)
                                          (k + Z.of_nat r + 1))
            | None => s0
            end in
  match rank_of cid keyword_ids with
  | Some r => fadd s1 (fdiv_int (keyword_weight settings) (k + Z.of_nat r + 1))
  | None => s1
  end.

(** The fused score reported for [cid] in a fused list. *)
Fixpoint reported_score (out : list (candidate F)) (cid : Z) : option F :=
  match out with
  | [] => None
  | c :: out' => if cid =? chunk_id c then rrf_score c
                 else reported_score out' cid
  end.

(** The laws of [<] on floats that are not NaN. *)
Record float_order : Prop := {
  flt_asym : forall x y : F, flt x y = true -> flt y x = false;
  fle_trans : forall x y z : F, fle x y -> fle y z -> fle x z
}.

(** The laws of float arithmetic that the monotonicity of RRF rests on;
    they hold for IEEE arithmetic with rounding to nearest on finite
    values, and for exact arithmetic. *)
Record float_monotone : Prop := {
  fadd_mono : forall a a' b b' : F, fle a a' -> fle b b' -> fle (fadd a b) (fadd a' b');
  fadd_nonneg : forall a b : F, fle (flit 0) b -> fle a (fadd a b);
  fdiv_nonneg : forall (w : F) (d : Z), fle (flit 0) w -> 0 < d -> fle (flit 0) (fdiv_int w d);
  fdiv_antitone : forall (w : F) (d d' : Z),
      fle (flit 0) w -> 0 < d -> d <= d' -> fle (fdiv_int w d') (fdiv_int w d);
  fround_mono : forall (x y : F) (n : Z), fle x y -> fle (fround x n) (fround y n)
}.

End Statements.

Section FusionParts.
Context {F : Type} {PF : PyFloat F}.
Import PyDict.

(** The [scores] side of a pass over a ranked list. *)
Fixpoint scores_pass (weight : F) (k : Z) (rank : nat) (cids : list Z)
         (scores : dict F) : result (dict F) :=
  match cids with
  | [] => Ok scores
  | cid :: cids' =>
      (scores' <- add_contribution weight k rank cid scores ;;
       scores_pass weight k (S rank) cids' scores')%result
  end.

(** The [chunk_map] side of the two passes. *)
Definition vector_map (rs : list (candidate F)) (cm : dict (candidate F))
  : dict (candidate F) :=
  List.fold_left (fun cm r => set (chunk_id r) r cm) rs cm.

Definition keyword_map (rs : list (candidate F)) (cm : dict (candidate F))
  : dict (candidate F) :=
  List.fold_left (fun cm r => if mem cm (chunk_id r) then cm
                              else set (chunk_id r) r cm) rs cm.

(** Every record of [chunk_map] sits under its own identifier. *)
Definition keyed_by_id (cm : dict (candidate F)) : Prop :=
  forall x c, get cm x = Some c -> chunk_id c = x.

End FusionParts.

Section RerankStatements.
Context {F : Type} {PF : PyFloat F}.


(** The pairs handed to the cross-encoder. *)
Definition rerank_pairs (query : string) (h : heap F) (cands : list nat)
  : list (string * string) :=
  List.map (fun a => (query, candidate_text (dict_at h a))) cands.

End RerankStatements.

Section CacheStatements.
Context {F : Type} {PF : PyFloat F} {C : Type}.

(** A backend read that answers "absent" where the given one fails. *)
Definition miss_on_failure (get : C -> string -> result (option string))
  : C -> string -> result (option string) :=
  fun c key => match get c key with
               | Raise _ => Ok None
               | Ok v => Ok v
               end.

(** A backend write that does nothing where the given one fails. *)
Definition noop_on_failure (setex : C -> string -> Z -> string -> result C)
  : C -> string -> Z -> string -> result C :=
  fun c key ttl v => match setex c key ttl v with
                     | Raise _ => Ok c
                     | Ok c' => Ok c'
                     end.

(** The same collaborators around a cache backend that never fails. *)
Definition forgiving (env : collaborators F C) : collaborators F C :=
  mkCollaborators (embed_query env) (vector_search env) (keyword_search env)
                  (predict env)
                  (miss_on_failure (cache_get env))
                  (noop_on_failure (cache_setex env))
                  (sha256_hexdigest env) (json_dumps env) (json_loads env)
                  (monotonic env) (millis_between env).

Definition is_cache_set (e : event) : bool :=
  match e with
  | EvCacheSet _ => true
  | _ => false
  end.

Definition is_cache_get (e : event) : bool :=
  match e with
  | EvCacheGet _ => true
  | _ => false
  end.

End CacheStatements.

(** ** Concrete inputs for the examples *)

Module Example.
Import QFloat.

Definition tab : string := String (ascii_of_nat 9) EmptyString.

(** A line of [n] one-letter words. *)
Fixpoint line (n : nat) : string :=
  match n with
  | O => EmptyString
  | S O => "w"
  | S n' => ("w " ++ line n')%string
  end.

(** A candidate as the storage returns it. *)
Definition cand (id : Z) (text : string) : candidate Q :=
  mkCandidate id text None 1 "doc" None 0%Q None None.

Definition equal_weights : retrieval_settings Q :=
  mkSettings 20 5 (1 # 2) (1 # 2) 60 3600.

(** A store with two candidate dicts, at addresses 0 and 1, and the list
    [[0; 1]] at address 0. *)
Definition two_candidates : heap Q :=
  mkHeap (fun a => match a with
                   | O => cand 1 "first"
                   | _ => cand 2 "second"
                   end)
         (fun _ => [0; 1]%nat).

End Example.

Module ExampleEnv.
Import QFloat Example.

(** A cache backend with one slot, and collaborators with fixed answers:
    [scores] from the cross-encoder, [vec] and [kw] from the storage, and
    a codec that knows the one response [stored]. *)
Definition fixed (scores : list Q) (vec kw : list (candidate Q))
           (stored : response Q) : collaborators Q (option string) :=
  mkCollaborators
    (fun _ => Ok [1%Q])
    (fun _ _ => Ok vec)
    (fun _ _ => Ok kw)
    (fun _ => Ok scores)
    (fun c _ => Ok c)
    (fun _ _ _ v => Ok (Some v))
    (fun text => text)
    (fun _ => Ok "stored")
    (fun _ => Ok (JDict stored))
    (fun n => inject_Z (Z.of_nat n))
    (fun _ _ => 0).

(** The same with a cache backend that is down. *)
Definition cache_down (scores : list Q) (vec kw : list (candidate Q))
           (stored : response Q) : collaborators Q (option string) :=
  mkCollaborators
    (fun _ => Ok [1%Q])
    (fun _ _ => Ok vec)
    (fun _ _ => Ok kw)
    (fun _ => Ok scores)
    (fun _ _ => Raise (BackendError "redis"))
    (fun _ _ _ _ => Raise (BackendError "redis"))
    (fun text => text)
    (fun _ => Ok "stored")
    (fun _ => Ok (JDict stored))
    (fun n => inject_Z (Z.of_nat n))
    (fun _ _ => 0).

Definition empty_world : world (option string) := mkWorld None [] 0.

Definition close_scores : list Q := [12341 # 100000; 12344 # 100000].

(** A cross-encoder whose two scores differ in the fifth decimal. *)
Definition env_close : collaborators Q (option string) :=
  fixed close_scores [] [] (mkResponse "q" [] 0 0 false).

End ExampleEnv.

Module ExampleSearch.
Import QFloat Example ExampleEnv.

(** The answer to the query ["q"] over one vector hit and one keyword
    hit, without reranking, and the world after it was computed and
    stored. *)
Definition first_response : response Q :=
  mkResponse "q"
             [set_rrf_score (cand 1 "a") (11475 # 1000000);
              set_rrf_score (cand 2 "b") (4918 # 1000000)]
             2 0 false.

Definition first_world : world (option string) :=
  mkWorld (Some "stored")
          [EvCacheGet "rag:cache:q"; EvEmbed "q"; EvVectorSearch 20;
           EvKeywordSearch "q" 20; EvFusion; EvCacheSet "rag:cache:q"]
          2.

Definition env_up : collaborators Q (option string) :=
  fixed [] [cand 1 "a"] [cand 2 "b"] first_response.

Definition env_down : collaborators Q (option string) :=
  cache_down [] [cand 1 "a"] [cand 2 "b"] first_response.

End ExampleSearch.

(** ** Ingestion ([ingest_document], [Database.insert_chunks]) *)

Module Ingestion.
Import PyStr Chunker.

(** [enumerate(l)] *)
Definition enumerate {A : Type} (l : list A) : list (nat * A) :=
  List.combine (List.seq 0 (List.length l)) l.

(** [s[:4000]] *)
Definition cap (s : string) : string := String.substring 0 4000 s.

Section Ingest.
(** [E]: an embedding vector; [D]: the state of the database; [M]: the
    metadata of a document; [T]: a reading of the clock. *)
Context {E D M T : Type}.

(** A chunk [dict] as [insert_chunks] reads it: [enriched_text] and
    [token_count] are read with [c.get], so they may be missing. *)
Record chunk_record : Type := mkChunkRecord {
  chunk_index : Z;
  chunk_text : string;
  enriched_text : option string;
  token_count : option Z;
  embedding : E
}.

(** The [dict] that [ingest_document] returns. *)
Record ingest_result : Type := mkIngestResult {
  document_id : Z;
  title : string;
  chunk_count : Z;
  elapsed_ms : Z
}.

(** The storage and the embedding model.  [insert_document] is a
    transaction of its own and leaves a database state whether it
    returns or raises; [execute_insert] is one [INSERT INTO chunks]
    inside a transaction and [commit] ends the transaction. *)
Record collaborators : Type := mkCollaborators {
  insert_document :
    D -> string -> option string -> option string -> option M -> result Z * D;
  execute_insert : D -> Z -> chunk_record -> result D;
  commit : D -> result D;
  embed_texts : list string -> result (list E);
  monotonic : nat -> T;
  millis_between : T -> T -> Z
}.

Inductive event : Type :=
| EvInsertDocument (title : string)
| EvEmbedTexts (texts : list string)
| EvInsertChunks (document_id : Z) (chunks : list chunk_record).

Record world : Type := mkWorld {
  db : D;
  log : list event;
  clock : nat
}.

Definition record (e : event) (w : world) : world :=
  mkWorld (db w) (log w ++ [e]) (clock w).

Definition with_db (w : world) (d : D) : world :=
  mkWorld d (log w) (clock w).

Definition read_clock (env : collaborators) (w : world) : T * world :=
  (monotonic env (clock w), mkWorld (db w) (log w) (S (clock w))).

Variable env : collaborators.

(** [for c in chunks: cursor.execute(sql, {...})] *)
Fixpoint execute_all (d : D) (document_id : Z) (chunks : list chunk_record)
  : result D :=
  match chunks with
  | [] => Ok d
  | c :: rest =>
      (d' <- execute_insert env d document_id c ;;
       execute_all d' document_id rest)%result
  end.

(** [Database.insert_chunks]: the loop runs inside
    [with self.get_conn() as conn], which commits when the body ends
    and, when the body or the commit raises, rolls back to the state at
    the start and raises again.  The value is [len(chunks)]. *)
Definition insert_chunks (d : D) (document_id : Z) (chunks : list chunk_record)
  : result Z * D :=
  match (d' <- execute_all d document_id chunks ;; commit env d')%result with
  | Ok d' => (Ok (Z.of_nat (List.length chunks)), d')
  | Raise e => (Raise e, d)
  end.

(** [for i, (raw, enr, emb_vec) in enumerate(zip(raw_chunks, enriched,
    embeddings))]: [zip] stops at the shortest list. *)
Definition chunk_records (raw_chunks enriched : list string) (embeddings : list E)
  : list chunk_record :=
  List.map (fun '(i, (raw, enr, emb_vec)) =>
              mkChunkRecord (Z.of_nat i) (cap raw) (Some (cap enr))
                            (Some (word_count raw)) emb_vec)
           (enumerate (List.combine (List.combine raw_chunks enriched)
                                    embeddings)).

(** [ingest_document]: the outcome and the world it leaves; there is no
    [try], so an exception of a collaborator comes out as it is, after
    what was done before it. *)
Definition ingest_document (title : string) (content : string)
           (source doc_type : option string) (metadata : option M) (w : world)
  : result ingest_result * world :=
  let '(t0, w) := read_clock env w in
  let w := record (EvInsertDocument title) w in
  match insert_document env (db w) title source doc_type metadata with
  | (Raise e, d) => (Raise e, with_db w d)
  | (Ok doc_id, d) =>
      let w := with_db w d in
      match _split_text content Settings.chunk_size Settings.chunk_overlap
                        Settings.chunk_separators with
      | Raise e => (Raise e, w)
      | Ok raw_chunks =>
          if negb (nonempty raw_chunks) then
            let '(t1, w) := read_clock env w in
            (Ok (mkIngestResult doc_id title 0 (millis_between env t0 t1)), w)
          else
            let enriched :=
              List.map (fun '(i, c) => _enrich_chunk c title (Z.of_nat i) doc_type)
                       (enumerate raw_chunks) in
            let w := record (EvEmbedTexts enriched) w in
            match embed_texts env enriched with
            | Raise e => (Raise e, w)
            | Ok embeddings =>
                let records := chunk_records raw_chunks enriched embeddings in
                let w := record (EvInsertChunks doc_id records) w in
                match insert_chunks (db w) doc_id records with
                | (Raise e, d) => (Raise e, with_db w d)
                | (Ok inserted, d) =>
                    let w := with_db w d in
                    let '(t1, w) := read_clock env w in
                    (Ok (mkIngestResult doc_id title inserted
                                        (millis_between env t0 t1)), w)
                end
            end
      end
  end.

End Ingest.

Arguments chunk_record E : clear implicits.
Arguments collaborators E D M T : clear implicits.
Arguments event E : clear implicits.
Arguments world E D : clear implicits.

End Ingestion.

(** ** Further definitions used to state properties of the chunker *)

Module ChunkerProps.
Import PyStr Chunker Windows.

(** The words of a list of parts, counted part by part: what
    [current_len] adds up. *)
Definition sum_words (parts : list string) : Z :=
  List.fold_right (fun p n => word_count p + n) 0 parts.

(** The text of a segment made of the parts of [s]. *)
Definition render (sep : string) (s : segment) : string :=
  strip (join sep (seg_words s)).

(** The loop invariant at the level of parts: the segments closed so far
    and the open one, the overlap each one starts with, and the running
    count. *)
Definition tracks (sep : string) (overlap : Z) (st : acc) (done : list string)
  : Prop :=
  exists (segs : list segment) (ov fresh : list string),
    chunks st = List.filter truthy (List.map (render sep) segs) /\
    chained [] segs /\
    (exists pre, last_words [] segs = pre ++ ov) /\
    List.concat (List.map snd segs) ++ fresh = done /\
    current st = ov ++ fresh /\
    Forall (fun s => sum_words (fst s) <= Z.max 0 overlap) segs /\
    sum_words ov <= Z.max 0 overlap /\
    current_len st = sum_words (current st).



(** A segment as returned: trimmed, with at least one word. *)
Definition clean (c : string) : Prop := strip c = c /\ 1 <= word_count c.
End ChunkerProps.

Section FusionStatements.
Context {F : Type} {PF : PyFloat F}.

Definition has_id (cid : Z) (r : candidate F) : bool := chunk_id r =? cid.

(** The record fusion copies for [cid]: the vector record (the last one
    with that identifier), and a keyword record (the first one) only when
    the vector list has none. *)
Definition source_record (vector_results keyword_results : list (candidate F))
           (cid : Z) : option (candidate F) :=
  match List.find (has_id cid) (List.rev vector_results) with
  | Some r => Some r
  | None => List.find (has_id cid) keyword_results
  end.

(** The identifiers in the order fusion first meets them: the vector
    list, then what the keyword list adds. *)
Definition first_seen (vector_ids keyword_ids : list Z) : list Z :=
  vector_ids
  ++ List.filter (fun c => negb (existsb (Z.eqb c) vector_ids)) keyword_ids.

(** Some rank of one of the lists makes the divisor [k + rank + 1] zero. *)
Definition zero_divisor (k : Z) (vector_results keyword_results : list (candidate F))
  : Prop :=
  0 <= - k - 1 <
  Z.of_nat (Nat.max (List.length vector_results) (List.length keyword_results)).

End FusionStatements.

(** Of the identifiers [x] and [y], the ones in [l], in the order of [l]. *)
Definition pick (x y : Z) (l : list Z) : list Z :=
  List.filter (fun z => (z =? x) || (z =? y)) l.

Section RerankMoreStatements.
Context {F : Type} {PF : PyFloat F}.

(** A candidate without its [rerank_score]: what [_rerank] leaves alone. *)
Definition clear_rerank_score (c : candidate F) : candidate F :=
  mkCandidate (chunk_id c) (chunk_text c) (enriched_text c) (document_id c)
              (document_title c) (distance c) (score c) (rrf_score c) None.

End RerankMoreStatements.

Module IngestionProps.
Import Ingestion.

(** What a chunk record must satisfy to be accepted by the [chunks]
    table: a text that is not empty and fits [VARCHAR2(4000)], an
    enriched text that fits, a token count. *)
Definition fits {E : Type} (c : chunk_record E) : Prop :=
  (1 <= String.length (chunk_text c) <= 4000)%nat /\
  (exists t, enriched_text c = Some t /\ (String.length t <= 4000)%nat) /\
  (exists n, token_count c = Some n /\ 1 <= n).

End IngestionProps.

Module ExampleMore.
Import QFloat Example ExampleEnv.

(** A cross-encoder that answers with one score only. *)
Definition env_short : collaborators Q (option string) :=
  fixed [1%Q] [] [] (mkResponse "q" [] 0 0 false).

End ExampleMore.

Module ExampleIngest.
Import Ingestion.

(** A storage that keeps the titles of the documents and, for each chunk,
    its document and index; an embedding model with one number per text,
    or one that is down. *)
Definition store : Type := (list string * list (Z * Z))%type.

Definition storage (embed : list string -> result (list Z))
  : collaborators Z store unit nat :=
  mkCollaborators
    (fun d title _ _ _ =>
       (Ok (Z.of_nat (List.length (fst d)) + 1), (fst d ++ [title], snd d)))
    (fun d doc c => Ok (fst d, snd d ++ [(doc, chunk_index c)]))
    (fun d => Ok d)
    embed
    (fun n => n)
    (fun _ _ => 0).

Definition env_ingest : collaborators Z store unit nat :=
  storage (fun texts => Ok (List.map (fun _ => 0) texts)).

Definition env_model_down : collaborators Z store unit nat :=
  storage (fun _ => Raise (BackendError "model")).

Definition empty_store : world Z store := mkWorld ([], []) [] 0.

End ExampleIngest.

(** ** Facts about the string methods *)

Module PyStrFacts.
Import PyStr TextProps.

Lemma split_ws_blank c s : isspace c = true -> split_ws (String c s) = split_ws s.
Proof. intros H. simpl. now rewrite H. Qed.

Lemma split_ws_starts s : starts_word s = true -> split_ws s <> [].
Proof.
  destruct s as [|c s]; simpl; [discriminate|].
  intros H. apply negb_true_iff in H. rewrite H.
  destruct s as [|c' s]; [discriminate|].
  destruct (isspace c'); [discriminate|].
  destruct (split_ws (String c' s)); discriminate.
Qed.

Lemma split_ws_letter c s :
  isspace c = false ->
  split_ws (String c s) =
    if starts_word s then cons_head c (split_ws s)
    else String c EmptyString :: split_ws s.
Proof.
  intros H. cbn [split_ws]. rewrite H.
  destruct s as [|c' s]; [reflexivity|].
  cbn [starts_word]. destruct (isspace c') eqn:E; cbn [negb].
  - reflexivity.
  - pose proof (@split_ws_starts (String c' s)) as N. cbn [starts_word] in N.
    rewrite E in N. specialize (N eq_refl).
    destruct (split_ws (String c' s)); [contradiction|reflexivity].
Qed.

Lemma split_ws_all_space s : all_space s = true -> split_ws s = [].
Proof.
  induction s as [|c s IH]; [reflexivity|]. cbn [all_space].
  intros H. apply andb_true_iff in H as [H1 H2].
  rewrite split_ws_blank by assumption. auto.
Qed.

Lemma split_ws_nil_all_space s : split_ws s = [] -> all_space s = true.
Proof.
  induction s as [|c s IH]; [reflexivity|]. cbn [all_space].
  destruct (isspace c) eqn:E.
  - rewrite split_ws_blank by assumption. auto.
  - rewrite split_ws_letter by assumption.
    destruct (starts_word s); [|discriminate].
    destruct (split_ws s); discriminate.
Qed.

Lemma starts_word_app a c b :
  isspace c = true -> starts_word (a ++ String c b) = starts_word a.
Proof. intros H. destruct a; simpl; [now rewrite H|reflexivity]. Qed.

(** Words do not straddle a blank. *)
Lemma split_ws_app_blank a c b :
  isspace c = true ->
  split_ws (a ++ String c b) = split_ws a ++ split_ws b.
Proof.
  intros H. induction a as [|x a IH].
  - cbn [String.append]. now rewrite split_ws_blank.
  - change (String x a ++ String c b)%string with (String x (a ++ String c b)).
    destruct (isspace x) eqn:E.
    + now rewrite !split_ws_blank.
    + rewrite !split_ws_letter by assumption.
      rewrite starts_word_app by assumption. rewrite IH.
      destruct (starts_word a) eqn:S; [|reflexivity].
      apply split_ws_starts in S.
      destruct (split_ws a); [contradiction|reflexivity].
Qed.

Lemma split_ws_blank_prefix sep b :
  all_space sep = true -> split_ws (sep ++ b) = split_ws b.
Proof.
  induction sep as [|c sep IH]; [reflexivity|]. cbn [all_space].
  intros H. apply andb_true_iff in H as [H1 H2].
  change (String c sep ++ b)%string with (String c (sep ++ b)).
  rewrite split_ws_blank by assumption. auto.
Qed.

Lemma split_ws_app_sep a sep b :
  truthy sep = true -> all_space sep = true ->
  split_ws (a ++ sep ++ b) = split_ws a ++ split_ws b.
Proof.
  destruct sep as [|c sep]; [discriminate|]. intros _ H.
  cbn [all_space] in H. apply andb_true_iff in H as [H1 H2].
  change (String c sep ++ b)%string with (String c (sep ++ b)).
  rewrite split_ws_app_blank by assumption.
  now rewrite split_ws_blank_prefix.
Qed.

(** The words of a join over a blank separator are the words of the parts. *)
Lemma split_ws_join sep parts :
  truthy sep = true -> all_space sep = true ->
  split_ws (join sep parts) = List.concat (List.map split_ws parts).
Proof.
  intros T A. unfold join. induction parts as [|p ps IH]; [reflexivity|].
  destruct ps as [|q ps].
  - cbn. now rewrite app_nil_r.
  - change (String.concat sep (p :: q :: ps))
      with (p ++ sep ++ String.concat sep (q :: ps))%string.
    rewrite split_ws_app_sep by assumption. rewrite IH. reflexivity.
Qed.

Lemma split_ws_word w : is_word w -> split_ws w = [w].
Proof.
  intros [T N]. induction w as [|c w IH]; [discriminate|].
  cbn [no_space] in N. apply andb_true_iff in N as [N1 N2].
  apply negb_true_iff in N1. rewrite split_ws_letter by assumption.
  destruct w as [|c' w]; [reflexivity|].
  specialize (IH eq_refl N2). rewrite IH.
  cbn [starts_word]. cbn [no_space] in N2.
  apply andb_true_iff in N2 as [N3 _]. now rewrite N3.
Qed.

Lemma cons_head_words c l :
  isspace c = false -> Forall is_word l -> Forall is_word (cons_head c l).
Proof.
  intros H F. destruct F as [|w l [T N] F]; cbn.
  - constructor; [|constructor]. split; [reflexivity|]. cbn. now rewrite H.
  - constructor; [|assumption]. split; [reflexivity|]. cbn. now rewrite H, N.
Qed.

Lemma split_ws_words s : Forall is_word (split_ws s).
Proof.
  induction s as [|c s IH]; [constructor|].
  destruct (isspace c) eqn:E.
  - now rewrite split_ws_blank.
  - rewrite split_ws_letter by assumption. destruct (starts_word s).
    + now apply cons_head_words.
    + constructor; [|assumption]. split; [reflexivity|]. cbn. now rewrite E.
Qed.

(** Joining words with one blank and splitting again gives the words. *)
Lemma split_ws_join_words ws :
  Forall is_word ws -> split_ws (join " " ws) = ws.
Proof.
  intros F. rewrite split_ws_join by reflexivity.
  induction F as [|w ws W F IH]; [reflexivity|].
  cbn [List.map List.concat]. rewrite split_ws_word by assumption.
  now rewrite IH.
Qed.

Lemma split_ws_lstrip s : split_ws (lstrip s) = split_ws s.
Proof.
  induction s as [|c s IH]; [reflexivity|]. cbn [lstrip].
  destruct (isspace c) eqn:E; [|reflexivity].
  now rewrite split_ws_blank.
Qed.

Lemma rstrip_empty s : rstrip s = EmptyString -> all_space s = true.
Proof.
  induction s as [|c s IH]; [reflexivity|]. cbn [rstrip all_space].
  destruct (rstrip s) eqn:R.
  - destruct (isspace c); [auto|discriminate].
  - discriminate.
Qed.

Lemma starts_word_rstrip s : starts_word (rstrip s) = starts_word s.
Proof.
  destruct s as [|c s]; [reflexivity|]. cbn [rstrip].
  destruct (rstrip s) eqn:R.
  - destruct (isspace c) eqn:E; cbn; now rewrite E.
  - reflexivity.
Qed.

Lemma split_ws_rstrip s : split_ws (rstrip s) = split_ws s.
Proof.
  induction s as [|c s IH]; [reflexivity|].
  pose proof (starts_word_rstrip s) as SW.
  cbn [rstrip]. destruct (rstrip s) as [|d r] eqn:R.
  - apply rstrip_empty in R. pose proof (split_ws_all_space _ R) as N.
    destruct (isspace c) eqn:E.
    + rewrite split_ws_blank by assumption. now rewrite N.
    + rewrite (@split_ws_letter c s), (@split_ws_letter c EmptyString)
        by assumption.
      rewrite <- SW. cbn. now rewrite N.
  - destruct (isspace c) eqn:E.
    + rewrite !(@split_ws_blank c) by assumption. exact IH.
    + rewrite !(@split_ws_letter c) by assumption. now rewrite SW, IH.
Qed.

Lemma split_ws_strip s : split_ws (strip s) = split_ws s.
Proof. unfold strip. now rewrite split_ws_rstrip, split_ws_lstrip. Qed.

Lemma lstrip_starts s : lstrip s = EmptyString \/ starts_word (lstrip s) = true.
Proof.
  induction s as [|c s IH]; [now left|]. cbn [lstrip].
  destruct (isspace c) eqn:E; [assumption|]. right. cbn. now rewrite E.
Qed.

(** A stripped string is empty exactly when the string has no word. *)
Lemma truthy_strip s : truthy (strip s) = Chunker.nonempty (split_ws s).
Proof.
  rewrite <- split_ws_strip. unfold strip.
  destruct (lstrip_starts s) as [E|E].
  - rewrite E. reflexivity.
  - rewrite <- starts_word_rstrip in E.
    pose proof (split_ws_starts _ E) as N.
    destruct (rstrip (lstrip s)); [discriminate|].
    destruct (split_ws _); [contradiction|reflexivity].
Qed.

Lemma strip_prefix_app p s rest :
  strip_prefix p s = Some rest -> s = (p ++ rest)%string.
Proof.
  revert s. induction p as [|a p IH]; intros s H.
  - now inversion H.
  - destruct s as [|b s]; [discriminate|]. cbn in H.
    destruct (Ascii.eqb a b) eqn:E; [|discriminate].
    apply Ascii.eqb_eq in E. subst b. cbn. f_equal. auto.
Qed.

Lemma strip_prefix_length p s rest :
  strip_prefix p s = Some rest ->
  String.length s = (String.length p + String.length rest)%nat.
Proof.
  revert s. induction p as [|a p IH]; intros s H.
  - now inversion H.
  - destruct s as [|b s]; [discriminate|]. cbn in H.
    destruct (Ascii.eqb a b); [|discriminate].
    cbn. f_equal. auto.
Qed.

Lemma split_scan_nonnil fuel sep s : split_scan fuel sep s <> [].
Proof.
  destruct fuel; cbn; [discriminate|].
  destruct s; [discriminate|].
  destruct (strip_prefix sep _); [discriminate|].
  destruct (split_scan fuel sep s); discriminate.
Qed.

Lemma join_cons_head sep c l :
  l <> [] -> join sep (cons_head c l) = String c (join sep l).
Proof.
  destruct l as [|p [|q l]]; [contradiction| |]; reflexivity.
Qed.

(** Joining the parts of a split with the separator restores the text. *)
Lemma join_split_scan sep fuel s :
  truthy sep = true -> (String.length s <= fuel)%nat ->
  join sep (split_scan fuel sep s) = s.
Proof.
  intros T. revert s. induction fuel as [|fuel IH]; intros s L.
  - reflexivity.
  - cbn [split_scan]. destruct s as [|c s]; [reflexivity|].
    destruct (strip_prefix sep (String c s)) as [rest|] eqn:P.
    + assert (String.length rest <= fuel)%nat as L'.
      { apply strip_prefix_length in P.
        destruct sep; [discriminate|]. cbn in P, L. lia. }
      apply strip_prefix_app in P.
      specialize (IH rest L').
      pose proof (split_scan_nonnil fuel sep rest) as N.
      unfold join in *. destruct (split_scan fuel sep rest) as [|q l];
        [contradiction|].
      change (String.concat sep (EmptyString :: q :: l))
        with (sep ++ String.concat sep (q :: l))%string.
      now rewrite IH.
    + rewrite join_cons_head by apply split_scan_nonnil.
      rewrite IH; [reflexivity|]. cbn in L. lia.
Qed.

Lemma join_split s sep parts :
  split s sep = Ok parts -> join sep parts = s.
Proof.
  unfold split. destruct sep as [|c sep]; [discriminate|].
  intros H. inversion H. apply join_split_scan; [reflexivity|lia].
Qed.

End PyStrFacts.

(** ** The sliding window *)

Module ChunkerFacts.
Import PyStr PySeq Chunker TextProps PyStrFacts Windows.

Lemma range0_pos n step :
  0 < step ->
  range0 n step =
    Ok (List.map (fun j => Z.of_nat j * step) (List.seq 0 (window_count n step))).
Proof.
  intros H. unfold range0.
  destruct (Z.eqb_spec step 0); [lia|].
  destruct (Z.ltb_spec step 0); [lia|]. reflexivity.
Qed.

Lemma window_count_pos n step : 0 < step -> 0 < n -> (0 < window_count n step)%nat.
Proof.
  intros Hs Hn. unfold window_count.
  assert (1 <= (n + step - 1) / step).
  { apply Z.div_le_lower_bound; lia. }
  lia.
Qed.

Lemma window_count_covers n step :
  0 < step -> 0 <= n -> n <= Z.of_nat (window_count n step) * step.
Proof.
  intros Hs Hn. unfold window_count.
  assert (0 <= (n + step - 1) / step) by (apply Z.div_pos; lia).
  rewrite Z2Nat.id by assumption.
  pose proof (Z.div_mod (n + step - 1) step ltac:(lia)).
  pose proof (Z.mod_pos_bound (n + step - 1) step Hs). nia.
Qed.

Lemma window_start_inside n step j :
  0 < step -> 0 <= n -> (j < window_count n step)%nat -> Z.of_nat j * step < n.
Proof.
  intros Hs Hn. unfold window_count. intros Hj.
  assert (0 <= (n + step - 1) / step) by (apply Z.div_pos; lia).
  assert (Z.of_nat j + 1 <= (n + step - 1) / step) as B by lia.
  pose proof (Z.div_mod (n + step - 1) step ltac:(lia)).
  pose proof (Z.mod_pos_bound (n + step - 1) step Hs). nia.
Qed.

(** A slice with a start inside the list and a positive width. *)
Lemma slice_window {A : Type} (l : list A) (i w : Z) :
  0 <= i -> 0 <= w ->
  slice l i (i + w) = firstn (Z.to_nat w) (skipn (Z.to_nat i) l).
Proof.
  intros Hi Hw. unfold slice, clamp.
  destruct (Z.ltb_spec i 0); [lia|].
  destruct (Z.ltb_spec (i + w) 0); [lia|].
  set (n := List.length l).
  destruct (Nat.le_gt_cases (Z.to_nat i) n) as [L|L].
  - rewrite (Nat.min_l _ _ L).
    destruct (Nat.le_gt_cases (Z.to_nat (i + w)) n) as [L2|L2].
    + rewrite (Nat.min_l _ _ L2). f_equal. lia.
    + rewrite (Nat.min_r _ n) by lia.
      rewrite !firstn_all2; try reflexivity; rewrite length_skipn; fold n; lia.
  - rewrite (Nat.min_r _ n) by lia. rewrite (Nat.min_r _ n) by lia.
    rewrite !skipn_all2 by (fold n; lia). now rewrite !firstn_nil.
Qed.

(** Cutting a list into consecutive blocks of [st] elements loses nothing. *)
Lemma blocks_concat {A : Type} (st : nat) :
  (0 < st)%nat ->
  forall (J : nat) (l : list A),
    (List.length l <= J * st)%nat ->
    List.concat (List.map (fun j => firstn st (skipn (j * st) l)) (List.seq 0 J)) = l.
Proof.
  intros Hst. induction J as [|J IH]; intros l L.
  - destruct l; [reflexivity|cbn in L; lia].
  - rewrite <- cons_seq, <- seq_shift.
    cbn [List.map List.concat]. rewrite map_map. cbn [Nat.mul skipn].
    rewrite (map_ext _ (fun j => firstn st (skipn (j * st) (skipn st l)))).
    + rewrite IH; [apply firstn_skipn|]. rewrite length_skipn. lia.
    + intros j. rewrite skipn_skipn. f_equal. f_equal. lia.
Qed.

Lemma Forall_firstn {A : Type} (P : A -> Prop) n (l : list A) :
  Forall P l -> Forall P (firstn n l).
Proof.
  intros F. revert n. induction F; intros [|n]; cbn; constructor; auto.
Qed.

Lemma Forall_skipn {A : Type} (P : A -> Prop) n (l : list A) :
  Forall P l -> Forall P (skipn n l).
Proof.
  intros F. revert n. induction F; intros [|n]; cbn; auto.
Qed.

Lemma filter_map_all {A B : Type} (f : A -> B) (p : B -> bool) (l : list A) :
  (forall a, In a l -> p (f a) = true) ->
  List.filter p (List.map f l) = List.map f l.
Proof.
  induction l as [|a l IH]; intros H; [reflexivity|]. cbn.
  rewrite H by now left. f_equal. apply IH. intros; apply H. now right.
Qed.

(** What the fallback returns when the step is positive: one window per
    start, each the single-blank join of its words. *)
Lemma fallback_windows text chunk_size overlap :
  0 < chunk_size -> overlap < chunk_size ->
  let words := split_ws text in
  let step := chunk_size - overlap in
  exists windows,
    fallback text chunk_size overlap = Ok windows /\
    List.map split_ws windows =
      List.map (window words chunk_size step)
               (List.seq 0 (window_count (Z.of_nat (List.length words)) step)) /\
    Forall (fun w => w <> []) (List.map split_ws windows).
Proof.
  intros Hc Ho words step. unfold fallback. fold words.
  assert (0 < step) as Hs by (unfold step; lia). fold step.
  rewrite range0_pos by assumption. cbn [rbind].
  set (n := Z.of_nat (List.length words)).
  set (J := window_count n step).
  assert (forall j, In j (List.seq 0 J) ->
            slice words (Z.of_nat j * step) (Z.of_nat j * step + chunk_size)
            = window words chunk_size step j /\
            window words chunk_size step j <> []) as W.
  { intros j Hj. apply in_seq in Hj.
    assert (Z.of_nat j * step < n) as Hin.
    { apply window_start_inside; [lia|unfold n; lia|fold J; lia]. }
    rewrite slice_window by lia. unfold window.
    replace (Z.to_nat (Z.of_nat j * step)) with (j * Z.to_nat step)%nat by nia.
    split; [reflexivity|].
    intros E. apply (f_equal (@List.length _)) in E.
    rewrite length_firstn, length_skipn in E. cbn [List.length] in E.
    unfold n in Hin.
    assert (step = Z.of_nat (Z.to_nat step)) as Es by lia.
    rewrite Es in Hin. nia. }
  assert (Forall is_word words) as FW by apply split_ws_words.
  assert (forall j, Forall is_word (window words chunk_size step j)) as FWj.
  { intros j. unfold window. now apply Forall_firstn, Forall_skipn. }
  eexists. split; [reflexivity|].
  rewrite map_map.
  rewrite (filter_map_all
             (fun i => join " " (slice words i (i + chunk_size)))
             (fun p => truthy (strip p))).
  2:{ intros i Hi. apply in_map_iff in Hi as (j & <- & Hj).
      destruct (W j Hj) as [E N]. rewrite E, truthy_strip.
      rewrite split_ws_join_words by apply FWj.
      destruct (window words chunk_size step j); [contradiction|reflexivity]. }
  rewrite !map_map.
  assert (List.map (fun x => split_ws (strip (join " "
               (slice words (Z.of_nat x * step) (Z.of_nat x * step + chunk_size)))))
            (List.seq 0 J)
          = List.map (window words chunk_size step) (List.seq 0 J)) as M.
  { apply map_ext_in. intros j Hj. destruct (W j Hj) as [E N].
    rewrite split_ws_strip, E. apply split_ws_join_words, FWj. }
  split; [exact M|]. rewrite M.
  apply Forall_forall. intros w Hw. apply in_map_iff in Hw as (j & <- & Hj).
  now destruct (W j Hj).
Qed.

End ChunkerFacts.

(** ** Coverage of the input by the segments *)

Module Coverage.
Import PyStr PySeq Chunker TextProps PyStrFacts Windows ChunkerFacts.

Lemma chained_snoc prev segs s :
  chained prev (segs ++ [s]) <->
  chained prev segs /\ exists pre, last_words prev segs = pre ++ fst s.
Proof.
  revert prev. induction segs as [|t segs IH]; intros prev; cbn.
  - tauto.
  - rewrite IH. unfold last_words. tauto.
Qed.

Lemma last_words_snoc prev segs s : last_words prev (segs ++ [s]) = seg_words s.
Proof. unfold last_words. now rewrite fold_left_app. Qed.



(** The overlap kept for the next segment is a tail of the current parts. *)
Lemma overlap_walk_suffix overlap rc acc len ovp l :
  overlap_walk overlap rc acc len = (ovp, l) ->
  exists pre, List.rev rc ++ acc = pre ++ ovp.
Proof.
  revert acc len. induction rc as [|p rc IH]; intros acc len H; cbn in H.
  - inversion H; subst. now exists [].
  - destruct (len + word_count p >? overlap).
    + inversion H; subst. now exists (List.rev (p :: rc)).
    + apply IH in H. cbn [List.rev]. rewrite <- app_assoc. exact H.
Qed.

Section Separator.
Variables (sep : string) (chunk_size overlap : Z).
Hypothesis sep_truthy : truthy sep = true.
Hypothesis sep_blank : all_space sep = true.



Lemma nonempty_false {A : Type} (l : list A) : nonempty l = false -> l = [].
Proof. destruct l; [reflexivity|discriminate]. Qed.




End Separator.

Lemma find_separator_parts text separators sep parts :
  find_separator text separators = Ok (Some (sep, parts)) ->
  split text sep = Ok parts.
Proof.
  induction separators as [|s rest IH]; cbn [find_separator]; [discriminate|].
  destruct (split text s) as [ps|e] eqn:E; cbn [rbind]; [|discriminate].
  destruct (1 <? List.length ps)%nat; [|exact IH].
  intros H. inversion H; subst. exact E.
Qed.

End Coverage.

Module WindowCoverage.
Import PyStr PySeq Chunker TextProps PyStrFacts Windows ChunkerFacts Coverage.




Section Windows.
Variables (words : list string) (st ovn : nat).
Hypothesis st_pos : (0 < st)%nat.

Let W (j : nat) : list string := firstn (st + ovn) (skipn (j * st) words).




End Windows.

End WindowCoverage.

(** ** The chunker's properties *)

Module ChunkerTheorems.
Import PyStr PySeq Chunker TextProps PyStrFacts Windows ChunkerFacts Coverage.
Import WindowCoverage Settings.
Import Example.

(** C1, as stated, fails.  The code has no minimum step: on a text of
    three tab-separated words, which no configured separator cuts, a
    target size of 2 with overlap 2 makes the step zero and [range] raises
    [ValueError]; with overlap 3 the step is negative, the range is empty
    and the result is the empty list. *)
Lemma fallback_nonpositive_step_counterexample :
  let text := ("a" ++ tab ++ "b" ++ tab ++ "c")%string in
  find_separator text chunk_separators = Ok None /\
  word_count text = 3 /\
  _split_text text 2 2 chunk_separators = Raise ValueError /\
  _split_text text 2 3 chunk_separators = Ok [] /\
  ~ (exists windows, _split_text text 2 2 chunk_separators = Ok windows
                     /\ windows <> []) /\
  ~ (exists windows, _split_text text 2 3 chunk_separators = Ok windows
                     /\ windows <> []).
Proof.
  cbv zeta. repeat split; try reflexivity.
  - intros (w & H & _). vm_compute in H. discriminate.
  - intros (w & H & N). vm_compute in H. inversion H. subst. now apply N.
Qed.

(** C1 (amended).  For every text that no configured separator cuts and
    that has more than [chunk_size] words, and every overlap with
    [0 <= overlap < chunk_size], the split returns without raising a
    non-empty list of windows, one per start [0, step, 2 * step, ...]
    below the number of words, where [step = chunk_size - overlap]; every
    window has between 1 and [chunk_size] words, and the first [step]
    words of the windows, one window after the other, are the words of
    the text. *)
Theorem split_text_fallback_progress text chunk_size overlap separators :
  find_separator text separators = Ok None ->
  chunk_size < word_count text ->
  0 <= overlap < chunk_size ->
  exists windows,
    _split_text text chunk_size overlap separators = Ok windows /\
    windows <> [] /\
    List.length windows
      = window_count (word_count text) (chunk_size - overlap) /\
    Forall (fun w => 1 <= word_count w <= chunk_size) windows /\
    List.concat
      (List.map (fun w => firstn (Z.to_nat (chunk_size - overlap)) (split_ws w))
                windows)
      = split_ws text.
Proof.
  intros Hsep Hlen Hov. unfold _split_text.
  destruct (Z.leb_spec (word_count text) chunk_size); [lia|]. rewrite Hsep.
  destruct (fallback_windows text chunk_size overlap) as (ws & E & M & N);
    [lia|lia|].
  cbv zeta in M, N. fold (word_count text) in M.
  set (step := chunk_size - overlap) in *.
  set (J := window_count (word_count text) step) in *.
  assert (0 < step) as Hs by (unfold step; lia).
  assert (List.length ws = J) as L.
  { apply (f_equal (@List.length _)) in M.
    now rewrite !length_map, length_seq in M. }
  exists ws. split; [exact E|]. split; [|split; [exact L|split]].
  - intros ->. cbn in L.
    pose proof (window_count_pos (word_count text) step Hs ltac:(lia)).
    fold J in H0. lia.
  - apply Forall_forall. intros w Hw.
    assert (In (split_ws w) (List.map split_ws ws)) as Hin by now apply in_map.
    pose proof (proj1 (Forall_forall _ _) N _ Hin) as Hne.
    rewrite M in Hin. apply in_map_iff in Hin as (j & Ej & _).
    assert (List.length (split_ws w) <= Z.to_nat chunk_size)%nat as B.
    { rewrite <- Ej. unfold window. rewrite length_firstn. lia. }
    unfold word_count.
    destruct (split_ws w); [contradiction|cbn [List.length] in *; lia].
  - rewrite <- (map_map split_ws (firstn (Z.to_nat step))), M, map_map.
    unfold window.
    rewrite (map_ext _ (fun j => firstn (Z.to_nat step)
                                   (skipn (j * Z.to_nat step) (split_ws text)))).
    + apply blocks_concat; [lia|].
      pose proof (window_count_covers (word_count text) step Hs ltac:(lia)).
      fold J in H0. unfold word_count in H0. nia.
    + intros j. rewrite firstn_firstn. f_equal. lia.
Qed.

Lemma split_text_fallback_progress_witness :
  exists windows,
    _split_text ("a" ++ tab ++ "b" ++ tab ++ "c")%string 2 1 chunk_separators
      = Ok windows /\
    windows <> [] /\
    List.length windows = window_count 3 (2 - 1) /\
    Forall (fun w => 1 <= word_count w <= 2) windows /\
    List.concat (List.map (fun w => firstn (Z.to_nat (2 - 1)) (split_ws w)) windows)
      = ["a"; "b"; "c"]%string.
Proof.
  apply (split_text_fallback_progress
           ("a" ++ tab ++ "b" ++ tab ++ "c")%string 2 1 chunk_separators).
  - reflexivity.
  - vm_compute. reflexivity.
  - lia.
Defined.

(** C2.  The code breaks the size bound without any indivisible unit:
    with target size 3 and overlap 2 the lines "a", "b", "c", "d e" (each
    of at most 2 words) give the segments "a b c" and "b c d e"; the
    second has 4 words, because the overlap "b", "c" carried over is not
    checked against the size of the line added to it.  With the
    configured size 512 and overlap 64, a line of 64 words followed by a
    line of 449 words gives a second segment of 513 words. *)
Example split_text_overlap_exceeds_target :
  let text := ("a" ++ nl ++ "b" ++ nl ++ "c" ++ nl ++ "d e")%string in
  find_separator text chunk_separators
    = Ok (Some (nl, ["a"; "b"; "c"; "d e"]%string)) /\
  Forall (fun p => word_count p <= 3 - 2) ["a"; "b"; "c"]%string /\
  word_count "d e" = 2 /\
  _split_text text 3 2 chunk_separators
    = Ok [("a" ++ nl ++ "b" ++ nl ++ "c")%string;
          ("b" ++ nl ++ "c" ++ nl ++ "d e")%string] /\
  word_count ("b" ++ nl ++ "c" ++ nl ++ "d e")%string = 4 /\
  word_count (line 64) = 64 /\ word_count (line 449) = 449 /\
  _split_text (line 64 ++ nl ++ line 449)%string
              Settings.chunk_size Settings.chunk_overlap chunk_separators
    = Ok [line 64; (line 64 ++ nl ++ line 449)%string] /\
  word_count (line 64 ++ nl ++ line 449)%string = 513.
Proof.
  cbv zeta. repeat split; try (vm_compute; reflexivity).
  repeat constructor; vm_compute; discriminate.
Qed.




End ChunkerTheorems.

(** ** Facts about dictionaries and sorting *)

Module PyDictFacts.
Import PyDict.

Lemma get_set_same {V : Type} (d : dict V) k v : get (set k v d) k = Some v.
Proof.
  induction d as [|[k' v'] d IH]; cbn.
  - now rewrite Z.eqb_refl.
  - destruct (Z.eqb_spec k k'); cbn.
    + now rewrite Z.eqb_refl.
    + destruct (Z.eqb_spec k k'); [contradiction|exact IH].
Qed.

Lemma get_set_other {V : Type} (d : dict V) k v x :
  x <> k -> get (set k v d) x = get d x.
Proof.
  intros N. induction d as [|[k' v'] d IH]; cbn.
  - destruct (Z.eqb_spec x k); [contradiction|reflexivity].
  - destruct (Z.eqb_spec k k') as [->|N']; cbn.
    + destruct (Z.eqb_spec x k'); [contradiction|reflexivity].
    + now rewrite IH.
Qed.

Lemma get_in_keys {V : Type} (d : dict V) k : In k (keys d) <-> get d k <> None.
Proof.
  induction d as [|[k' v'] d IH]; cbn.
  - split; [intros []|intros H; now apply H].
  - destruct (Z.eqb_spec k k') as [->|N].
    + split; [discriminate|now left].
    + rewrite <- IH. split; [intros [E|H]; [now subst|exact H]|now right].
Qed.

Lemma in_keys_set {V : Type} (d : dict V) k v x :
  In x (keys (set k v d)) <-> x = k \/ In x (keys d).
Proof.
  rewrite !get_in_keys. destruct (Z.eq_dec x k) as [->|N].
  - rewrite get_set_same. split; [now left|discriminate].
  - rewrite get_set_other by assumption. split; [now right|].
    intros [E|H]; [contradiction|exact H].
Qed.

Lemma keys_set_nodup {V : Type} (d : dict V) k v :
  NoDup (keys d) -> NoDup (keys (set k v d)).
Proof.
  induction d as [|[k' v'] d IH]; cbn; intros H.
  - constructor; [intros []|constructor].
  - inversion H as [|? ? Hn Hd]; subst.
    destruct (Z.eqb_spec k k') as [->|N]; cbn.
    + now constructor.
    + constructor; [|now apply IH].
      change (~ In k' (keys (set k v d))). rewrite in_keys_set.
      intros [E|I]; [now subst|contradiction].
Qed.

Lemma get_in {V : Type} (d : dict V) k v :
  NoDup (keys d) -> In (k, v) d -> get d k = Some v.
Proof.
  induction d as [|[k' v'] d IH]; cbn; intros H I; [contradiction|].
  inversion H as [|? ? Hn Hd]; subst.
  destruct I as [E|I].
  - inversion E; subst. now rewrite Z.eqb_refl.
  - destruct (Z.eqb_spec k k') as [->|N]; [|now apply IH].
    exfalso. apply Hn. change (In k' (keys d)).
    apply in_map_iff. now exists (k', v).
Qed.

End PyDictFacts.

Module PySortFacts.
Import PySort.

Section SortFacts.
Context {F : Type} {PF : PyFloat F} {A : Type}.
Variable key : A -> F.

Lemma insert_desc_perm x l : Permutation (insert_desc key x l) (x :: l).
Proof.
  induction l as [|y l IH]; cbn; [reflexivity|].
  destruct (flt (key x) (key y)); [|reflexivity].
  rewrite IH. apply perm_swap.
Qed.

Lemma sorted_desc_perm l : Permutation (sorted_desc key l) l.
Proof.
  induction l as [|x l IH]; cbn; [reflexivity|].
  rewrite insert_desc_perm. now constructor.
Qed.

Hypothesis order : float_order (F := F).

Lemma insert_desc_sorted x l :
  descending key l -> descending key (insert_desc key x l).
Proof.
  unfold descending. induction l as [|y l IH]; cbn; intros H.
  - constructor; constructor.
  - inversion H as [|? ? Hs Hf]; subst.
    destruct (flt (key x) (key y)) eqn:E.
    + constructor; [now apply IH|].
      apply Forall_forall. intros z Hz.
      apply (Permutation_in _ (insert_desc_perm x l)) in Hz.
      destruct Hz as [<-|Hz].
      * unfold fle. now apply (flt_asym order).
      * exact (proj1 (Forall_forall _ _) Hf z Hz).
    + constructor; [exact H|]. constructor.
      * unfold fle. exact E.
      * apply Forall_forall. intros z Hz.
        pose proof (proj1 (Forall_forall _ _) Hf z Hz) as Hyz.
        apply (fle_trans order) with (y := key y); [exact Hyz|].
        unfold fle. exact E.
Qed.

Lemma sorted_desc_sorted l : descending key (sorted_desc key l).
Proof.
  induction l as [|x l IH]; cbn; [constructor|].
  now apply insert_desc_sorted.
Qed.
End SortFacts.
End PySortFacts.

(** ** Reciprocal Rank Fusion *)

Module FusionFacts.
Import PyDict PyDictFacts PySort PySortFacts.

Section Facts.
Context {F : Type} {PF : PyFloat F}.
Variable settings : retrieval_settings F.

Lemma vector_pass_split k (rs : list (candidate F)) : forall rank scores cm,
  vector_pass settings k rank rs scores cm =
    (scores' <- scores_pass (vector_weight settings) k rank (ids rs) scores ;;
     Ok (scores', vector_map rs cm))%result.
Proof.
  induction rs as [|r rs IH]; intros rank scores cm; cbn; [reflexivity|].
  destruct (add_contribution _ k rank (chunk_id r) scores); [|reflexivity].
  apply IH.
Qed.

Lemma keyword_pass_split k (rs : list (candidate F)) : forall rank scores cm,
  keyword_pass settings k rank rs scores cm =
    (scores' <- scores_pass (keyword_weight settings) k rank (ids rs) scores ;;
     Ok (scores', keyword_map rs cm))%result.
Proof.
  induction rs as [|r rs IH]; intros rank scores cm; cbn; [reflexivity|].
  destruct (add_contribution _ k rank (chunk_id r) scores); [|reflexivity].
  apply IH.
Qed.

(** What a pass leaves in [scores]. *)
Lemma scores_pass_spec weight k cids : forall rank scores,
  0 <= k -> NoDup cids -> NoDup (keys scores) ->
  exists scores',
    scores_pass weight k rank cids scores = Ok scores' /\
    NoDup (keys scores') /\
    (forall x, In x (keys scores') <-> In x (keys scores) \/ In x cids) /\
    (forall x, get scores' x =
               match rank_of x cids with
               | Some r => Some (fadd (get_default scores x (flit 0))
                                      (fdiv_int weight
                                                (k + Z.of_nat (rank + r) + 1)))
               | None => get scores x
               end).
Proof.
  induction cids as [|cid cids IH]; intros rank scores Hk Hnd Hs.
  - exists scores. cbn. repeat split; auto. intros [H|[]]; exact H.
  - inversion Hnd as [|? ? Hn Hnd']; subst. cbn [scores_pass].
    unfold add_contribution.
    destruct (Z.eqb_spec (k + Z.of_nat rank + 1) 0) as [E|_]; [lia|].
    set (scores1 := set cid _ scores).
    destruct (IH (S rank) scores1 Hk Hnd' (keys_set_nodup _ _ _ Hs))
      as (scores' & E & Hnd2 & Hin & Hget).
    exists scores'. split; [exact E|]. split; [exact Hnd2|]. split.
    + intros x. rewrite Hin. unfold scores1. rewrite in_keys_set. cbn.
      intuition (subst; auto).
    + intros x. rewrite Hget. cbn [rank_of].
      destruct (Z.eqb_spec x cid) as [->|N].
      * assert (rank_of cid cids = None) as R.
        { clear -Hn. induction cids as [|y l IH]; [reflexivity|]. cbn.
          destruct (Z.eqb_spec cid y) as [->|_]; [exfalso; apply Hn; now left|].
          rewrite IH; [reflexivity|]. intros H. apply Hn. now right. }
        rewrite R. unfold scores1. rewrite get_set_same.
        now rewrite Nat.add_0_r.
      * unfold scores1, get_default. rewrite get_set_other by assumption.
        destruct (rank_of x cids) as [r|]; cbn [option_map]; [|reflexivity].
        do 3 f_equal. lia.
Qed.

Lemma in_keys_vector_map (rs : list (candidate F)) : forall cm x,
  In x (keys (vector_map rs cm)) <-> In x (keys cm) \/ In x (ids rs).
Proof.
  induction rs as [|r rs IH]; intros cm x.
  - cbn. tauto.
  - change (vector_map (r :: rs) cm)
      with (vector_map rs (set (chunk_id r) r cm)).
    change (ids (r :: rs)) with (chunk_id r :: ids rs).
    rewrite IH, in_keys_set. cbn [In]. intuition (subst; auto).
Qed.

Lemma in_keys_keyword_map (rs : list (candidate F)) : forall cm x,
  In x (keys (keyword_map rs cm)) <-> In x (keys cm) \/ In x (ids rs).
Proof.
  induction rs as [|r rs IH]; intros cm x.
  - cbn. tauto.
  - change (keyword_map (r :: rs) cm)
      with (keyword_map rs (if mem cm (chunk_id r) then cm
                            else set (chunk_id r) r cm)).
    change (ids (r :: rs)) with (chunk_id r :: ids rs).
    rewrite IH. unfold mem. cbn [In].
    destruct (get cm (chunk_id r)) eqn:G.
    + assert (In (chunk_id r) (keys cm)) by (apply get_in_keys; congruence).
      intuition (subst; auto).
    + rewrite in_keys_set. intuition (subst; auto).
Qed.

Lemma keyed_by_id_set (cm : PyDict.dict (candidate F)) r :
  keyed_by_id cm -> keyed_by_id (set (chunk_id r) r cm).
Proof.
  intros H x c. destruct (Z.eq_dec x (chunk_id r)) as [->|N].
  - rewrite get_set_same. now intros [= <-].
  - rewrite get_set_other by assumption. apply H.
Qed.

Lemma keyed_by_id_vector_map (rs : list (candidate F)) : forall cm,
  keyed_by_id cm -> keyed_by_id (vector_map rs cm).
Proof.
  induction rs as [|r rs IH]; intros cm H; cbn; [exact H|].
  apply IH, keyed_by_id_set, H.
Qed.

Lemma keyed_by_id_keyword_map (rs : list (candidate F)) : forall cm,
  keyed_by_id cm -> keyed_by_id (keyword_map rs cm).
Proof.
  induction rs as [|r rs IH]; intros cm H; cbn; [exact H|].
  apply IH. destruct (mem cm (chunk_id r)); [exact H|].
  apply keyed_by_id_set, H.
Qed.

(** The output records, one per ranked item. *)
Lemma build_results_spec (cm : PyDict.dict (candidate F)) ranked :
  keyed_by_id cm ->
  (forall x, In x (List.map fst ranked) -> In x (keys cm)) ->
  exists out,
    build_results cm ranked = Ok out /\
    ids out = List.map fst ranked /\
    Forall2 (fun c p => rrf_score c = Some (fround (snd p) 6)) out ranked.
Proof.
  intros Hk. induction ranked as [|[cid s] ranked IH]; intros Hin.
  - exists []. cbn. repeat split; constructor.
  - destruct IH as (out & E & Hids & Hf).
    { intros x Hx. apply Hin. now right. }
    cbn [build_results]. unfold item.
    assert (In cid (keys cm)) as Hc by (apply Hin; now left).
    apply get_in_keys in Hc.
    destruct (get cm cid) as [c|] eqn:G; [|contradiction].
    rewrite E. exists (set_rrf_score c (fround s 6) :: out).
    split; [reflexivity|]. split.
    + cbn. f_equal; [now apply Hk|exact Hids].
    + constructor; [reflexivity|exact Hf].
Qed.

Lemma rank_of_in x l : In x l <-> rank_of x l <> None.
Proof.
  induction l as [|y l IH]; cbn.
  - split; [intros []|intros H; now apply H].
  - destruct (Z.eqb_spec x y) as [->|N].
    + split; [discriminate|now left].
    + destruct (rank_of x l) as [r|] eqn:R; cbn.
      * split; [discriminate|]. intros _. right. apply IH. discriminate.
      * split; [|intros H; now contradiction H].
        intros [E|H]; [now subst|]. apply IH in H. now contradiction H.
Qed.

(** The dictionaries after the two passes. *)
Lemma passes_spec vec kw k :
  0 <= k -> NoDup (ids vec) -> NoDup (ids kw) ->
  exists scores cm,
    (pass1 <- vector_pass settings k 0 vec [] [] ;;
     keyword_pass settings k 0 kw (fst pass1) (snd pass1))%result
    = Ok (scores, cm) /\
    NoDup (keys scores) /\
    (forall x, In x (keys scores) <-> In x (ids vec) \/ In x (ids kw)) /\
    (forall x, In x (keys scores) -> In x (keys cm)) /\
    keyed_by_id cm /\
    (forall x s, get scores x = Some s ->
                 s = rrf_total settings k (ids vec) (ids kw) x).
Proof.
  intros Hk Hv Hw.
  destruct (scores_pass_spec (vector_weight settings) k (ids vec) 0 []
                             Hk Hv (NoDup_nil _))
    as (s1 & E1 & N1 & I1 & G1).
  destruct (scores_pass_spec (keyword_weight settings) k (ids kw) 0 s1
                             Hk Hw N1)
    as (s2 & E2 & N2 & I2 & G2).
  exists s2, (keyword_map kw (vector_map vec [])).
  rewrite vector_pass_split, E1. cbn [rbind fst snd].
  rewrite keyword_pass_split, E2. cbn [rbind].
  split; [reflexivity|]. split; [exact N2|]. split; [|split; [|split]].
  - intros x. rewrite I2, I1. cbn. tauto.
  - intros x. rewrite I2, I1, in_keys_keyword_map, in_keys_vector_map. tauto.
  - apply keyed_by_id_keyword_map, keyed_by_id_vector_map.
    intros x c H. discriminate.
  - intros x s. rewrite G2. unfold rrf_total, get_default. rewrite G1.
    cbn [get Nat.add].
    destruct (rank_of x (ids kw)) as [r2|].
    + intros [= <-]. destruct (rank_of x (ids vec)); reflexivity.
    + destruct (rank_of x (ids vec)); [|discriminate]. now intros [= <-].
Qed.

End Facts.
End FusionFacts.

Module FusionTheorems.
Import PyDict PyDictFacts PySort PySortFacts FusionFacts.

Section Theorems.
Context {F : Type} {PF : PyFloat F}.
Variable settings : retrieval_settings F.

Lemma get_some_in {V : Type} (d : dict V) k v : get d k = Some v -> In (k, v) d.
Proof.
  induction d as [|[k' v'] d IH]; cbn; [discriminate|].
  destruct (Z.eqb_spec k k') as [->|N].
  - intros [= ->]. now left.
  - intros H. right. now apply IH.
Qed.

(** What fusion computes: the items of [scores], ranked. *)
Lemma fusion_spec vec kw k :
  0 <= k -> NoDup (ids vec) -> NoDup (ids kw) ->
  exists out ranked,
    _reciprocal_rank_fusion settings vec kw k = Ok out /\
    ids out = List.map fst ranked /\
    NoDup (List.map fst ranked) /\
    (forall x, In x (List.map fst ranked) <-> In x (ids vec) \/ In x (ids kw)) /\
    Forall (fun p => snd p = rrf_total settings k (ids vec) (ids kw) (fst p))
           ranked /\
    (float_order (F := F) -> descending snd ranked) /\
    Forall2 (fun c p => rrf_score c = Some (fround (snd p) 6)) out ranked.
Proof.
  intros Hk Hv Hw.
  destruct (passes_spec settings vec kw k Hk Hv Hw)
    as (scores & cm & E & Nd & Hin & Hcm & Hid & Hget).
  unfold _reciprocal_rank_fusion.
  destruct (vector_pass settings k 0 vec [] []) as [pass1|e];
    cbn [rbind] in E |- *; [|discriminate].
  rewrite E. cbn [rbind fst snd].
  pose proof (sorted_desc_perm (@snd Z F) scores) as P.
  set (ranked := sorted_desc snd scores) in *.
  assert (Permutation (List.map fst ranked) (keys scores)) as Pk
      by now apply Permutation_map.
  destruct (build_results_spec cm ranked Hid) as (out & Eo & Hids & Hf).
  { intros x Hx. apply Hcm. now apply (Permutation_in _ Pk). }
  exists out, ranked. split; [exact Eo|]. split; [exact Hids|].
  split; [|split; [|split; [|split]]].
  - apply (Permutation_NoDup (Permutation_sym Pk) Nd).
  - intros x. rewrite <- Hin. split; apply Permutation_in; [|symmetry]; exact Pk.
  - apply Forall_forall. intros [x s] Hx. cbn.
    apply Hget, get_in; [exact Nd|]. now apply (Permutation_in _ P).
  - intros order. now apply sorted_desc_sorted.
  - exact Hf.
Qed.

Lemma reported_score_spec out ranked cid t :
  ids out = List.map fst ranked ->
  NoDup (List.map fst ranked) ->
  Forall2 (fun c p => rrf_score c = Some (fround (snd p) 6)) out ranked ->
  In (cid, t) ranked ->
  reported_score out cid = Some (fround t 6).
Proof.
  intros Hids Hnd Hf. revert Hids Hnd.
  induction Hf as [|c [x s] out ranked Hc Hf IH]; intros Hids Hnd Hin;
    [contradiction|].
  cbn in Hids. injection Hids as Hx Hids. cbn [reported_score].
  inversion Hnd as [|? ? Hn Hnd']; subst.
  destruct Hin as [[= -> ->]|Hin].
  - now rewrite Z.eqb_refl.
  - destruct (Z.eqb_spec cid (chunk_id c)) as [->|N]; [|now apply IH].
    exfalso. apply Hn. apply in_map_iff. now exists (chunk_id c, t).
Qed.

Lemma sorted_map_snd (ranked : list (Z * F)) :
  descending snd ranked ->
  StronglySorted (fun a b => fle b a) (List.map snd ranked).
Proof.
  unfold descending. induction 1 as [|p l Hs IH Hf]; cbn; constructor.
  - exact IH.
  - apply Forall_forall. intros t Ht. apply in_map_iff in Ht as (q & <- & Hq).
    exact (proj1 (Forall_forall _ _) Hf q Hq).
Qed.

(** C3 (amended).  For ranked lists without repeated identifiers and a
    smoothing constant [0 <= k], fusion returns a list that holds every
    identifier of the two inputs exactly once and nothing else (its
    length is the number of distinct identifiers).  Each candidate is
    ranked by the total [t] that starts at 0.0 and adds
    [weight / (k + rank + 1)] for each list it is in; the [rrf_score]
    attached to it is [round(t, 6)], not [t]; the output is in
    descending order of [t]. *)
Theorem rrf_union_and_scores vec kw k :
  float_order (F := F) ->
  0 <= k -> NoDup (ids vec) -> NoDup (ids kw) ->
  exists (out : list (candidate F)) (totals : list F),
    _reciprocal_rank_fusion settings vec kw k = Ok out /\
    NoDup (ids out) /\
    (forall cid, In cid (ids out) <-> In cid (ids vec) \/ In cid (ids kw)) /\
    List.length out = List.length (nodup Z.eq_dec (ids vec ++ ids kw)) /\
    Forall2 (fun c t =>
               t = rrf_total settings k (ids vec) (ids kw) (chunk_id c) /\
               rrf_score c = Some (fround t 6)) out totals /\
    StronglySorted (fun a b => fle b a) totals.
Proof.
  intros order Hk Hv Hw.
  destruct (fusion_spec vec kw k Hk Hv Hw)
    as (out & ranked & E & Hids & Nd & Hin & Ht & Hs & Hf).
  exists out, (List.map snd ranked). split; [exact E|].
  rewrite Hids. split; [exact Nd|]. split; [exact Hin|].
  split; [|split].
  - rewrite <- (length_map chunk_id). fold (ids out). rewrite Hids.
    apply Permutation_length, NoDup_Permutation;
      [exact Nd|apply NoDup_nodup|].
    intros x. rewrite Hin, nodup_In, in_app_iff. tauto.
  - clear -Hids Ht Hf. revert Hids Ht.
    induction Hf as [|c [x s] out ranked Hc Hf IH]; intros Hids Ht;
      [constructor|].
    cbn in Hids. injection Hids as Hx Hids.
    inversion Ht as [|? ? Hp Ht']; subst. cbn in *.
    constructor; [split; assumption|now apply IH].
  - now apply sorted_map_snd, Hs.
Qed.

(** C8.  With non-negative weights (equal or not), a candidate [b] that
    is in both lists at ranks [r1, r2 <= r] gets a fused score that is
    not below the score of a candidate [s] that is in one list only, at
    a rank [r' >= r]: this holds for the totals and for the rounded
    scores that are reported. *)
Theorem rrf_both_lists_dominates vec kw k b s r1 r2 r r' :
  float_order (F := F) -> float_monotone (F := F) ->
  0 <= k -> NoDup (ids vec) -> NoDup (ids kw) ->
  fle (flit 0) (vector_weight settings) ->
  fle (flit 0) (keyword_weight settings) ->
  rank_of b (ids vec) = Some r1 -> rank_of b (ids kw) = Some r2 ->
  (r1 <= r)%nat -> (r2 <= r)%nat -> (r <= r')%nat ->
  (rank_of s (ids vec) = Some r' /\ rank_of s (ids kw) = None) \/
  (rank_of s (ids vec) = None /\ rank_of s (ids kw) = Some r') ->
  exists out sb ss,
    _reciprocal_rank_fusion settings vec kw k = Ok out /\
    reported_score out b = Some sb /\
    reported_score out s = Some ss /\
    fle ss sb /\
    fle (rrf_total settings k (ids vec) (ids kw) s)
        (rrf_total settings k (ids vec) (ids kw) b).
Proof.
  intros order mono Hk Hv Hw Wv Wk Hb1 Hb2 L1 L2 L Hs.
  destruct (fusion_spec vec kw k Hk Hv Hw)
    as (out & ranked & E & Hids & Nd & Hin & Ht & _ & Hf).
  assert (forall x, In x (ids vec) \/ In x (ids kw) ->
            reported_score out x
            = Some (fround (rrf_total settings k (ids vec) (ids kw) x) 6)) as R.
  { intros x Hx. apply Hin in Hx. apply in_map_iff in Hx as ([y t] & <- & Hp).
    pose proof (proj1 (Forall_forall _ _) Ht _ Hp) as Et. cbn in Et. subst t.
    now apply (reported_score_spec out ranked). }
  assert (fle (rrf_total settings k (ids vec) (ids kw) s)
              (rrf_total settings k (ids vec) (ids kw) b)) as Le.
  { unfold rrf_total. rewrite Hb1, Hb2.
    set (z := flit 0).
    assert (fle z (fdiv_int (vector_weight settings) (k + Z.of_nat r1 + 1)))
      as Pv by (apply (fdiv_nonneg mono); [exact Wv|lia]).
    assert (fle z (fdiv_int (keyword_weight settings) (k + Z.of_nat r2 + 1)))
      as Pk by (apply (fdiv_nonneg mono); [exact Wk|lia]).
    destruct Hs as [[-> ->]|[-> ->]].
    - apply (fle_trans order)
        with (y := fadd z (fdiv_int (vector_weight settings)
                                    (k + Z.of_nat r1 + 1))).
      + apply (fadd_mono mono).
        * unfold fle. destruct (flt z z) eqn:Ez; [|reflexivity].
          now rewrite (flt_asym order _ _ Ez) in Ez.
        * apply (fdiv_antitone mono); [exact Wv|lia|lia].
      + now apply (fadd_nonneg mono).
    - apply (fle_trans order)
        with (y := fadd z (fdiv_int (keyword_weight settings)
                                    (k + Z.of_nat r2 + 1))).
      + apply (fadd_mono mono).
        * unfold fle. destruct (flt z z) eqn:Ez; [|reflexivity].
          now rewrite (flt_asym order _ _ Ez) in Ez.
        * apply (fdiv_antitone mono); [exact Wk|lia|lia].
      + apply (fadd_mono mono).
        * now apply (fadd_nonneg mono).
        * unfold fle.
          destruct (flt (fdiv_int (keyword_weight settings)
                                  (k + Z.of_nat r2 + 1))
                        (fdiv_int (keyword_weight settings)
                                  (k + Z.of_nat r2 + 1))) eqn:Ez;
            [|reflexivity].
          now rewrite (flt_asym order _ _ Ez) in Ez. }
  exists out, (fround (rrf_total settings k (ids vec) (ids kw) b) 6),
    (fround (rrf_total settings k (ids vec) (ids kw) s) 6).
  split; [exact E|]. split; [|split; [|split]].
  - apply R. left. apply rank_of_in. congruence.
  - apply R. destruct Hs as [[H _]|[_ H]]; [left|right];
      apply rank_of_in; congruence.
  - now apply (fround_mono mono).
  - exact Le.
Qed.

End Theorems.
End FusionTheorems.

(** ** Reranking *)

Module RerankFacts.
Import PySeq PySort PySortFacts.

Section Facts.
Context {F : Type} {PF : PyFloat F} {C : Type}.
Variable env : collaborators F C.






(** Stability: elements none of which is less than another keep their
    order. *)
Lemma insert_desc_stable {A : Type} (key : A -> F) (p : A -> bool) x l :
  (forall y, In y l -> p x = true -> p y = true -> flt (key x) (key y) = false) ->
  List.filter p (insert_desc key x l) = List.filter p (x :: l).
Proof.
  induction l as [|y l IH]; intros H; [reflexivity|]. cbn [insert_desc].
  destruct (flt (key x) (key y)) eqn:E; [|reflexivity].
  cbn [List.filter]. rewrite IH by (intros z Hz; apply H; now right).
  cbn [List.filter]. destruct (p x) eqn:Px; [|reflexivity].
  destruct (p y) eqn:Py; [|reflexivity].
  rewrite (H y (or_introl eq_refl) eq_refl Py) in E. discriminate.
Qed.


Lemma slice_to_length {A : Type} (l : list A) (n : Z) :
  0 <= n -> Z.of_nat (List.length (slice_to l n)) <= n.
Proof.
  intros H. unfold slice_to, clamp. destruct (Z.ltb_spec n 0); [lia|].
  rewrite length_firstn. lia.
Qed.

Lemma in_firstn {A : Type} n (l : list A) y : In y (firstn n l) -> In y l.
Proof.
  revert n. induction l as [|x l IH]; intros [|n]; cbn; try tauto.
  intros [E|H]; [now left|right; now apply (IH n)].
Qed.



End Facts.
End RerankFacts.

(** ** The exact rationals satisfy the float laws *)

Module QFloatFacts.
Import QFloat.

Lemma fle_Qle (x y : Q) : fle x y <-> (x <= y)%Q.
Proof.
  unfold fle. cbn. rewrite negb_false_iff. apply Qle_bool_iff.
Qed.

Lemma Q_float_order : float_order (F := Q).
Proof.
  split.
  - intros x y H. cbn in *. apply negb_true_iff in H. apply negb_false_iff.
    apply Qle_bool_iff. destruct (Qlt_le_dec y x) as [L|L].
    + apply Qlt_le_weak in L. apply Qle_bool_iff in L. congruence.
    + exact L.
  - intros x y z. rewrite !fle_Qle. apply Qle_trans.
Qed.

Lemma round_half_even_mono a b c d :
  0 < b -> 0 < d -> a * d <= c * b ->
  round_half_even a b <= round_half_even c d.
Proof.
  intros Hb Hd H. unfold round_half_even.
  pose proof (Z.div_mod a b ltac:(lia)) as Ea.
  pose proof (Z.div_mod c d ltac:(lia)) as Ec.
  pose proof (Z.mod_pos_bound a b Hb) as Ra.
  pose proof (Z.mod_pos_bound c d Hd) as Rc.
  set (q1 := a / b) in *. set (r1 := a mod b) in *.
  set (q2 := c / d) in *. set (r2 := c mod d) in *.
  assert (q1 <= q2) as Hq.
  { destruct (Z.le_gt_cases q1 q2) as [L|L]; [exact L|exfalso].
    assert (q2 + 1 <= q1) as L' by lia.
    assert (b * d * (q2 + 1) <= b * d * q1) by (apply Z.mul_le_mono_nonneg_l; nia).
    nia. }
  destruct (Z.eq_dec q1 q2) as [E|N].
  - rewrite <- E in *.
    assert (r1 * d <= r2 * b) as Hr by nia.
    destruct (Z.ltb_spec (2 * r1) b), (Z.ltb_spec (2 * r2) d),
      (Z.ltb_spec b (2 * r1)), (Z.ltb_spec d (2 * r2)),
      (Z.even q1); try lia; nia.
  - assert (q1 + 1 <= q2) by lia.
    destruct (Z.ltb_spec (2 * r1) b), (Z.ltb_spec (2 * r2) d),
      (Z.ltb_spec b (2 * r1)), (Z.ltb_spec d (2 * r2)),
      (Z.even q1), (Z.even q2); lia.
Qed.

Lemma Qround_mono (x y : Q) (n : Z) : (x <= y)%Q -> (Qround x n <= Qround y n)%Q.
Proof.
  intros H. unfold Qround. unfold Qle in *. cbn [Qnum Qden].
  apply Z.mul_le_mono_nonneg_r; [lia|].
  apply round_half_even_mono; try lia.
  assert (0 <= 10 ^ n) by (apply Z.pow_nonneg; lia). nia.
Qed.

Lemma Q_float_monotone : float_monotone (F := Q).
Proof.
  split.
  - intros a a' b b'. rewrite !fle_Qle. cbn. apply Qplus_le_compat.
  - intros a b. rewrite !fle_Qle. cbn. intros H.
    rewrite <- (Qplus_0_r a) at 1. apply Qplus_le_compat; [apply Qle_refl|exact H].
  - intros w d. rewrite !fle_Qle. cbn. intros Hw Hd.
    apply Qle_shift_div_l.
    + change 0%Q with (inject_Z 0). rewrite <- Zlt_Qlt. exact Hd.
    + now rewrite Qmult_0_l.
  - intros w d d'. rewrite !fle_Qle. cbn. intros Hw Hd Hdd.
    assert (0 < inject_Z d)%Q as Pd
        by (change 0%Q with (inject_Z 0); now rewrite <- Zlt_Qlt).
    assert (0 < inject_Z d')%Q as Pd'
        by (change 0%Q with (inject_Z 0); rewrite <- Zlt_Qlt; lia).
    apply Qle_shift_div_r; [exact Pd'|].
    assert (0 <= w / inject_Z d)%Q as Pz.
    { apply Qle_shift_div_l; [exact Pd|]. now rewrite Qmult_0_l. }
    apply Qle_trans with (inject_Z d * (w / inject_Z d))%Q.
    + rewrite Qmult_div_r; [apply Qle_refl|].
      intros E. rewrite E in Pd. now apply Qlt_irrefl in Pd.
    + rewrite (Qmult_comm (w / inject_Z d)).
      apply Qmult_le_compat_r; [now rewrite <- Zle_Qle|exact Pz].
  - intros x y n. rewrite !fle_Qle. apply Qround_mono.
Qed.

End QFloatFacts.

(** ** Cache and search *)

Module SearchFacts.

Section Facts.
Context {F : Type} {PF : PyFloat F} {C : Type}.
Variable settings : retrieval_settings F.
Variable env : collaborators F C.

(** The pipeline reads nothing from the world and only appends to its
    log. *)
Lemma pipeline_world query top_k use_reranker w :
  match pipeline settings env query top_k use_reranker w with
  | Raise e =>
      forall w0, pipeline settings env query top_k use_reranker w0 = Raise e
  | Ok (results, total, w') =>
      cache w' = cache w /\ clock w' = clock w /\
      (exists evs, log w' = log w ++ evs /\
                   List.filter is_cache_set evs = [] /\
                   List.filter is_cache_get evs = []) /\
      forall w0, exists w0',
        pipeline settings env query top_k use_reranker w0
        = Ok (results, total, w0')
  end.
Proof.
  unfold pipeline, rbind.
  destruct (embed_query env query) as [qv|e]; [|reflexivity].
  destruct (vector_search env qv _) as [vr|e]; [|reflexivity].
  destruct (keyword_search env query _) as [kr|e]; [|reflexivity].
  destruct (_reciprocal_rank_fusion _ vr kr _) as [fused|e]; [|reflexivity].
  destruct (use_reranker && Chunker.nonempty fused).
  - destruct (rerank_call env query _ top_k) as [res|e]; [|reflexivity].
    cbn. repeat split.
    + eexists. split; [now rewrite <- !app_assoc|]. split; reflexivity.
    + intros w0. eexists. reflexivity.
  - cbn. repeat split.
    + eexists. split; [now rewrite <- !app_assoc|]. split; reflexivity.
    + intros w0. eexists. reflexivity.
Qed.

Lemma check_cache_world query w :
  snd (_check_cache env query w)
  = mkWorld (cache w) (log w ++ [EvCacheGet (_cache_key env query)]) (clock w).
Proof.
  unfold _check_cache.
  destruct (cache_get env (cache w) _) as [[s|]|e]; try reflexivity.
  destruct (PyStr.truthy s); [|reflexivity].
  destruct (json_loads env s); reflexivity.
Qed.

Lemma check_cache_hit query w (r : decoded F) :
  fst (_check_cache env query w) = Some r <->
  exists s, cache_get env (cache w) (_cache_key env query) = Ok (Some s) /\
            PyStr.truthy s = true /\ json_loads env s = Ok r.
Proof.
  unfold _check_cache.
  destruct (cache_get env (cache w) _) as [[s|]|e]; cbn.
  - destruct (PyStr.truthy s) eqn:T; cbn.
    + destruct (json_loads env s) as [r'|e] eqn:J; cbn.
      * split.
        -- intros [= ->]. now exists s.
        -- intros (s' & [= <-] & _ & J'). congruence.
      * split; [discriminate|]. intros (s' & [= <-] & _ & J'). congruence.
    + split; [discriminate|]. intros (s' & [= <-] & T' & _). congruence.
  - split; [discriminate|]. intros (s' & H & _). discriminate.
  - split; [discriminate|]. intros (s' & H & _). discriminate.
Qed.

(** The cache entry that [search] reads is not always a response: an
    entry that decodes to a value that is true and is not a dict makes
    the assignment [cached["cached"] = True] raise, outside every
    [try]. *)
Lemma search_entry_not_dict query top_k use_reranker w s :
  cache_get env (cache w) (_cache_key env query) = Ok (Some s) ->
  PyStr.truthy s = true ->
  json_loads env s = Ok JNotDict ->
  search settings env query top_k true use_reranker w = Raise TypeError.
Proof.
  intros G T J. unfold search, read_clock, _check_cache.
  cbn [cache log clock]. now rewrite G, T, J.
Qed.

End Facts.
End SearchFacts.

Module FusionExamples.
Import QFloat QFloatFacts Example FusionTheorems.

Lemma nodup_ids_2 a b (ta tb : string) :
  a <> b -> NoDup (ids [cand a ta; cand b tb]).
Proof.
  intros N. cbn. constructor; [|constructor; [intros []|constructor]].
  intros [E|[]]. now apply N.
Qed.

Lemma rrf_union_and_scores_witness :
  exists (out : list (candidate Q)) (totals : list Q),
    _reciprocal_rank_fusion default_settings
      [cand 1 "a"; cand 2 "b"] [cand 2 "b"; cand 3 "c"] 60 = Ok out /\
    NoDup (ids out) /\
    (forall cid, In cid (ids out) <->
                 In cid (ids [cand 1 "a"; cand 2 "b"])
                 \/ In cid (ids [cand 2 "b"; cand 3 "c"])) /\
    List.length out
      = List.length (nodup Z.eq_dec (ids [cand 1 "a"; cand 2 "b"]
                                     ++ ids [cand 2 "b"; cand 3 "c"])) /\
    Forall2 (fun c t =>
               t = rrf_total default_settings 60
                             (ids [cand 1 "a"; cand 2 "b"])
                             (ids [cand 2 "b"; cand 3 "c"]) (chunk_id c) /\
               rrf_score c = Some (fround t 6)) out totals /\
    StronglySorted (fun a b => fle b a) totals.
Proof.
  apply (rrf_union_and_scores default_settings
           [cand 1 "a"; cand 2 "b"] [cand 2 "b"; cand 3 "c"] 60).
  - exact Q_float_order.
  - lia.
  - apply nodup_ids_2. lia.
  - apply nodup_ids_2. lia.
Defined.

(** C3, as stated, fails: the score attached to a fused candidate is the
    sum rounded to six decimals. *)
Lemma rrf_reported_score_is_rounded_counterexample :
  _reciprocal_rank_fusion default_settings [cand 1 "a"] [] 60
    = Ok [set_rrf_score (cand 1 "a") (11475 # 1000000)] /\
  rrf_total default_settings 60 (ids [cand 1 "a"]) (ids (F := Q) []) 1
    = (7 # 610)%Q /\
  ~ (11475 # 1000000 == 7 # 610)%Q.
Proof.
  split; [reflexivity|]. split; [reflexivity|].
  unfold Qeq. cbn. lia.
Qed.

Lemma rrf_both_lists_dominates_witness :
  exists out sb ss,
    _reciprocal_rank_fusion equal_weights
      [cand 1 "a"; cand 2 "b"] [cand 1 "a"; cand 3 "c"] 60 = Ok out /\
    reported_score out 1 = Some sb /\
    reported_score out 2 = Some ss /\
    fle ss sb /\
    fle (rrf_total equal_weights 60 (ids [cand 1 "a"; cand 2 "b"])
                   (ids [cand 1 "a"; cand 3 "c"]) 2)
        (rrf_total equal_weights 60 (ids [cand 1 "a"; cand 2 "b"])
                   (ids [cand 1 "a"; cand 3 "c"]) 1).
Proof.
  apply (rrf_both_lists_dominates equal_weights
           [cand 1 "a"; cand 2 "b"] [cand 1 "a"; cand 3 "c"] 60
           1 2 0%nat 0%nat 0%nat 1%nat).
  - exact Q_float_order.
  - exact Q_float_monotone.
  - lia.
  - apply nodup_ids_2. lia.
  - apply nodup_ids_2. lia.
  - reflexivity.
  - reflexivity.
  - reflexivity.
  - reflexivity.
  - lia.
  - lia.
  - lia.
  - left. split; reflexivity.
Defined.

End FusionExamples.

(** ** The enricher *)

Module EnricherTheorems.
Import PyStr Chunker EnricherSpec.

(** C6, as stated, fails: the labels are not the ones of the document,
    and an empty document type is left out. *)
Lemma enrich_labels_counterexample :
  _enrich_chunk "text" "Title" 0 None = "[Documento: Title | Trecho 1] text" /\
  spec_enrich "text" "Title" 0 None = "[Document: Title | Segment 1] text" /\
  _enrich_chunk "text" "Title" 0 None <> spec_enrich "text" "Title" 0 None /\
  _enrich_chunk "text" "Title" 0 (Some "")
    = "[Documento: Title | Trecho 1] text".
Proof.
  repeat split; try reflexivity. discriminate.
Qed.

Lemma append_assoc (a b c : string) : ((a ++ b) ++ c = a ++ b ++ c)%string.
Proof. induction a as [|x a IH]; cbn; [reflexivity|now rewrite IH]. Qed.

(** C6 (amended).  [_enrich_chunk] returns ["[" + prefix + "] " + text],
    where the prefix joins with [" | "] the parts ["Documento: {title}"],
    then ["Tipo: {doc_type}"] only when a document type is given and is
    not the empty string, then ["Trecho {index + 1}"]. *)
Theorem enrich_chunk_format (chunk_text doc_title : string) (chunk_index : Z)
        (doc_type : option string) :
  _enrich_chunk chunk_text doc_title chunk_index doc_type =
    match doc_type with
    | Some (String c t) =>
        ("[Documento: " ++ doc_title ++ " | Tipo: " ++ String c t
         ++ " | Trecho " ++ str_of_int (chunk_index + 1) ++ "] "
         ++ chunk_text)%string
    | _ =>
        ("[Documento: " ++ doc_title ++ " | Trecho "
         ++ str_of_int (chunk_index + 1) ++ "] " ++ chunk_text)%string
    end.
Proof.
  unfold _enrich_chunk, join.
  destruct doc_type as [[|c t]|]; cbn [truthy List.app String.concat];
    cbn [String.append]; f_equal; rewrite ?append_assoc; cbn [String.append];
    repeat (rewrite ?append_assoc; cbn [String.append]); reflexivity.
Qed.

End EnricherTheorems.

Module RerankTheorems.
Import PyStr PySeq PySort PySortFacts RerankFacts.

Section Theorems.
Context {F : Type} {PF : PyFloat F} {C : Type}.
Variable env : collaborators F C.



End Theorems.

Import QFloat QFloatFacts Example ExampleEnv.




End RerankTheorems.

Module SearchTheorems.
Import SearchFacts.

Section Theorems.
Context {F : Type} {PF : PyFloat F} {C : Type}.
Variable settings : retrieval_settings F.

Lemma pipeline_forgiving (env : collaborators F C) query top_k use_reranker w :
  pipeline settings (forgiving env) query top_k use_reranker w
  = pipeline settings env query top_k use_reranker w.
Proof. reflexivity. Qed.

Lemma check_cache_forgiving (env : collaborators F C) query w :
  _check_cache (forgiving env) query w = _check_cache env query w.
Proof.
  unfold _check_cache, _cache_key.
  cbn [forgiving cache_get sha256_hexdigest json_loads].
  unfold miss_on_failure.
  destruct (cache_get env (cache w) _) as [[s|]|e]; reflexivity.
Qed.

Lemma set_cache_forgiving (env : collaborators F C) query r w :
  _set_cache settings (forgiving env) query r w
  = _set_cache settings env query r w.
Proof.
  unfold _set_cache, _cache_key.
  cbn [forgiving cache_setex sha256_hexdigest json_dumps].
  unfold noop_on_failure.
  destruct (json_dumps env r) as [text|e]; [|reflexivity].
  destruct (cache_setex env (cache w) _ _ text) as [c|e]; reflexivity.
Qed.

Lemma set_cache_down (env : collaborators F C) query r w :
  (forall text e', cache_setex env (cache w) (_cache_key env query)
                     (cache_ttl_seconds settings) text <> Ok e') ->
  cache (_set_cache settings env query r w) = cache w.
Proof.
  intros H. unfold _set_cache.
  destruct (json_dumps env r) as [text|e]; [|reflexivity].
  destruct (cache_setex env (cache w) _ _ text) as [c|e] eqn:S; [|reflexivity].
  now apply H in S.
Qed.

(** C4.  [search] cannot tell a cache backend that raises from one that
    answers "absent" to the read and ignores the write: the two calls
    are equal, so no exception of the backend ever comes out of
    [search].  With the backend down, [search] with the cache returns
    what [search] without the cache returns, or raises what it raises,
    and stores nothing.  (An entry that the backend returns and that
    decodes to something that is not a dict is no failure of the
    backend: see [search_entry_not_dict].) *)
Theorem cache_failures_are_swallowed (env : collaborators F C)
        (query : string) (top_k : Z) (use_reranker : bool) (w : world C) :
  search settings env query top_k true use_reranker w
  = search settings (forgiving env) query top_k true use_reranker w
  /\
  (forall e,
      cache_get env (cache w) (_cache_key env query) = Raise e ->
      (forall text, cache_setex env (cache w) (_cache_key env query)
                      (cache_ttl_seconds settings) text = Raise e) ->
      match search settings env query top_k true use_reranker w,
            search settings env query top_k false use_reranker w with
      | Ok (r, w'), Ok (r0, _) => r = r0 /\ cache w' = cache w
      | Raise e1, Raise e0 => e1 = e0
      | _, _ => False
      end).
Proof.
  split.
  - unfold search, read_clock. cbn [forgiving monotonic millis_between].
    rewrite check_cache_forgiving.
    destruct (_check_cache env query _) as [[[cached| |]|] w1];
      try reflexivity;
      rewrite pipeline_forgiving;
      (destruct (pipeline settings env query top_k use_reranker w1)
        as [[[res total] w2]|e]; [|reflexivity]);
      (destruct (true && Chunker.nonempty res); [|reflexivity]);
      now rewrite set_cache_forgiving.
  - intros e Hget Hset. unfold search, read_clock.
    set (wa := mkWorld (cache w) (log w) (S (clock w))).
    pose proof (check_cache_world env query wa) as Hw.
    pose proof (check_cache_hit env query wa) as Hh.
    assert (fst (_check_cache env query wa) = None) as Hnone.
    { destruct (fst (_check_cache env query wa)) as [v|] eqn:Ev; [|reflexivity].
      destruct (proj1 (Hh v) eq_refl) as (s & G & _).
      cbn [cache wa] in G. congruence. }
    destruct (_check_cache env query wa) as [hit w1]. cbn [fst snd] in Hw, Hnone.
    subst hit.
    pose proof (pipeline_world settings env query top_k use_reranker w1) as P1.
    destruct (pipeline settings env query top_k use_reranker w1)
      as [[[res total] w2]|e1].
    + destruct P1 as (Hc & Hk & _ & Hall).
      destruct (Hall wa) as (w0' & E0).
      pose proof (pipeline_world settings env query top_k use_reranker wa) as P0.
      rewrite E0 in *. destruct P0 as (_ & Hk0 & _).
      rewrite Hk, Hw, Hk0. cbn [clock wa andb]. split; [reflexivity|].
      assert (cache w2 = cache w) as Hcw by (rewrite Hc, Hw; reflexivity).
      destruct (Chunker.nonempty res); [|exact Hcw].
      rewrite set_cache_down; [exact Hcw|].
      cbn [cache]. rewrite Hcw. intros text c'. rewrite Hset. discriminate.
    + now rewrite (P1 wa).
Qed.

(** C5.  If a first [search] with [use_cache] returns a response with a
    non-empty result list, the backend keeps what is stored under the
    query's key (the entry has not expired) and the response survives
    the JSON round trip, then any later [search] for the same query
    with [use_cache] returns that response with [cached = true] and
    the same results, and all it does is one cache read.  And a
    [search] that returns an empty result list leaves the cache as it
    was, without a write. *)
Theorem cached_search_round_trip (env : collaborators F C)
        (query : string) (top_k : Z) (use_reranker : bool)
        (w w1 : world C) (r1 : response F) :
  search settings env query top_k true use_reranker w = Ok (r1, w1) ->
  results r1 <> [] ->
  (forall c text, exists c',
      cache_setex env c (_cache_key env query)
                  (cache_ttl_seconds settings) text = Ok c' /\
      cache_get env c' (_cache_key env query) = Ok (Some text)) ->
  (exists text,
      json_dumps env (set_cached r1 false) = Ok text /\
      PyStr.truthy text = true /\
      json_loads env text = Ok (JDict (set_cached r1 false))) ->
  (forall (top_k' : Z) (use_reranker' : bool) (w2 : world C),
      cache w2 = cache w1 ->
      search settings env query top_k' true use_reranker' w2
      = Ok (set_cached r1 true,
            mkWorld (cache w2)
                    (log w2 ++ [EvCacheGet (_cache_key env query)])
                    (S (clock w2))) /\
      cached (set_cached r1 true) = true /\
      results (set_cached r1 true) = results r1)
  /\
  (forall (use_cache use_reranker' : bool) (top_k' : Z) (w0 w0' : world C)
          (r0 : response F),
      search settings env query top_k' use_cache use_reranker' w0 = Ok (r0, w0') ->
      results r0 = [] ->
      cache w0' = cache w0 /\
      exists evs, log w0' = log w0 ++ evs /\
                  List.filter is_cache_set evs = []).
Proof.
  intros H1 Hres Hstore Hjson.
  assert (exists s r, cache_get env (cache w1) (_cache_key env query) = Ok (Some s)
                      /\ PyStr.truthy s = true /\ json_loads env s = Ok (JDict r)
                      /\ set_cached r true = set_cached r1 true) as Hit.
  { revert H1. unfold search, read_clock.
    set (wa := mkWorld (cache w) (log w) (S (clock w))).
    pose proof (check_cache_world env query wa) as Hw.
    pose proof (check_cache_hit env query wa) as Hh.
    destruct (_check_cache env query wa) as [[[cached| |]|] wb];
      cbn [fst snd] in Hw, Hh.
    - intros [= <- <-].
      destruct (proj1 (Hh (JDict cached)) eq_refl) as (s & G & T & J).
      exists s, cached. rewrite Hw. cbn [cache wa] in *. auto.
    - pose proof (pipeline_world settings env query top_k use_reranker wb) as P.
      destruct (pipeline settings env query top_k use_reranker wb)
        as [[[res total] wc]|e]; [|discriminate].
      destruct P as (Hc & _).
      intros [= <- <-]. cbn [results] in Hres.
      destruct res as [|c0 res]; [contradiction|]. cbn [Chunker.nonempty andb].
      destruct Hjson as (text & D & T & J). unfold set_cached in D, J.
      cbn in D, J.
      unfold _set_cache. rewrite D. cbn [record cache log clock].
      destruct (Hstore (cache wc) text) as (c' & S & G). rewrite S.
      cbn [cache]. exists text. eexists. repeat split; eauto.
    - discriminate.
    - pose proof (pipeline_world settings env query top_k use_reranker wb) as P.
      destruct (pipeline settings env query top_k use_reranker wb)
        as [[[res total] wc]|e]; [|discriminate].
      destruct P as (Hc & _).
      intros [= <- <-]. cbn [results] in Hres.
      destruct res as [|c0 res]; [contradiction|]. cbn [Chunker.nonempty andb].
      destruct Hjson as (text & D & T & J). unfold set_cached in D, J.
      cbn in D, J.
      unfold _set_cache. rewrite D. cbn [record cache log clock].
      destruct (Hstore (cache wc) text) as (c' & S & G). rewrite S.
      cbn [cache]. exists text. eexists. repeat split; eauto. }
  split.
  - intros top_k' use_reranker' w2 Hc2.
    destruct Hit as (s & r & G & T & J & E).
    split; [|split; reflexivity].
    unfold search, read_clock, _check_cache. cbn [cache log clock record].
    rewrite Hc2, G, T, J. now rewrite E.
  - intros use_cache use_reranker' top_k' w0 w0' r0. unfold search, read_clock.
    set (wa := mkWorld (cache w0) (log w0) (S (clock w0))).
    assert (exists evs, (let (hit, wb) := if use_cache
                                          then _check_cache env query wa
                                          else (None, wa) in
                         cache wb = cache w0 /\ log wb = log w0 ++ evs /\
                         List.filter is_cache_set evs = [])) as (evs0 & Hb).
    { destruct use_cache.
      - pose proof (check_cache_world env query wa) as Hw.
        destruct (_check_cache env query wa) as [hit wb]. cbn [snd] in Hw.
        eexists. rewrite Hw. cbn. repeat split.
      - exists []. cbn. now rewrite app_nil_r. }
    assert (forall wb : world C,
               cache wb = cache w0 /\ log wb = log w0 ++ evs0 /\
               List.filter is_cache_set evs0 = [] ->
               match pipeline settings env query top_k' use_reranker' wb with
               | Raise e => Raise e
               | Ok (results, total_candidates, w) =>
                   Ok (mkResponse query results total_candidates
                                  (millis_between env (monotonic env (clock w0))
                                                  (monotonic env (clock w)))
                                  false,
                       if use_cache && Chunker.nonempty results
                       then _set_cache settings env query
                              (mkResponse query results total_candidates
                                 (millis_between env (monotonic env (clock w0))
                                                 (monotonic env (clock w)))
                                 false)
                              (mkWorld (cache w) (log w) (S (clock w)))
                       else mkWorld (cache w) (log w) (S (clock w)))
               end = Ok (r0, w0') ->
               results r0 = [] ->
               cache w0' = cache w0 /\
               exists evs, log w0' = log w0 ++ evs /\
                           List.filter is_cache_set evs = []) as Miss.
    { intros wb (Hc & Hl & Hf).
      pose proof (pipeline_world settings env query top_k' use_reranker' wb) as P.
      destruct (pipeline settings env query top_k' use_reranker' wb)
        as [[[res total] wc]|e]; [|discriminate].
      destruct P as (Hcc & _ & (evs & Hlc & Hfc & _) & _).
      intros [= <- <-]. cbn [results]. intros ->.
      rewrite andb_false_r. cbn [cache log].
      split; [now rewrite Hcc|].
      exists (evs0 ++ evs). rewrite Hlc, Hl, <- app_assoc. split; [reflexivity|].
      now rewrite filter_app, Hf, Hfc. }
    destruct (if use_cache then _check_cache env query wa else (None, wa))
      as [[[cached| |]|] wb].
    + destruct Hb as (Hc & Hl & Hf). intros [= <- <-] _.
      split; [exact Hc|]. now exists evs0.
    + now apply Miss.
    + discriminate.
    + now apply Miss.
Qed.

End Theorems.
End SearchTheorems.

Module SearchExamples.
Import QFloat Example ExampleEnv ExampleSearch SearchTheorems.

Lemma cache_failures_are_swallowed_witness :
  match search default_settings env_down "q" 5 true false empty_world,
        search default_settings env_down "q" 5 false false empty_world with
  | Ok (r, w'), Ok (r0, _) => r = r0 /\ cache w' = cache empty_world
  | Raise e1, Raise e0 => e1 = e0
  | _, _ => False
  end.
Proof.
  destruct (cache_failures_are_swallowed default_settings env_down "q" 5 false
                                         empty_world) as (_ & H).
  apply (H (BackendError "redis")).
  - reflexivity.
  - intros text. reflexivity.
Defined.

Lemma cached_search_round_trip_witness :
  (forall (top_k' : Z) (use_reranker' : bool) (w2 : world (option string)),
      cache w2 = cache first_world ->
      search default_settings env_up "q" top_k' true use_reranker' w2
      = Ok (set_cached first_response true,
            mkWorld (cache w2)
                    (log w2 ++ [EvCacheGet (_cache_key env_up "q")])
                    (S (clock w2))) /\
      cached (set_cached first_response true) = true /\
      results (set_cached first_response true) = results first_response)
  /\
  (forall (use_cache use_reranker' : bool) (top_k' : Z)
          (w0 w0' : world (option string)) (r0 : response Q),
      search default_settings env_up "q" top_k' use_cache use_reranker' w0
      = Ok (r0, w0') ->
      results r0 = [] ->
      cache w0' = cache w0 /\
      exists evs, log w0' = log w0 ++ evs /\ List.filter is_cache_set evs = []).
Proof.
  apply (cached_search_round_trip default_settings env_up "q" 5 false
                                  empty_world first_world first_response).
  - reflexivity.
  - discriminate.
  - intros c text. eexists. split; reflexivity.
  - exists "stored"%string. repeat split.
Defined.

End SearchExamples.

(** ** More about the chunker *)

Module ChunkerMore.
Import PyStr PySeq Chunker TextProps PyStrFacts Windows ChunkerFacts Coverage.
Import ChunkerProps Settings Example.

(** *** When [_split_text] raises *)

Lemma find_separator_raise text separators e :
  find_separator text separators = Raise e ->
  e = ValueError /\ In EmptyString separators.
Proof.
  induction separators as [|sep rest IH]; cbn [find_separator]; [discriminate|].
  unfold split. destruct sep as [|c sep]; cbn [rbind].
  - intros [= <-]. split; [reflexivity|now left].
  - destruct (1 <? _)%nat; [discriminate|].
    intros H. destruct (IH H) as [E I]. split; [exact E|now right].
Qed.

Lemma fallback_raise text chunk_size overlap e :
  fallback text chunk_size overlap = Raise e ->
  e = ValueError /\ chunk_size = overlap.
Proof.
  unfold fallback, range0.
  destruct (Z.eqb_spec (chunk_size - overlap) 0) as [E|_]; cbn [rbind].
  - intros [= <-]. split; [reflexivity|lia].
  - destruct (_ <? 0); discriminate.
Qed.

Lemma split_text_raise text chunk_size overlap separators e :
  _split_text text chunk_size overlap separators = Raise e ->
  e = ValueError /\ (In EmptyString separators \/ chunk_size = overlap).
Proof.
  unfold _split_text.
  destruct (word_count text <=? chunk_size); [discriminate|].
  destruct (find_separator text separators) as [[[sep parts]|]|e'] eqn:Ef.
  - discriminate.
  - intros H. apply fallback_raise in H as [E1 E2]. auto.
  - intros [= <-]. apply find_separator_raise in Ef as [E1 E2]. auto.
Qed.

(** With the configured sizes and separators the chunker returns. *)
Lemma split_text_default text :
  exists chunks,
    _split_text text Settings.chunk_size Settings.chunk_overlap chunk_separators
    = Ok chunks.
Proof.
  destruct (_split_text text Settings.chunk_size Settings.chunk_overlap
                        chunk_separators) as [chunks|e] eqn:E.
  - now exists chunks.
  - exfalso. apply split_text_raise in E as [_ [I|I]]; [|discriminate].
    cbn in I. repeat (destruct I as [I|I]; [discriminate|]). exact I.
Qed.

(** X1 (errors of the chunker).  [_split_text] raises nothing but
    [ValueError], and only when one of the separators is the empty string
    or the window step [chunk_size - overlap] is zero; with non-empty
    separators and a non-zero step it returns for every text. *)
Theorem split_text_raises_only_value_error text chunk_size overlap separators :
  (forall e,
      _split_text text chunk_size overlap separators = Raise e ->
      e = ValueError /\ (In EmptyString separators \/ chunk_size = overlap)) /\
  (Forall (fun sep => truthy sep = true) separators ->
   chunk_size <> overlap ->
   exists chunks, _split_text text chunk_size overlap separators = Ok chunks).
Proof.
  assert (forall e,
             _split_text text chunk_size overlap separators = Raise e ->
             e = ValueError /\ (In EmptyString separators \/ chunk_size = overlap))
    as R by (intros e; apply split_text_raise).
  split; [exact R|]. intros Hsep Hstep.
  destruct (_split_text text chunk_size overlap separators) as [chunks|e] eqn:E.
  - now exists chunks.
  - exfalso. destruct (R e eq_refl) as [_ [I|I]]; [|contradiction].
    apply (proj1 (Forall_forall _ _) Hsep) in I. discriminate.
Qed.

Lemma split_text_raises_only_value_error_witness :
  (exists chunks,
      _split_text ("a" ++ tab ++ "b")%string
                  Settings.chunk_size Settings.chunk_overlap chunk_separators
      = Ok chunks) /\
  (ValueError = ValueError /\
   (In EmptyString chunk_separators \/ 2 = 2)).
Proof.
  destruct (split_text_raises_only_value_error
              ("a" ++ tab ++ "b")%string
              Settings.chunk_size Settings.chunk_overlap chunk_separators)
    as [_ H].
  destruct (split_text_raises_only_value_error
              ("a" ++ tab ++ "b" ++ tab ++ "c")%string 2 2 chunk_separators)
    as [R _].
  split.
  - apply H; [|unfold Settings.chunk_size, Settings.chunk_overlap; lia].
    repeat constructor.
  - apply (R ValueError). reflexivity.
Defined.

(** *** Segments are trimmed and not empty *)

Lemma rstrip_idem s : rstrip (rstrip s) = rstrip s.
Proof.
  induction s as [|c s IH]; [reflexivity|]. cbn [rstrip].
  destruct (rstrip s) as [|d r] eqn:R.
  - destruct (isspace c) eqn:E; [reflexivity|]. cbn. now rewrite E.
  - remember (String d r) as t eqn:Et. cbn [rstrip]. rewrite IH.
    now subst t.
Qed.

Lemma lstrip_of_word_start t : starts_word t = true -> lstrip t = t.
Proof.
  destruct t as [|c t]; [reflexivity|]. cbn. intros H.
  apply negb_true_iff in H. now rewrite H.
Qed.

Lemma strip_idem s : strip (strip s) = strip s.
Proof.
  unfold strip. destruct (lstrip_starts s) as [E|E].
  - rewrite E. reflexivity.
  - rewrite lstrip_of_word_start by now rewrite starts_word_rstrip.
    apply rstrip_idem.
Qed.

Lemma clean_strip s : truthy (strip s) = true -> clean (strip s).
Proof.
  intros T. split; [apply strip_idem|].
  rewrite truthy_strip in T. unfold word_count. rewrite split_ws_strip.
  destruct (split_ws s); [discriminate|]. cbn [List.length]. lia.
Qed.

Lemma emit_clean sep cur out :
  Forall clean out -> Forall clean (emit sep cur out).
Proof.
  intros H. unfold emit. destruct (truthy (strip (join sep cur))) eqn:T;
    [|exact H].
  apply Forall_app. split; [exact H|]. constructor; [|constructor].
  now apply clean_strip.
Qed.

Lemma step_clean sep chunk_size overlap st part :
  Forall clean (chunks st) ->
  Forall clean (chunks (step sep chunk_size overlap st part)).
Proof.
  intros H. unfold step.
  destruct ((current_len st + word_count part >? chunk_size)
            && nonempty (current st)); [|exact H].
  destruct (overlap_walk overlap (List.rev (current st)) [] 0).
  cbn [chunks]. now apply emit_clean.
Qed.

Lemma fold_clean sep chunk_size overlap parts : forall st,
  Forall clean (chunks st) ->
  Forall clean (chunks (List.fold_left (step sep chunk_size overlap) parts st)).
Proof.
  induction parts as [|p parts IH]; intros st H; [exact H|].
  cbn [List.fold_left]. apply IH, step_clean, H.
Qed.

Lemma split_text_clean text chunk_size overlap separators chunks :
  _split_text text chunk_size overlap separators = Ok chunks ->
  Forall clean chunks.
Proof.
  unfold _split_text. destruct (word_count text <=? chunk_size).
  - intros [= <-]. destruct (truthy (strip text)) eqn:T; [|constructor].
    constructor; [|constructor]. now apply clean_strip.
  - destruct (find_separator text separators) as [[[sep parts]|]|e];
      [| |discriminate].
    + intros [= <-]. unfold merge, flush.
      pose proof (fold_clean sep chunk_size overlap parts (mkAcc [] [] 0)
                             (Forall_nil _)) as H.
      destruct (nonempty _); [|exact H]. now apply emit_clean.
    + unfold fallback. destruct (range0 _ _) as [starts|e]; [|discriminate].
      cbn [rbind]. intros [= <-]. apply Forall_forall. intros c Hc.
      apply in_map_iff in Hc as (p & <- & Hp). apply filter_In in Hp as [_ T].
      now apply clean_strip.
Qed.

(** X2 (segments are clean).  Whatever the text, the sizes and the
    separators, every segment that [_split_text] returns is trimmed of
    leading and trailing whitespace and has at least one word. *)
Theorem split_text_segments_clean text chunk_size overlap separators chunks :
  _split_text text chunk_size overlap separators = Ok chunks ->
  Forall (fun c => strip c = c /\ 1 <= word_count c) chunks.
Proof. apply split_text_clean. Qed.

Lemma split_text_segments_clean_witness :
  Forall (fun c => strip c = c /\ 1 <= word_count c) ["a. b"; "c"]%string.
Proof.
  apply (split_text_segments_clean "a. b. c" 2 0 chunk_separators).
  reflexivity.
Defined.

End ChunkerMore.

Module ChunkerBounds.
Import PyStr PySeq Chunker TextProps PyStrFacts Windows ChunkerFacts Coverage.
Import ChunkerProps ChunkerMore Settings Example.

Lemma sum_words_app a b : sum_words (a ++ b) = sum_words a + sum_words b.
Proof.
  induction a as [|p a IH]; cbn; [reflexivity|].
  fold (sum_words (a ++ b)). fold (sum_words a). lia.
Qed.

Lemma sum_words_one p : sum_words [p] = word_count p.
Proof. cbn. lia. Qed.


(** The overlap kept has at most [overlap] words, and [overlap_len] is
    their number. *)
Lemma overlap_walk_bound overlap rc : forall acc len ovp l,
  len = sum_words acc -> len <= Z.max 0 overlap ->
  overlap_walk overlap rc acc len = (ovp, l) ->
  l = sum_words ovp /\ l <= Z.max 0 overlap.
Proof.
  induction rc as [|p rc IH]; intros acc len ovp l E B H; cbn in H.
  - inversion H; subst. auto.
  - destruct (Z.gtb_spec (len + word_count p) overlap) as [G|G].
    + inversion H; subst. auto.
    + apply (IH (p :: acc) (len + word_count p)); [|lia|exact H].
      cbn [sum_words List.fold_right]. fold (sum_words acc). lia.
Qed.

Section Parts.
Variables (sep : string) (chunk_size overlap : Z).

Lemma emit_render cur out :
  emit sep cur out
  = out ++ List.filter truthy [strip (join sep cur)].
Proof.
  unfold emit. cbn [List.filter].
  destruct (truthy (strip (join sep cur))); [reflexivity|].
  now rewrite app_nil_r.
Qed.

Lemma tracks_init : tracks sep overlap (mkAcc [] [] 0) [].
Proof.
  exists [], [], []. cbn. repeat split; try constructor; try lia.
  now exists [].
Qed.

Lemma tracks_step st done part :
  tracks sep overlap st done ->
  tracks sep overlap (step sep chunk_size overlap st part) (done ++ [part]).
Proof.
  intros (segs & ov & fresh & Hc & Hch & Hl & Hcat & Hcur & Hf & Ho & Hn).
  unfold step.
  destruct ((current_len st + word_count part >? chunk_size)
            && nonempty (current st)).
  - destruct (overlap_walk overlap (List.rev (current st)) [] 0)
      as [ovp ovl] eqn:W.
    destruct (overlap_walk_bound overlap _ [] 0 ovp ovl eq_refl
                                 ltac:(lia) W) as [El Bl].
    apply overlap_walk_suffix in W as [pre W].
    rewrite rev_involutive, app_nil_r in W.
    unfold tracks. cbn [chunks current current_len].
    exists (segs ++ [(ov, fresh)]), ovp, [part].
    split; [|split; [|split; [|split; [|split; [|split; [|split]]]]]].
    + rewrite emit_render, Hc, map_app, filter_app. cbn [List.map].
      unfold render at 3, seg_words. cbn [fst snd]. now rewrite Hcur.
    + apply chained_snoc. split; assumption.
    + rewrite last_words_snoc. unfold seg_words. cbn [fst snd].
      exists pre. now rewrite <- Hcur.
    + rewrite map_app, concat_app. cbn [List.map List.concat snd].
      rewrite app_nil_r. f_equal. exact Hcat.
    + reflexivity.
    + apply Forall_app. split; [exact Hf|]. now constructor.
    + lia.
    + rewrite sum_words_app, sum_words_one. lia.
  - unfold tracks. cbn [chunks current current_len].
    exists segs, ov, (fresh ++ [part]).
    split; [exact Hc|]. split; [exact Hch|]. split; [exact Hl|].
    split; [|split; [|split; [|split]]].
    + now rewrite <- Hcat, <- app_assoc.
    + now rewrite Hcur, <- app_assoc.
    + exact Hf.
    + exact Ho.
    + rewrite sum_words_app, sum_words_one. lia.
Qed.

Lemma tracks_fold parts : forall st done,
  tracks sep overlap st done ->
  tracks sep overlap (List.fold_left (step sep chunk_size overlap) parts st)
         (done ++ parts).
Proof.
  induction parts as [|p parts IH]; intros st done H; cbn [List.fold_left].
  - now rewrite app_nil_r.
  - replace (done ++ p :: parts) with ((done ++ [p]) ++ parts)
      by now rewrite <- app_assoc.
    apply IH, tracks_step, H.
Qed.

(** What the separator path returns, in terms of parts. *)
Lemma merge_parts parts :
  exists segs : list segment,
    merge sep chunk_size overlap parts
      = List.filter truthy (List.map (render sep) segs) /\
    List.concat (List.map snd segs) = parts /\
    chained [] segs /\
    Forall (fun s => sum_words (fst s) <= Z.max 0 overlap) segs.
Proof.
  destruct (tracks_fold parts _ _ tracks_init)
    as (segs & ov & fresh & Hc & Hch & Hl & Hcat & Hcur & Hf & Ho & _).
  cbn [app] in Hcat. unfold merge, flush.
  set (st := List.fold_left (step sep chunk_size overlap) parts (mkAcc [] [] 0))
    in *.
  destruct (nonempty (current st)) eqn:N.
  - exists (segs ++ [(ov, fresh)]). split; [|split; [|split]].
    + rewrite emit_render, Hc, map_app, filter_app. cbn [List.map].
      unfold render at 3, seg_words. cbn [fst snd]. now rewrite Hcur.
    + rewrite map_app, concat_app. cbn. now rewrite app_nil_r.
    + apply chained_snoc. split; assumption.
    + apply Forall_app. split; [exact Hf|]. now constructor.
  - exists segs. apply Coverage.nonempty_false in N. rewrite N in Hcur.
    symmetry in Hcur. apply app_eq_nil in Hcur as [_ ->].
    rewrite app_nil_r in Hcat. auto.
Qed.

End Parts.

(** X3 (parts are never cut).  On the separator path the returned
    segments are made of whole parts: there is a division of the parts of
    the text into consecutive groups, one per segment closed, such that
    each segment is the trimmed join of a tail of the parts of the
    segment before it (the overlap, of at most [overlap] words counted
    part by part) followed by its own group; a segment is left out only
    when that join is blank.  Joining all parts with the separator gives
    the text back. *)
Theorem split_text_keeps_parts_whole text chunk_size overlap separators sep parts :
  find_separator text separators = Ok (Some (sep, parts)) ->
  chunk_size < word_count text ->
  exists segs : list segment,
    _split_text text chunk_size overlap separators
      = Ok (List.filter truthy (List.map (render sep) segs)) /\
    join sep parts = text /\
    List.concat (List.map snd segs) = parts /\
    chained [] segs /\
    Forall (fun s => sum_words (fst s) <= Z.max 0 overlap) segs.
Proof.
  intros Hf Hlen. unfold _split_text.
  destruct (Z.leb_spec (word_count text) chunk_size); [lia|]. rewrite Hf.
  destruct (merge_parts sep chunk_size overlap parts) as (segs & E & C & Hch & B).
  exists segs. rewrite E. repeat split; try assumption.
  apply join_split. now apply find_separator_parts with (separators := separators).
Qed.

Lemma split_text_keeps_parts_whole_witness :
  exists segs : list segment,
    _split_text "a. b. c" 2 1 chunk_separators
      = Ok (List.filter truthy (List.map (render ". ") segs)) /\
    join ". " ["a"; "b"; "c"]%string = "a. b. c"%string /\
    List.concat (List.map snd segs) = ["a"; "b"; "c"]%string /\
    chained [] segs /\
    Forall (fun s => sum_words (fst s) <= Z.max 0 1) segs.
Proof.
  apply (split_text_keeps_parts_whole "a. b. c" 2 1 chunk_separators).
  - reflexivity.
  - vm_compute. reflexivity.
Defined.

(** *** The size bound that does hold *)

Section Bound.
Variables (sep : string) (chunk_size overlap : Z).
Hypothesis sep_truthy : truthy sep = true.
Hypothesis sep_blank : all_space sep = true.
Hypothesis overlap_nonneg : 0 <= overlap.






End Bound.




End ChunkerBounds.

Module FusionMore.
Import PyDict PyDictFacts PySort PySortFacts FusionFacts.

Section More.
Context {F : Type} {PF : PyFloat F}.
Variable settings : retrieval_settings F.

(** A pass over [scores] stops only at a zero divisor. *)
Lemma scores_pass_total weight k cids : forall rank scores,
  match scores_pass weight k rank cids scores with
  | Ok scores' =>
      (forall j, (j < List.length cids)%nat -> k + Z.of_nat (rank + j) + 1 <> 0) /\
      (NoDup (keys scores) -> NoDup (keys scores')) /\
      (forall x, In x (keys scores') <-> In x (keys scores) \/ In x cids)
  | Raise e =>
      e = ZeroDivisionError /\
      exists j, (j < List.length cids)%nat /\ k + Z.of_nat (rank + j) + 1 = 0
  end.
Proof.
  induction cids as [|cid cids IH]; intros rank scores.
  - cbn. split; [intros j H; lia|]. split; [auto|]. intros x. tauto.
  - cbn [scores_pass]. unfold add_contribution.
    destruct (Z.eqb_spec (k + Z.of_nat rank + 1) 0) as [E|N]; cbn [rbind].
    + split; [reflexivity|]. exists 0%nat. cbn. split; [lia|].
      now rewrite Nat.add_0_r.
    + set (scores1 := set cid _ scores).
      specialize (IH (S rank) scores1).
      destruct (scores_pass weight k (S rank) cids scores1) as [scores'|e].
      * destruct IH as (Hj & Hnd & Hin). split; [|split].
        -- intros [|j] Hlt; [now rewrite Nat.add_0_r|].
           replace (rank + S j)%nat with (S rank + j)%nat by lia.
           apply Hj. cbn in Hlt. lia.
        -- intros H. apply Hnd. unfold scores1. now apply keys_set_nodup.
        -- intros x. rewrite Hin. unfold scores1. rewrite in_keys_set.
           cbn [In]. intuition (subst; auto).
      * destruct IH as (-> & j & Hlt & Hj). split; [reflexivity|].
        exists (S j). cbn [List.length]. split; [lia|].
        now replace (rank + S j)%nat with (S rank + j)%nat by lia.
Qed.

Lemma keys_sorted (scores : dict F) :
  Permutation (List.map fst (sorted_desc snd scores)) (keys scores).
Proof. apply Permutation_map, sorted_desc_perm. Qed.

Lemma keyed_by_id_nil : keyed_by_id (F := F) [].
Proof. intros x c H. discriminate. Qed.

(** Fusion on any two lists. *)
Lemma fusion_total vec kw k :
  match _reciprocal_rank_fusion settings vec kw k with
  | Ok out =>
      ~ zero_divisor k vec kw /\
      NoDup (ids out) /\
      (forall x, In x (ids out) <-> In x (ids vec) \/ In x (ids kw)) /\
      exists scores,
        (pass1 <- vector_pass settings k 0 vec [] [] ;;
         keyword_pass settings k 0 kw (fst pass1) (snd pass1))%result
        = Ok (scores, keyword_map kw (vector_map vec [])) /\
        build_results (keyword_map kw (vector_map vec []))
                      (sorted_desc snd scores) = Ok out
  | Raise e => e = ZeroDivisionError /\ zero_divisor k vec kw
  end.
Proof.
  unfold _reciprocal_rank_fusion, zero_divisor.
  rewrite vector_pass_split.
  pose proof (scores_pass_total (vector_weight settings) k (ids vec) 0 []) as P1.
  assert (List.length (ids vec) = List.length vec) as L1 by apply length_map.
  assert (List.length (ids kw) = List.length kw) as L2 by apply length_map.
  rewrite L1 in P1.
  destruct (scores_pass (vector_weight settings) k 0 (ids vec) [])
    as [s1|e1]; cbn [rbind fst snd].
  - destruct P1 as (Hj1 & Hnd1 & Hin1).
    rewrite keyword_pass_split.
    pose proof (scores_pass_total (keyword_weight settings) k (ids kw) 0 s1) as P2.
    rewrite L2 in P2.
    destruct (scores_pass (keyword_weight settings) k 0 (ids kw) s1)
      as [s2|e2]; cbn [rbind fst snd].
    + destruct P2 as (Hj2 & Hnd2 & Hin2).
      set (cm := keyword_map kw (vector_map vec [])).
      destruct (build_results_spec cm (sorted_desc snd s2)) as (out & E & Hids & _).
      { apply keyed_by_id_keyword_map, keyed_by_id_vector_map, keyed_by_id_nil. }
      { intros x Hx. apply (Permutation_in _ (keys_sorted s2)) in Hx.
        unfold cm. rewrite in_keys_keyword_map, in_keys_vector_map.
        apply Hin2 in Hx. rewrite Hin1 in Hx. tauto. }
      rewrite E. split; [|split; [|split]].
      * intros [H0 Hlt].
        destruct (Nat.max_spec (List.length vec) (List.length kw)) as [[_ M]|[_ M]];
          rewrite M in Hlt.
        -- apply (Hj2 (Z.to_nat (- k - 1))); lia.
        -- apply (Hj1 (Z.to_nat (- k - 1))); lia.
      * rewrite Hids.
        apply (Permutation_NoDup (Permutation_sym (keys_sorted s2))).
        apply Hnd2, Hnd1. constructor.
      * intros x. rewrite Hids. split; intros H.
        -- apply (Permutation_in _ (keys_sorted s2)) in H.
           apply Hin2 in H. rewrite Hin1 in H. cbn in H. tauto.
        -- apply (Permutation_in _ (Permutation_sym (keys_sorted s2))).
           apply Hin2. rewrite Hin1. tauto.
      * exists s2. now split.
    + destruct P2 as (-> & j & Hlt & Hj). split; [reflexivity|]. lia.
  - destruct P1 as (-> & j & Hlt & Hj). split; [reflexivity|]. lia.
Qed.

(** X5 (fusion on any input).  Whatever the two lists are, repeated
    identifiers included, fusion either returns or raises
    [ZeroDivisionError], never [KeyError]; it raises exactly when some
    rank of a list makes the divisor [k + rank + 1] zero, which needs
    [k < 0]; and what it returns has every identifier of the two lists
    exactly once and no other, so its length is the number of distinct
    identifiers. *)
Theorem rrf_raises_only_on_zero_divisor vec kw k :
  (forall e, _reciprocal_rank_fusion settings vec kw k = Raise e ->
             e = ZeroDivisionError) /\
  ((exists out, _reciprocal_rank_fusion settings vec kw k = Ok out)
   <-> ~ zero_divisor k vec kw) /\
  (forall out,
      _reciprocal_rank_fusion settings vec kw k = Ok out ->
      NoDup (ids out) /\
      (forall x, In x (ids out) <-> In x (ids vec) \/ In x (ids kw)) /\
      List.length out = List.length (nodup Z.eq_dec (ids vec ++ ids kw))).
Proof.
  pose proof (fusion_total vec kw k) as T.
  destruct (_reciprocal_rank_fusion settings vec kw k) as [out|e].
  - destruct T as (Hz & Hnd & Hin & _). split; [discriminate|]. split.
    + split; [auto|]. intros _. now exists out.
    + intros out' [= <-]. split; [exact Hnd|]. split; [exact Hin|].
      rewrite <- (length_map chunk_id). fold (ids out).
      apply Permutation_length, NoDup_Permutation;
        [exact Hnd|apply NoDup_nodup|].
      intros x. rewrite Hin, nodup_In, in_app_iff. tauto.
  - destruct T as (-> & Hz). split; [now intros e [= <-]|]. split.
    + split; [intros [out H]; discriminate|]. intros H. contradiction.
    + discriminate.
Qed.

(** *** Which record is copied *)

Lemma find_app {A : Type} (p : A -> bool) l1 l2 :
  List.find p (l1 ++ l2)
  = match List.find p l1 with
    | Some x => Some x
    | None => List.find p l2
    end.
Proof.
  induction l1 as [|x l1 IH]; cbn; [reflexivity|].
  destruct (p x); [reflexivity|exact IH].
Qed.

Lemma vector_map_get (vec : list (candidate F)) : forall cm x,
  get (vector_map vec cm) x
  = match List.find (has_id x) (List.rev vec) with
    | Some r => Some r
    | None => get cm x
    end.
Proof.
  induction vec as [|r vec IH]; intros cm x; [reflexivity|].
  change (vector_map (r :: vec) cm) with (vector_map vec (set (chunk_id r) r cm)).
  rewrite IH. cbn [List.rev]. rewrite find_app.
  destruct (List.find (has_id x) (List.rev vec)); [reflexivity|].
  cbn [List.find]. unfold has_id at 1.
  destruct (Z.eqb_spec (chunk_id r) x) as [<-|N].
  - apply get_set_same.
  - apply get_set_other. congruence.
Qed.

Lemma keyword_map_get (kw : list (candidate F)) : forall cm x,
  get (keyword_map kw cm) x
  = match get cm x with
    | Some r => Some r
    | None => List.find (has_id x) kw
    end.
Proof.
  induction kw as [|r kw IH]; intros cm x.
  - cbn. now destruct (get cm x).
  - change (keyword_map (r :: kw) cm)
      with (keyword_map kw (if mem cm (chunk_id r) then cm
                            else set (chunk_id r) r cm)).
    rewrite IH. cbn [List.find]. unfold has_id at 2, mem.
    destruct (Z.eqb_spec (chunk_id r) x) as [<-|N].
    + destruct (get cm (chunk_id r)) eqn:G; [now rewrite G|].
      now rewrite get_set_same.
    + destruct (get cm (chunk_id r)) eqn:G; [reflexivity|].
      rewrite get_set_other by congruence. reflexivity.
Qed.

Lemma chunk_map_get (vec kw : list (candidate F)) x :
  get (keyword_map kw (vector_map vec [])) x = source_record vec kw x.
Proof.
  rewrite keyword_map_get, vector_map_get. unfold source_record. cbn [get].
  now destruct (List.find (has_id x) (List.rev vec)).
Qed.

Lemma build_results_records (cm : dict (candidate F)) ranked : forall out,
  build_results cm ranked = Ok out ->
  Forall2 (fun c p => exists r, get cm (fst p) = Some r /\
                                c = set_rrf_score r (fround (snd p) 6))
          out ranked.
Proof.
  induction ranked as [|[cid s] ranked IH]; intros out; cbn [build_results].
  - intros [= <-]. constructor.
  - unfold item. destruct (get cm cid) as [r|] eqn:G; cbn [rbind]; [|discriminate].
    destruct (build_results cm ranked) as [out'|]; cbn [rbind]; [|discriminate].
    intros [= <-]. constructor; [|now apply IH].
    exists r. now split.
Qed.

(** X6 (which record is copied).  Every record of the fused list is a
    copy of a record of the input in which only [rrf_score] is set: the
    vector record with that identifier when the vector list has one
    (the last one, if it has several), a keyword record only otherwise
    (the first one).  So [distance], which only vector records carry,
    is kept whenever the vector search found the chunk. *)
Theorem rrf_copies_vector_record_first (vec kw : list (candidate F)) k out :
  _reciprocal_rank_fusion settings vec kw k = Ok out ->
  Forall (fun c => exists r s,
              source_record vec kw (chunk_id c) = Some r /\
              c = set_rrf_score r s /\
              (In (chunk_id c) (ids vec) -> In r vec) /\
              (~ In (chunk_id c) (ids vec) -> In r kw)) out.
Proof.
  intros E. pose proof (fusion_total vec kw k) as T. rewrite E in T.
  destruct T as (_ & _ & _ & scores & _ & B).
  apply build_results_records in B.
  assert (keyed_by_id (keyword_map kw (vector_map vec []))) as K
      by apply keyed_by_id_keyword_map, keyed_by_id_vector_map, keyed_by_id_nil.
  clear E.
  induction B as [|c [cid s] out ranked (r & G & ->) B IH]; [constructor|].
  constructor; [|exact IH].
  cbn [fst snd] in G. exists r, (fround s 6).
  pose proof (K _ _ G) as Hid. cbn [set_rrf_score chunk_id]. rewrite Hid.
  rewrite chunk_map_get in G. split; [exact G|]. split; [reflexivity|].
  unfold source_record in G.
  destruct (List.find (has_id cid) (List.rev vec)) as [r'|] eqn:Fv.
  - injection G as ->. apply find_some in Fv as [Hin _].
    apply in_rev in Hin. split; [auto|]. intros N. contradict N.
    rewrite <- Hid. now apply in_map.
  - apply find_some in G as [Hin _]. split; [|auto]. intros Hv.
    apply in_map_iff in Hv as (r0 & E0 & H0).
    apply in_rev in H0.
    pose proof (find_none _ _ Fv r0 H0) as Hn. unfold has_id in Hn.
    rewrite E0, Z.eqb_refl in Hn. discriminate.
Qed.

End More.
End FusionMore.

Module FusionOrder.
Import PyDict PyDictFacts PySort PySortFacts FusionFacts FusionMore.

Section Order.
Context {F : Type} {PF : PyFloat F}.
Variable settings : retrieval_settings F.

Lemma keys_set {V : Type} (d : dict V) k v :
  keys (set k v d) = if mem d k then keys d else keys d ++ [k].
Proof.
  unfold mem, keys. induction d as [|[k' v'] d IH]; cbn; [reflexivity|].
  destruct (Z.eqb_spec k k') as [->|N]; cbn; [reflexivity|].
  rewrite IH. now destruct (get d k).
Qed.

Lemma mem_set_other {V : Type} (d : dict V) k v x :
  x <> k -> mem (set k v d) x = mem d x.
Proof. intros N. unfold mem. now rewrite get_set_other. Qed.

(** The keys of [scores] after a pass: new identifiers go last, in the
    order of the list. *)
Lemma scores_pass_keys weight k cids : forall rank scores scores',
  NoDup cids ->
  scores_pass weight k rank cids scores = Ok scores' ->
  keys scores' = keys scores ++ List.filter (fun c => negb (mem scores c)) cids.
Proof.
  induction cids as [|cid cids IH]; intros rank scores scores' Hnd.
  - cbn. intros [= <-]. now rewrite app_nil_r.
  - inversion Hnd as [|? ? Hn Hnd']; subst. cbn [scores_pass].
    unfold add_contribution.
    destruct (k + Z.of_nat rank + 1 =? 0); cbn [rbind]; [discriminate|].
    intros E. apply IH in E; [|exact Hnd']. rewrite E, keys_set.
    cbn [List.filter].
    assert (List.filter (fun c => negb (mem (set cid
               (fadd (get_default scores cid (flit 0))
                     (fdiv_int weight (k + Z.of_nat rank + 1))) scores) c)) cids
            = List.filter (fun c => negb (mem scores c)) cids) as ->.
    { apply filter_ext_in. intros c Hc. rewrite mem_set_other; [reflexivity|].
      intros ->. contradiction. }
    destruct (mem scores cid); cbn [negb]; [reflexivity|].
    now rewrite <- app_assoc.
Qed.

Lemma mem_in {V : Type} (d : dict V) x :
  mem d x = existsb (Z.eqb x) (keys d).
Proof.
  unfold mem. induction d as [|[k' v'] d IH]; cbn; [reflexivity|].
  destruct (x =? k'); [reflexivity|exact IH].
Qed.

Lemma dict_as_map (f : Z -> F) (d : dict F) :
  NoDup (keys d) ->
  (forall x s, get d x = Some s -> s = f x) ->
  d = List.map (fun x => (x, f x)) (keys d).
Proof.
  induction d as [|[k v] d IH]; cbn; intros Hnd H; [reflexivity|].
  inversion Hnd as [|? ? Hn Hnd']; subst. f_equal.
  - f_equal. apply H. now rewrite Z.eqb_refl.
  - apply IH; [exact Hnd'|]. intros x s G. apply H.
    destruct (Z.eqb_spec x k) as [->|N]; [|exact G].
    exfalso. apply Hn. change (In k (keys d)). apply get_in_keys. congruence.
Qed.

Lemma insert_desc_decorated {A : Type} (f : A -> F) a l :
  insert_desc snd (a, f a) (List.map (fun b => (b, f b)) l)
  = List.map (fun b => (b, f b)) (insert_desc f a l).
Proof.
  induction l as [|b l IH]; cbn; [reflexivity|].
  destruct (flt (f a) (f b)); cbn; [now rewrite IH|reflexivity].
Qed.

Lemma sorted_desc_decorated {A : Type} (f : A -> F) l :
  sorted_desc snd (List.map (fun b => (b, f b)) l)
  = List.map (fun b => (b, f b)) (sorted_desc f l).
Proof.
  unfold sorted_desc. induction l as [|a l IH]; [reflexivity|].
  cbn [List.map List.fold_right]. rewrite IH. apply insert_desc_decorated.
Qed.

(** The identifiers of the fused list: the first-seen order, sorted by
    total with the stable descending sort. *)
Lemma fusion_order (vec kw : list (candidate F)) k :
  0 <= k -> NoDup (ids vec) -> NoDup (ids kw) ->
  exists out,
    _reciprocal_rank_fusion settings vec kw k = Ok out /\
    ids out = sorted_desc (rrf_total settings k (ids vec) (ids kw))
                          (first_seen (ids vec) (ids kw)).
Proof.
  intros Hk Hv Hw.
  destruct (passes_spec settings vec kw k Hk Hv Hw)
    as (scores & cm & E & Nd & _ & _ & _ & Hget).
  pose proof (fusion_total settings vec kw k) as T.
  destruct (_reciprocal_rank_fusion settings vec kw k) as [out|e].
  - exists out. split; [reflexivity|].
    destruct T as (_ & _ & _ & scores' & E' & B).
    rewrite E in E'.
    assert (scores' = scores) as -> by congruence. clear E'.
    destruct (build_results_spec (keyword_map kw (vector_map vec []))
                                 (sorted_desc snd scores)) as (out' & B' & Hids & _).
    { apply keyed_by_id_keyword_map, keyed_by_id_vector_map, keyed_by_id_nil. }
    { intros x Hx. apply get_in_keys. intros G.
      apply in_map_iff in Hx as ([y s] & <- & Hp). cbn [fst] in G.
      clear -B G Hp. revert out B.
      induction (sorted_desc snd scores) as [|[c t] l IH]; intros out B;
        [contradiction|].
      cbn [build_results] in B. unfold item in B.
      destruct Hp as [[= -> ->]|Hp].
      - rewrite G in B. discriminate.
      - destruct (get _ c); cbn [rbind] in B; [|discriminate].
        destruct (build_results _ l) as [o|]; [|discriminate].
        now apply (IH Hp o). }
    rewrite B in B'. injection B' as <-. rewrite Hids.
    assert (keys scores = first_seen (ids vec) (ids kw)) as Hkeys.
    { revert E. rewrite vector_pass_split.
      destruct (scores_pass (vector_weight settings) k 0 (ids vec) [])
        as [s1|] eqn:E1; cbn [rbind fst snd]; [|discriminate].
      rewrite keyword_pass_split.
      destruct (scores_pass (keyword_weight settings) k 0 (ids kw) s1)
        as [s2|] eqn:E2; cbn [rbind]; [|discriminate].
      intros [= <- _].
      apply scores_pass_keys in E1; [|exact Hv].
      apply scores_pass_keys in E2; [|exact Hw].
      cbn [keys List.map app] in E1.
      assert (List.filter (fun c => negb (mem (V := F) [] c)) (ids vec) = ids vec)
        as Hall.
      { clear. induction (ids vec) as [|c l IH]; [reflexivity|].
        cbn [List.filter]. unfold mem at 1. cbn [get negb]. now rewrite IH. }
      rewrite Hall in E1. rewrite E2, E1. unfold first_seen. f_equal.
      apply filter_ext. intros c. now rewrite mem_in, E1. }
    rewrite (dict_as_map (rrf_total settings k (ids vec) (ids kw)) scores Nd Hget).
    rewrite sorted_desc_decorated, map_map. cbn [fst]. rewrite map_id.
    now rewrite Hkeys.
  - exfalso. destruct T as (_ & H0 & _). lia.
Qed.

(** Stability, for the pairs that meet in the sort: an element is never
    moved behind a later one that is not greater. *)
Lemma sorted_desc_keeps {A : Type} (key : A -> F) (p : A -> bool) l :
  (forall l1 a l2 b, l = l1 ++ a :: l2 -> In b l2 ->
                     p a = true -> p b = true ->
                     flt (key a) (key b) = false) ->
  List.filter p (sorted_desc key l) = List.filter p l.
Proof.
  induction l as [|x l IH]; intros H; [reflexivity|].
  cbn [sorted_desc List.fold_right]. fold (sorted_desc key l).
  rewrite RerankFacts.insert_desc_stable.
  - cbn [List.filter]. rewrite IH; [reflexivity|].
    intros l1 a l2 b E. apply (H (x :: l1)). now rewrite E.
  - intros y Hy. apply (H [] x l y eq_refl).
    now apply (Permutation_in _ (sorted_desc_perm key l)).
Qed.

Lemma pick_two x y l1 a l2 b :
  pick x y (l1 ++ a :: l2) = [x; y] -> In b l2 ->
  ((a =? x) || (a =? y)) = true -> ((b =? x) || (b =? y)) = true ->
  a = x /\ b = y.
Proof.
  unfold pick. rewrite filter_app. cbn [List.filter]. intros E Hb Pa Pb.
  rewrite Pa in E.
  assert (In b (List.filter (fun z => (z =? x) || (z =? y)) l2)) as Hin
      by (apply filter_In; now split).
  destruct (List.filter _ l1) as [|c [|c' r]]; cbn in E.
  - injection E as -> E. rewrite E in Hin. destruct Hin as [<-|[]]. now split.
  - injection E as _ _ E. rewrite E in Hin. contradiction.
  - injection E as _ _ E. destruct r; discriminate.
Qed.

(** X7 (order of the fused list).  For ranked lists without repeated
    identifiers and [0 <= k]: if fusion meets [x] before [y] (the
    vector list first, then what the keyword list adds) and the total
    of [x] is not less than the total of [y], then [x] comes before [y]
    in the fused list.  In particular candidates that tie stay in the
    order in which fusion met them.  No law of float arithmetic is
    needed. *)
Theorem rrf_ties_keep_first_seen_order (vec kw : list (candidate F)) k x y :
  0 <= k -> NoDup (ids vec) -> NoDup (ids kw) ->
  pick x y (first_seen (ids vec) (ids kw)) = [x; y] ->
  flt (rrf_total settings k (ids vec) (ids kw) x)
      (rrf_total settings k (ids vec) (ids kw) y) = false ->
  exists out,
    _reciprocal_rank_fusion settings vec kw k = Ok out /\
    pick x y (ids out) = [x; y].
Proof.
  intros Hk Hv Hw Hp Hxy.
  destruct (fusion_order vec kw k Hk Hv Hw) as (out & E & Hids).
  exists out. split; [exact E|]. rewrite Hids, <- Hp. unfold pick.
  apply sorted_desc_keeps. intros l1 a l2 b El Hb Pa Pb.
  rewrite El in Hp. destruct (pick_two x y l1 a l2 b Hp Hb Pa Pb) as [-> ->].
  exact Hxy.
Qed.

(** *** A single list *)

Lemma insert_desc_head {A : Type} (key : A -> F) x l :
  Forall (fun y => fle (key y) (key x)) l -> insert_desc key x l = x :: l.
Proof.
  intros H. destruct l as [|y l]; [reflexivity|]. cbn [insert_desc].
  inversion H as [|? ? Hy _]; subst. unfold fle in Hy. now rewrite Hy.
Qed.

Lemma sorted_desc_id {A : Type} (key : A -> F) l :
  descending key l -> sorted_desc key l = l.
Proof.
  unfold descending. induction 1 as [|x l Hs IH Hf]; [reflexivity|].
  cbn [sorted_desc List.fold_right]. fold (sorted_desc key l).
  rewrite IH. now apply insert_desc_head.
Qed.

Lemma rank_of_app_fresh x pre suf :
  ~ In x pre -> rank_of x (pre ++ suf)
                = option_map (Nat.add (List.length pre)) (rank_of x suf).
Proof.
  induction pre as [|p pre IH]; intros Hn.
  - cbn. now destruct (rank_of x suf).
  - cbn [app rank_of List.length].
    destruct (Z.eqb_spec x p) as [->|N]; [exfalso; apply Hn; now left|].
    rewrite IH by (intros H; apply Hn; now right).
    now destruct (rank_of x suf).
Qed.

Hypothesis order : float_order (F := F).
Hypothesis mono : float_monotone (F := F).

Lemma fle_refl (z : F) : fle z z.
Proof.
  unfold fle. destruct (flt z z) eqn:E; [|reflexivity].
  now rewrite (flt_asym order _ _ E) in E.
Qed.

(** In a list that is alone, the totals go down with the rank. *)
Lemma single_list_descending (total : Z -> F) (weight : F) k l :
  0 <= k -> NoDup l -> fle (flit 0) weight ->
  (forall x r, rank_of x l = Some r ->
               total x = fadd (flit 0) (fdiv_int weight (k + Z.of_nat r + 1))) ->
  descending total l.
Proof.
  intros Hk Hnd Hw Ht. unfold descending.
  assert (forall pre suf, l = pre ++ suf ->
            StronglySorted (fun a b => fle (total b) (total a)) suf) as G.
  { intros pre suf. revert pre. induction suf as [|x suf IH]; intros pre E;
      [constructor|].
    constructor.
    - apply (IH (pre ++ [x])). now rewrite <- app_assoc.
    - rewrite E in Hnd. apply Forall_forall. intros y Hy.
      assert (~ In x pre) as Nx.
      { intros H. apply NoDup_remove_2 in Hnd. apply Hnd.
        apply in_or_app. now left. }
      assert (~ In y pre) as Ny.
      { intros H. apply in_split in H as (p1 & p2 & ->).
        rewrite <- !app_assoc in Hnd. cbn [app] in Hnd.
        apply NoDup_remove_2 in Hnd. apply Hnd.
        apply in_or_app. right. apply in_or_app. right. now right. }
      assert (x <> y) as Nxy.
      { intros ->. apply NoDup_remove_2 in Hnd. apply Hnd.
        apply in_or_app. now right. }
      assert (rank_of x l = Some (List.length pre)) as Rx.
      { rewrite E, rank_of_app_fresh by assumption. cbn [rank_of].
        rewrite Z.eqb_refl. cbn. now rewrite Nat.add_0_r. }
      assert (exists j, rank_of y l = Some (List.length pre + S j)%nat) as [j Ry].
      { rewrite E, rank_of_app_fresh by assumption. cbn [rank_of].
        destruct (Z.eqb_spec y x) as [->|_]; [contradiction|].
        apply (proj1 (rank_of_in y suf)) in Hy.
        destruct (rank_of y suf) as [j|]; [|contradiction].
        exists j. reflexivity. }
      rewrite (Ht _ _ Rx), (Ht _ _ Ry).
      apply (fadd_mono mono); [apply fle_refl|].
      apply (fdiv_antitone mono); [exact Hw|lia|lia]. }
  now apply (G []).
Qed.

Lemma first_seen_left l : first_seen l [] = l.
Proof. unfold first_seen. cbn. apply app_nil_r. Qed.

Lemma first_seen_right l : first_seen [] l = l.
Proof.
  unfold first_seen. cbn [app existsb negb].
  induction l as [|x l IH]; [reflexivity|]. cbn [List.filter]. now rewrite IH.
Qed.

(** X8 (one list alone).  When only one of the two searches returns
    anything, with non-negative weights, [0 <= k] and no repeated
    identifier, fusion keeps the order of that list: the fused list has
    the same identifiers in the same order. *)
Theorem rrf_single_list_keeps_order (rs : list (candidate F)) k :
  0 <= k -> NoDup (ids rs) ->
  fle (flit 0) (vector_weight settings) ->
  fle (flit 0) (keyword_weight settings) ->
  (exists out, _reciprocal_rank_fusion settings rs [] k = Ok out /\
               ids out = ids rs) /\
  (exists out, _reciprocal_rank_fusion settings [] rs k = Ok out /\
               ids out = ids rs).
Proof.
  intros Hk Hnd Wv Wk. split.
  - destruct (fusion_order rs [] k Hk Hnd (NoDup_nil _)) as (out & E & Hids).
    exists out. split; [exact E|]. rewrite Hids.
    change (ids (F := F) []) with (@nil Z). rewrite first_seen_left.
    apply sorted_desc_id.
    apply (single_list_descending _ (vector_weight settings) k); try assumption.
    intros x r R. unfold rrf_total. now rewrite R.
  - destruct (fusion_order [] rs k Hk (NoDup_nil _) Hnd) as (out & E & Hids).
    exists out. split; [exact E|]. rewrite Hids.
    change (ids (F := F) []) with (@nil Z). rewrite first_seen_right.
    apply sorted_desc_id.
    apply (single_list_descending _ (keyword_weight settings) k); try assumption.
    intros x r R. unfold rrf_total. now rewrite R.
Qed.

End Order.
End FusionOrder.

Module FusionMoreExamples.
Import QFloat QFloatFacts Example FusionMore FusionOrder.

Lemma nodup_one (a : Z) : NoDup [a].
Proof. constructor; [intros []|constructor]. Qed.

Lemma nodup_one_two : NoDup [1; 2].
Proof.
  constructor; [|apply nodup_one]. intros [H|[]]. discriminate.
Qed.

Lemma rrf_raises_only_on_zero_divisor_witness :
  (exists out,
      _reciprocal_rank_fusion equal_weights [cand 1 "a"; cand 1 "b"]
                              [cand 2 "c"] 60 = Ok out) /\
  _reciprocal_rank_fusion equal_weights [cand 1 "a"; cand 1 "b"]
                          [cand 2 "c"] (-2) = Raise ZeroDivisionError.
Proof.
  split.
  - apply (proj1 (proj2 (rrf_raises_only_on_zero_divisor
                           equal_weights [cand 1 "a"; cand 1 "b"]
                           [cand 2 "c"] 60))).
    unfold zero_divisor. cbn. lia.
  - destruct (_reciprocal_rank_fusion equal_weights [cand 1 "a"; cand 1 "b"]
                                      [cand 2 "c"] (-2)) as [out|e] eqn:E.
    + vm_compute in E. discriminate.
    + f_equal.
      apply (proj1 (rrf_raises_only_on_zero_divisor
                      equal_weights [cand 1 "a"; cand 1 "b"]
                      [cand 2 "c"] (-2)) e E).
Defined.

Lemma rrf_copies_vector_record_first_witness :
  exists out,
    _reciprocal_rank_fusion equal_weights [cand 1 "v"]
                            [cand 1 "k"; cand 2 "b"] 60 = Ok out /\
    Forall (fun c => exists r s,
                source_record [cand 1 "v"] [cand 1 "k"; cand 2 "b"]
                              (chunk_id c) = Some r /\
                c = set_rrf_score r s /\
                (In (chunk_id c) (ids [cand 1 "v"]) -> In r [cand 1 "v"]) /\
                (~ In (chunk_id c) (ids [cand 1 "v"]) ->
                 In r [cand 1 "k"; cand 2 "b"])) out.
Proof.
  eexists. split; [vm_compute; reflexivity|].
  apply (rrf_copies_vector_record_first equal_weights [cand 1 "v"]
                                        [cand 1 "k"; cand 2 "b"] 60).
  vm_compute. reflexivity.
Defined.

Lemma rrf_ties_keep_first_seen_order_witness :
  exists out,
    _reciprocal_rank_fusion equal_weights [cand 1 "a"] [cand 2 "b"] 60 = Ok out /\
    pick 1 2 (ids out) = [1; 2].
Proof.
  apply (rrf_ties_keep_first_seen_order equal_weights
                                        [cand 1 "a"] [cand 2 "b"] 60 1 2).
  - lia.
  - apply nodup_one.
  - apply nodup_one.
  - reflexivity.
  - reflexivity.
Defined.

Lemma rrf_single_list_keeps_order_witness :
  (exists out,
      _reciprocal_rank_fusion equal_weights [cand 1 "a"; cand 2 "b"] [] 60
      = Ok out /\
      ids out = ids [cand 1 "a"; cand 2 "b"]) /\
  (exists out,
      _reciprocal_rank_fusion equal_weights [] [cand 1 "a"; cand 2 "b"] 60
      = Ok out /\
      ids out = ids [cand 1 "a"; cand 2 "b"]).
Proof.
  apply (rrf_single_list_keeps_order equal_weights Q_float_order
                                     Q_float_monotone
                                     [cand 1 "a"; cand 2 "b"] 60).
  - lia.
  - apply nodup_one_two.
  - reflexivity.
  - reflexivity.
Defined.

End FusionMoreExamples.

Module RerankMore.
Import PySeq PySort PySortFacts RerankFacts.

Section More.
Context {F : Type} {PF : PyFloat F} {C : Type}.
Variable env : collaborators F C.

Lemma attach_scores_keeps cands : forall scores (h : heap F) a,
  clear_rerank_score (dict_at (attach_scores cands scores h) a)
  = clear_rerank_score (dict_at h a).
Proof.
  induction cands as [|a0 cands IH]; intros [|s scores] h a; try reflexivity.
  cbn [attach_scores]. rewrite IH. cbn [set_dict dict_at].
  destruct (Nat.eqb_spec a a0) as [->|N]; reflexivity.
Qed.

(** The [zip] stops at the shorter list: dicts past the scores are not
    touched. *)
Lemma attach_scores_outside cands : forall scores (h : heap F) a,
  ~ In a (firstn (List.length scores) cands) ->
  dict_at (attach_scores cands scores h) a = dict_at h a.
Proof.
  induction cands as [|a0 cands IH]; intros [|s scores] h a Hn; try reflexivity.
  cbn [attach_scores]. cbn [List.length firstn] in Hn.
  rewrite IH by (intros H; apply Hn; now right).
  cbn [set_dict dict_at].
  destruct (Nat.eqb_spec a a0) as [->|N]; [|reflexivity].
  exfalso. apply Hn. now left.
Qed.

Lemma sort_keys_missing (h : heap F) cands a :
  In a cands -> rerank_score (dict_at h a) = None ->
  sort_keys h cands = Raise KeyError.
Proof.
  induction cands as [|a0 cands IH]; intros Hin Hn; [contradiction|].
  cbn [sort_keys].
  destruct (rerank_score (dict_at h a0)) eqn:E0; [|reflexivity].
  destruct Hin as [->|Hin]; [congruence|]. now rewrite IH.
Qed.

Lemma sort_keys_cases (h : heap F) cands :
  match sort_keys h cands with
  | Ok keyed =>
      List.map fst keyed = cands /\
      forall a, In a cands -> rerank_score (dict_at h a) <> None
  | Raise e => e = KeyError
  end.
Proof.
  induction cands as [|a0 cands IH]; cbn [sort_keys].
  - split; [reflexivity|intros a []].
  - destruct (rerank_score (dict_at h a0)) eqn:E0; [|reflexivity].
    destruct (sort_keys h cands) as [keyed|e]; cbn [rbind]; [|exact IH].
    destruct IH as [Hm Hs]. split; [cbn; now rewrite Hm|].
    intros a [<-|Ha]; [congruence|now apply Hs].
Qed.

Lemma NoDup_firstn {A : Type} n (l : list A) : NoDup l -> NoDup (firstn n l).
Proof.
  intros H. revert n. induction H as [|x l Hn Hl IH]; intros [|n]; cbn;
    try constructor.
  - intros Hx. apply Hn. now apply in_firstn in Hx.
  - apply IH.
Qed.

(** What [_rerank] does, whatever the cross-encoder answers. *)
Lemma rerank_cases query candidates top_k (h : heap F) :
  match _rerank env query candidates top_k h with
  | Ok (out, h') =>
      (exists sorted,
          Permutation sorted (list_at h candidates) /\
          out = slice_to sorted top_k) /\
      (forall a, clear_rerank_score (dict_at h' a)
                 = clear_rerank_score (dict_at h a)) /\
      (forall a, In a out -> rerank_score (dict_at h' a) <> None)
  | Raise e =>
      predict env (rerank_pairs query h (list_at h candidates)) = Raise e \/
      e = KeyError
  end.
Proof.
  unfold _rerank. fold (rerank_pairs query h (list_at h candidates)).
  destruct (Chunker.nonempty (list_at h candidates)) eqn:Ne; cbn [negb].
  - destruct (predict env _) as [scores|e]; cbn [rbind]; [|now left].
    set (h1 := attach_scores (list_at h candidates) scores h).
    pose proof (sort_keys_cases h1 (list_at h candidates)) as K.
    destruct (sort_keys h1 (list_at h candidates)) as [keyed|e]; cbn [rbind];
      [|now right].
    destruct K as [Hm Hs].
    assert (Permutation (List.map fst (sorted_desc snd keyed))
                        (list_at h candidates)) as P.
    { rewrite <- Hm. apply Permutation_map, sorted_desc_perm. }
    split; [|split].
    + eexists. split; [exact P|reflexivity].
    + intros a. cbn [set_list dict_at]. apply attach_scores_keeps.
    + intros a Ha. cbn [set_list dict_at]. apply Hs.
      apply (Permutation_in _ P). unfold slice_to in Ha.
      now apply in_firstn in Ha.
  - apply Coverage.nonempty_false in Ne. rewrite Ne. split; [|split].
    + exists []. split; [constructor|]. unfold slice_to. now rewrite firstn_nil.
    + reflexivity.
    + intros a [].
Qed.

(** X9 (any answer of the cross-encoder).  Whatever the cross-encoder
    returns, scores of any number: [_rerank] raises only what the
    cross-encoder raises, or [KeyError]; what it returns is the
    beginning of a reordering of the given list, so it has no element
    the list has not, none twice if the list has none twice, and is not
    longer than the list; every returned candidate carries a
    [rerank_score]; and no candidate dict is changed in any key but
    [rerank_score]. *)
Theorem rerank_never_invents_candidates query candidates top_k (h : heap F) :
  (forall e, _rerank env query candidates top_k h = Raise e ->
             predict env (rerank_pairs query h (list_at h candidates)) = Raise e
             \/ e = KeyError) /\
  (forall out h',
      _rerank env query candidates top_k h = Ok (out, h') ->
      (forall a, In a out -> In a (list_at h candidates)) /\
      (NoDup (list_at h candidates) -> NoDup out) /\
      (List.length out <= List.length (list_at h candidates))%nat /\
      (forall a, In a out -> rerank_score (dict_at h' a) <> None) /\
      (forall a, clear_rerank_score (dict_at h' a)
                 = clear_rerank_score (dict_at h a))).
Proof.
  pose proof (rerank_cases query candidates top_k h) as R.
  destruct (_rerank env query candidates top_k h) as [[out h']|e].
  - split; [discriminate|]. intros out0 h0 [= <- <-].
    destruct R as ((sorted & P & ->) & Hk & Hs). unfold slice_to.
    split; [|split; [|split; [|split]]].
    + intros a Ha. apply (Permutation_in _ P). now apply in_firstn in Ha.
    + intros Hnd. apply NoDup_firstn.
      apply (Permutation_NoDup (Permutation_sym P) Hnd).
    + rewrite length_firstn, <- (Permutation_length P). lia.
    + exact Hs.
    + exact Hk.
  - split; [|discriminate]. now intros e0 [= <-].
Qed.

(** X10 (too few scores).  If the cross-encoder returns fewer scores
    than there are candidates, a candidate past the last score that had
    no [rerank_score] (as every candidate out of the storage) makes the
    sort fail: [_rerank] raises [KeyError]. *)
Theorem rerank_too_few_scores_key_error query candidates top_k (h : heap F)
        scores i a :
  predict env (rerank_pairs query h (list_at h candidates)) = Ok scores ->
  nth_error (list_at h candidates) i = Some a ->
  (List.length scores <= i)%nat ->
  ~ In a (firstn (List.length scores) (list_at h candidates)) ->
  rerank_score (dict_at h a) = None ->
  _rerank env query candidates top_k h = Raise KeyError.
Proof.
  intros Hp Hi Hlen Hout Hnone. unfold _rerank.
  fold (rerank_pairs query h (list_at h candidates)).
  assert (In a (list_at h candidates)) as Hin by now apply nth_error_In in Hi.
  destruct (list_at h candidates) as [|a0 cands] eqn:El; [contradiction|].
  cbn [Chunker.nonempty negb]. rewrite Hp. cbn [rbind].
  rewrite (sort_keys_missing _ _ a); [reflexivity|exact Hin|].
  now rewrite attach_scores_outside.
Qed.

End More.
End RerankMore.

Module RerankMoreExamples.
Import QFloat Example ExampleEnv ExampleMore RerankMore.

Lemma rerank_never_invents_candidates_witness :
  exists out h',
    _rerank env_close "q" 0 1 two_candidates = Ok (out, h') /\
    (forall a, In a out -> In a (list_at two_candidates 0%nat)) /\
    (NoDup (list_at two_candidates 0%nat) -> NoDup out) /\
    (List.length out <= List.length (list_at two_candidates 0%nat))%nat /\
    (forall a, In a out -> rerank_score (dict_at h' a) <> None) /\
    (forall a, clear_rerank_score (dict_at h' a)
               = clear_rerank_score (dict_at two_candidates a)).
Proof.
  eexists. eexists. split; [vm_compute; reflexivity|].
  apply (proj2 (rerank_never_invents_candidates env_close "q" 0 1 two_candidates)).
  vm_compute. reflexivity.
Defined.

Lemma rerank_too_few_scores_key_error_witness :
  _rerank env_short "q" 0 5 two_candidates = Raise KeyError.
Proof.
  apply (rerank_too_few_scores_key_error env_short "q" 0 5 two_candidates
                                         [1%Q] 1 1).
  - reflexivity.
  - reflexivity.
  - cbn. lia.
  - cbn. intros [H|[]]. discriminate.
  - reflexivity.
Defined.

End RerankMoreExamples.

Module SearchMore.
Import PySeq PySort PySortFacts FusionFacts FusionMore RerankFacts RerankMore.

Section More.
Context {F : Type} {PF : PyFloat F} {C : Type}.
Variable settings : retrieval_settings F.
Variable env : collaborators F C.

Lemma chunk_id_clear (c : candidate F) :
  chunk_id (clear_rerank_score c) = chunk_id c.
Proof. reflexivity. Qed.

Lemma ids_firstn n (l : list (candidate F)) : ids (firstn n l) = firstn n (ids l).
Proof. unfold ids. symmetry. apply firstn_map. Qed.

(** The reranking call of [search]: the candidates it returns are among
    the ones it was given. *)
Lemma rerank_call_results query (cands : list (candidate F)) top_k res :
  rerank_call env query cands top_k = Ok res ->
  (NoDup (ids cands) -> NoDup (ids res)) /\
  (forall x, In x (ids res) -> In x (ids cands)) /\
  (List.length res <= List.length cands)%nat /\
  (0 <= top_k -> Z.of_nat (List.length res) <= top_k) /\
  Forall (fun c => rerank_score c <> None) res.
Proof.
  unfold rerank_call.
  set (h := mkHeap (fun a => List.nth a cands placeholder)
                   (fun l => match l with
                             | O => List.seq 0 (List.length cands)
                             | S _ => []
                             end)).
  pose proof (rerank_cases env query 0 top_k h) as R.
  destruct (_rerank env query 0 top_k h) as [[out h']|e]; cbn [rbind fst snd];
    [|discriminate].
  intros [= <-]. destruct R as ((sorted & P & ->) & Hk & Hs).
  cbn [list_at h] in P.
  assert (forall a, chunk_id (dict_at h' a) = List.nth a (ids cands) 0) as Hid.
  { intros a. rewrite <- chunk_id_clear, Hk, chunk_id_clear. cbn [h dict_at].
    unfold ids. now rewrite <- (map_nth chunk_id). }
  assert (forall a, In a (slice_to sorted top_k) ->
                    (a < List.length (ids cands))%nat) as Hlt.
  { intros a Ha. unfold slice_to in Ha. apply in_firstn in Ha.
    apply (Permutation_in _ P) in Ha. apply in_seq in Ha.
    unfold ids. rewrite length_map. lia. }
  assert (ids (List.map (dict_at h') (slice_to sorted top_k))
          = List.map (fun a => List.nth a (ids cands) 0) (slice_to sorted top_k))
    as Hids.
  { unfold ids. rewrite map_map. apply map_ext. exact Hid. }
  split; [|split; [|split; [|split]]].
  - intros Hnd. rewrite Hids. apply NoDup_map_NoDup_ForallPairs.
    + intros a b Ha Hb E. apply (proj1 (NoDup_nth (ids cands) 0) Hnd);
        auto.
    + unfold slice_to. apply NoDup_firstn.
      apply (Permutation_NoDup (Permutation_sym P)), seq_NoDup.
  - intros x. rewrite Hids. intros Hx.
    apply in_map_iff in Hx as (a & <- & Ha). apply nth_In. now apply Hlt.
  - rewrite length_map. unfold slice_to. rewrite length_firstn.
    rewrite (Permutation_length P), length_seq. lia.
  - intros H0. rewrite length_map. now apply slice_to_length.
  - apply Forall_forall. intros c Hc.
    apply in_map_iff in Hc as (a & <- & Ha). now apply Hs.
Qed.

Lemma fusion_length (vec kw out : list (candidate F)) :
  NoDup (ids out) ->
  (forall x, In x (ids out) <-> In x (ids vec) \/ In x (ids kw)) ->
  List.length out = List.length (nodup Z.eq_dec (ids vec ++ ids kw)).
Proof.
  intros Hnd Hin. rewrite <- (length_map chunk_id). fold (ids out).
  apply Permutation_length, NoDup_Permutation;
    [exact Hnd|apply NoDup_nodup|].
  intros x. rewrite Hin, nodup_In, in_app_iff. tauto.
Qed.

(** What the pipeline returns. *)
Lemma pipeline_results query top_k use_reranker w results total w' :
  pipeline settings env query top_k use_reranker w = Ok (results, total, w') ->
  exists query_vec vec kw,
    embed_query env query = Ok query_vec /\
    vector_search env query_vec (retrieval_top_k settings) = Ok vec /\
    keyword_search env query (retrieval_top_k settings) = Ok kw /\
    total = Z.of_nat (List.length (nodup Z.eq_dec (ids vec ++ ids kw))) /\
    NoDup (ids results) /\
    (forall x, In x (ids results) -> In x (ids vec) \/ In x (ids kw)) /\
    Z.of_nat (List.length results) <= total /\
    (0 <= top_k -> Z.of_nat (List.length results) <= top_k).
Proof.
  unfold pipeline, rbind.
  destruct (embed_query env query) as [qv|e] eqn:Eq; [|discriminate].
  destruct (vector_search env qv _) as [vec|e] eqn:Ev; [|discriminate].
  destruct (keyword_search env query _) as [kw|e] eqn:Ek; [|discriminate].
  pose proof (fusion_total settings vec kw (rrf_k settings)) as T.
  destruct (_reciprocal_rank_fusion _ vec kw _) as [fused|e]; [|discriminate].
  destruct T as (_ & Hnd & Hin & _).
  pose proof (fusion_length vec kw fused Hnd Hin) as Hlen.
  intros H. exists qv, vec, kw.
  split; [reflexivity|]. split; [exact Ev|]. split; [reflexivity|].
  destruct (use_reranker && Chunker.nonempty fused).
  - destruct (rerank_call env query _ top_k) as [res|e] eqn:Er; [|discriminate].
    injection H as <- <- _.
    apply rerank_call_results in Er as (Rn & Ri & Rl & Rk & _).
    unfold slice_to in Rn, Ri, Rl. rewrite ids_firstn in Rn, Ri.
    split; [now rewrite Hlen|]. split; [|split; [|split]].
    + apply Rn, NoDup_firstn, Hnd.
    + intros x Hx. apply Hin. apply Ri in Hx. now apply in_firstn in Hx.
    + rewrite length_firstn in Rl. lia.
    + exact Rk.
  - injection H as <- <- _. unfold slice_to.
    split; [now rewrite Hlen|]. split; [|split; [|split]].
    + rewrite ids_firstn. apply NoDup_firstn, Hnd.
    + intros x Hx. rewrite ids_firstn in Hx. apply Hin.
      now apply in_firstn in Hx.
    + rewrite length_firstn. lia.
    + intros H0. now apply slice_to_length.
Qed.

(** X11 (what a fresh answer holds).  When [search] returns an answer
    that does not come from the cache ([cached = false]), the three
    collaborators have answered, [total_candidates] is the number of
    distinct chunk identifiers of the two result lists (repeated ones
    counted once), and the results, reranked or not, hold no chunk
    twice, hold only chunks that one of the two searches returned, are
    never more than [total_candidates], and are at most [top_k] when
    [0 <= top_k]. *)
Theorem search_results_come_from_the_searches (q : string) top_k use_cache
        use_reranker (w w' : world C) (r : response F) :
  search settings env q top_k use_cache use_reranker w = Ok (r, w') ->
  cached r = false ->
  exists query_vec vec kw,
    embed_query env q = Ok query_vec /\
    vector_search env query_vec (retrieval_top_k settings) = Ok vec /\
    keyword_search env q (retrieval_top_k settings) = Ok kw /\
    query r = q /\
    total_candidates r
    = Z.of_nat (List.length (nodup Z.eq_dec (ids vec ++ ids kw))) /\
    NoDup (ids (results r)) /\
    (forall x, In x (ids (results r)) -> In x (ids vec) \/ In x (ids kw)) /\
    Z.of_nat (List.length (results r)) <= total_candidates r /\
    (0 <= top_k -> Z.of_nat (List.length (results r)) <= top_k).
Proof.
  unfold search, read_clock.
  set (wa := mkWorld (cache w) (log w) (S (clock w))).
  destruct (if use_cache then _check_cache env q wa else (None, wa))
    as [[[hit| |]|] w1];
    [intros [= <- _]; cbn; discriminate| |discriminate|];
    (destruct (pipeline settings env q top_k use_reranker w1)
      as [[[res total] w2]|e] eqn:P; [|discriminate]);
    intros [= <- _] _; cbn [query results total_candidates];
    destruct (pipeline_results q top_k use_reranker w1 res total w2 P)
      as (qv & vec & kw & H1 & H2 & H3 & H4 & H5 & H6 & H7 & H8);
    exists qv, vec, kw; rewrite <- H4; repeat split; assumption.
Qed.

(** The pipeline does the same whatever the cache holds. *)
Lemma pipeline_frame (q : string) top_k use_reranker :
  (exists e, forall w : world C,
        pipeline settings env q top_k use_reranker w = Raise e) \/
  (exists res total evs,
      List.filter is_cache_get evs = [] /\
      List.filter is_cache_set evs = [] /\
      forall w : world C,
        pipeline settings env q top_k use_reranker w
        = Ok (res, total, mkWorld (cache w) (log w ++ evs) (clock w))).
Proof.
  unfold pipeline, rbind.
  destruct (embed_query env q) as [qv|e]; [|left; now exists e].
  destruct (vector_search env qv _) as [vr|e]; [|left; now exists e].
  destruct (keyword_search env q _) as [kr|e]; [|left; now exists e].
  destruct (_reciprocal_rank_fusion _ vr kr _) as [fused|e];
    [|left; now exists e].
  destruct (use_reranker && Chunker.nonempty fused).
  - destruct (rerank_call env q _ top_k) as [res|e]; [|left; now exists e].
    right. eexists res, _, _. split; [|split]; [| |intros w0; unfold record;
      cbn [cache log clock]; rewrite <- !app_assoc; reflexivity];
      reflexivity.
  - right. eexists _, _, _. split; [|split]; [| |intros w0; unfold record;
      cbn [cache log clock]; rewrite <- !app_assoc; reflexivity];
      reflexivity.
Qed.

(** X12 (search without the cache).  With [use_cache = false], [search]
    neither reads nor writes the cache: the cache is as before, what is
    logged holds no cache read and no cache write, the answer has
    [cached = false], and the same call on any other cache content
    gives the same answer and logs the same. *)
Theorem search_without_cache_ignores_it (q : string) top_k use_reranker
        (w w' : world C) (r : response F) :
  search settings env q top_k false use_reranker w = Ok (r, w') ->
  cached r = false /\
  cache w' = cache w /\
  exists evs,
    log w' = log w ++ evs /\
    List.filter is_cache_get evs = [] /\
    List.filter is_cache_set evs = [] /\
    forall c : C,
      search settings env q top_k false use_reranker
             (mkWorld c (log w) (clock w))
      = Ok (r, mkWorld c (log w ++ evs) (clock w')).
Proof.
  unfold search, read_clock. cbn [andb].
  destruct (pipeline_frame q top_k use_reranker)
    as [[e H]|(res & total & evs & Hg & Hs & H)].
  - rewrite H. discriminate.
  - rewrite H. cbn [cache log clock]. intros [= <- <-].
    cbn [cached cache log clock]. split; [reflexivity|].
    split; [reflexivity|]. exists evs. repeat split; try assumption.
    intros c. now rewrite H.
Qed.

End More.
End SearchMore.

Module SearchMoreExamples.
Import QFloat Example ExampleEnv ExampleSearch SearchMore.

Lemma search_results_come_from_the_searches_witness :
  exists query_vec vec kw,
    embed_query env_up "q" = Ok query_vec /\
    vector_search env_up query_vec (retrieval_top_k (default_settings (F := Q))) = Ok vec /\
    keyword_search env_up "q" (retrieval_top_k (default_settings (F := Q))) = Ok kw /\
    query first_response = "q"%string /\
    total_candidates first_response
    = Z.of_nat (List.length (nodup Z.eq_dec (ids vec ++ ids kw))) /\
    NoDup (ids (results first_response)) /\
    (forall x, In x (ids (results first_response)) ->
               In x (ids vec) \/ In x (ids kw)) /\
    Z.of_nat (List.length (results first_response))
    <= total_candidates first_response /\
    (0 <= 5 -> Z.of_nat (List.length (results first_response)) <= 5).
Proof.
  apply (search_results_come_from_the_searches
           (default_settings (F := Q)) env_up "q" 5 true false empty_world first_world
           first_response).
  - vm_compute. reflexivity.
  - reflexivity.
Defined.

Lemma search_without_cache_ignores_it_witness :
  exists r w',
    search equal_weights env_up "q" 5 false false empty_world = Ok (r, w') /\
    cached r = false /\
    cache w' = cache empty_world /\
    exists evs,
      log w' = log empty_world ++ evs /\
      List.filter is_cache_get evs = [] /\
      List.filter is_cache_set evs = [] /\
      forall c : option string,
        search equal_weights env_up "q" 5 false false
               (mkWorld c (log empty_world) (clock empty_world))
        = Ok (r, mkWorld c (log empty_world ++ evs) (clock w')).
Proof.
  eexists. eexists. split; [vm_compute; reflexivity|].
  apply (search_without_cache_ignores_it equal_weights env_up "q" 5 false
                                         empty_world).
  vm_compute. reflexivity.
Defined.

End SearchMoreExamples.

Module ChunkerNonEmpty.
Import PyStr PySeq Chunker TextProps PyStrFacts Windows ChunkerFacts Coverage.
Import ChunkerProps ChunkerMore ChunkerBounds Settings Example.

Lemma all_space_app a b : all_space (a ++ b) = all_space a && all_space b.
Proof.
  induction a as [|c a IH]; [reflexivity|].
  cbn [String.append all_space]. now rewrite IH, andb_assoc.
Qed.

Lemma all_space_words s : all_space s = negb (nonempty (split_ws s)).
Proof.
  destruct (split_ws s) as [|w ws] eqn:E; cbn.
  - now apply split_ws_nil_all_space.
  - destruct (all_space s) eqn:A; [|reflexivity].
    apply split_ws_all_space in A. congruence.
Qed.

Lemma truthy_strip_blank s : truthy (strip s) = negb (all_space s).
Proof. now rewrite truthy_strip, all_space_words, negb_involutive. Qed.

Lemma word_count_blank s : word_count s = 0 <-> all_space s = true.
Proof.
  unfold word_count. rewrite all_space_words.
  destruct (split_ws s); cbn; split; try reflexivity; try discriminate; lia.
Qed.

Lemma all_space_join sep parts p :
  all_space (join sep parts) = true -> In p parts -> all_space p = true.
Proof.
  unfold join. induction parts as [|q parts IH]; intros A Hin; [contradiction|].
  destruct parts as [|q' parts].
  - destruct Hin as [<-|[]]. exact A.
  - change (String.concat sep (q :: q' :: parts))
      with (q ++ sep ++ String.concat sep (q' :: parts))%string in A.
    rewrite !all_space_app in A.
    apply andb_true_iff in A as [Aq A]. apply andb_true_iff in A as [_ A].
    destruct Hin as [<-|Hin]; [exact Aq|now apply IH].
Qed.

(** Parts without a word never close a segment. *)
Lemma fold_blank sep chunk_size overlap parts : forall cur,
  0 <= chunk_size ->
  Forall (fun p => all_space p = true) parts ->
  List.fold_left (step sep chunk_size overlap) parts (mkAcc [] cur 0)
  = mkAcc [] (cur ++ parts) 0.
Proof.
  induction parts as [|p parts IH]; intros cur Hc Hb; cbn [List.fold_left].
  - now rewrite app_nil_r.
  - inversion Hb as [|? ? Hp Hb']; subst. apply word_count_blank in Hp.
    unfold step at 2. cbn [current_len current chunks]. rewrite Hp.
    destruct (Z.gtb_spec (0 + 0) chunk_size) as [G|_]; [lia|]. cbn [andb].
    cbn [current_len current chunks]. rewrite IH by assumption.
    now rewrite <- app_assoc.
Qed.

Lemma merge_nonempty sep chunk_size overlap parts :
  0 <= chunk_size ->
  all_space (join sep parts) = false ->
  merge sep chunk_size overlap parts <> [].
Proof.
  intros Hc Ht.
  destruct (forallb all_space parts) eqn:B.
  - assert (Forall (fun p => all_space p = true) parts) as Hb
        by (apply Forall_forall; now apply forallb_forall).
    unfold merge. rewrite fold_blank by assumption. cbn [app].
    unfold flush. cbn [current chunks].
    destruct parts as [|p parts]; [discriminate|]. cbn [nonempty].
    unfold emit. rewrite truthy_strip_blank, Ht. cbn. discriminate.
  - destruct (merge_parts sep chunk_size overlap parts) as (segs & E & C & _).
    rewrite E.
    assert (exists p, In p parts /\ all_space p = false) as (p & Hp & Ap).
    { clear -B. induction parts as [|q parts IH]; [discriminate|].
      cbn in B. destruct (all_space q) eqn:Aq.
      - destruct (IH B) as (p & Hp & Ap). exists p. split; [now right|exact Ap].
      - exists q. split; [now left|exact Aq]. }
    rewrite <- C in Hp. apply in_concat in Hp as (g & Hg & Hpg).
    apply in_map_iff in Hg as (s & <- & Hs).
    assert (In (render sep s) (List.filter truthy (List.map (render sep) segs)))
      as Hin.
    { apply filter_In. split; [now apply in_map|].
      unfold render. rewrite truthy_strip_blank.
      destruct (all_space (join sep (seg_words s))) eqn:A; [|reflexivity].
      rewrite (all_space_join sep (seg_words s) p A) in Ap; [discriminate|].
      unfold seg_words. apply in_or_app. now right. }
    intros N. rewrite N in Hin. contradiction.
Qed.

Lemma split_text_empty_blank text chunk_size overlap separators
        chunks :
  _split_text text chunk_size overlap separators = Ok chunks ->
  0 < chunk_size -> overlap < chunk_size ->
  (chunks = [] <-> word_count text = 0).
Proof.
  unfold _split_text. intros H Hc Ho.
  destruct (Z.leb_spec (word_count text) chunk_size) as [Hle|Hgt].
  - injection H as <-. rewrite truthy_strip_blank, word_count_blank.
    destruct (all_space text); cbn; split; congruence.
  - assert (all_space text = false) as At.
    { destruct (all_space text) eqn:A; [|reflexivity].
      apply word_count_blank in A. lia. }
    split; [|lia]. intros ->. exfalso.
    destruct (find_separator text separators) as [[[sep parts]|]|e] eqn:Ef;
      [| |discriminate].
    + injection H as H. revert H. apply merge_nonempty; [lia|].
      apply find_separator_parts in Ef. apply join_split in Ef. now rewrite Ef.
    + destruct (fallback_windows text chunk_size overlap Hc Ho)
        as (windows & E & Hm & _).
      rewrite E in H. injection H as ->. cbn [List.map] in Hm.
      pose proof (window_count_pos (Z.of_nat (List.length (split_ws text)))
                                   (chunk_size - overlap)) as P.
      unfold word_count in Hgt.
      destruct (window_count _ _); [lia|discriminate].
Qed.

(** X13 (no empty result for a text with words).  With [0 < chunk_size]
    and [overlap < chunk_size], [_split_text] returns the empty list
    exactly for a text without a word: a text that has a word always
    gives at least one segment, whatever the separators. *)
Theorem split_text_empty_only_for_blank text chunk_size overlap separators
        chunks :
  _split_text text chunk_size overlap separators = Ok chunks ->
  0 < chunk_size -> overlap < chunk_size ->
  (chunks = [] <-> word_count text = 0).
Proof. apply split_text_empty_blank. Qed.

Lemma split_text_empty_only_for_blank_witness :
  (["a b"; "b c"]%string = [] <-> word_count "a b c" = 0).
Proof.
  apply (split_text_empty_only_for_blank "a b c" 2 1 chunk_separators).
  - reflexivity.
  - lia.
  - lia.
Defined.

End ChunkerNonEmpty.

Module IngestionTheorems.
Import PyStr Chunker TextProps PyStrFacts ChunkerProps ChunkerMore.
Import ChunkerNonEmpty Ingestion IngestionProps.

Lemma substring_length n : forall s,
  String.length (String.substring 0 n s) = Nat.min n (String.length s).
Proof.
  induction n as [|n IH]; intros [|c s]; cbn; try reflexivity.
  now rewrite IH.
Qed.

Lemma cap_length s : String.length (cap s) = Nat.min 4000 (String.length s).
Proof. apply substring_length. Qed.

Lemma cap_bounds s :
  s <> EmptyString -> (1 <= String.length (cap s) <= 4000)%nat.
Proof.
  intros N. rewrite cap_length. destruct s as [|c s]; [contradiction|].
  cbn [String.length]. split.
  - apply Nat.min_glb; [|lia]. apply Nat.lt_0_succ.
  - apply Nat.le_min_l.
Qed.

Lemma map_fst_combine_seq {A : Type} (l : list A) :
  List.map fst (enumerate l) = List.seq 0 (List.length l).
Proof.
  unfold enumerate. generalize 0%nat.
  induction l as [|x l IH]; intros n; [reflexivity|]. cbn. now rewrite IH.
Qed.

Lemma enumerate_length {A : Type} (l : list A) :
  List.length (enumerate l) = List.length l.
Proof. unfold enumerate. rewrite length_combine, length_seq. lia. Qed.

Lemma in_enumerate {A : Type} (l : list A) i x :
  In (i, x) (enumerate l) -> In x l.
Proof. unfold enumerate. apply in_combine_r. Qed.

Lemma clean_nonempty c : clean c -> c <> EmptyString.
Proof. intros [_ H] ->. cbn in H. lia. Qed.

Section Theorems.
Context {E D M T : Type}.
Variable env : collaborators E D M T.

Lemma chunk_records_fit raw_chunks enriched (embeddings : list E) :
  Forall clean raw_chunks ->
  let records := chunk_records raw_chunks enriched embeddings in
  List.map chunk_index records
  = List.map Z.of_nat (List.seq 0 (List.length records)) /\
  Forall fits records /\
  List.length records
  = Nat.min (Nat.min (List.length raw_chunks) (List.length enriched))
            (List.length embeddings).
Proof.
  intros Hc records. unfold records, chunk_records.
  set (zs := List.combine (List.combine raw_chunks enriched) embeddings).
  split; [|split].
  - rewrite length_map, enumerate_length, <- map_fst_combine_seq.
    rewrite !map_map. apply map_ext. now intros [i [[raw enr] emb_vec]].
  - apply Forall_forall. intros c Hin.
    apply in_map_iff in Hin as ([i [[raw enr] emb_vec]] & <- & Hin).
    apply in_enumerate in Hin. unfold zs in Hin.
    apply in_combine_l, in_combine_l in Hin.
    pose proof (proj1 (Forall_forall _ _) Hc raw Hin) as Hraw.
    unfold fits. cbn [chunk_text enriched_text token_count].
    split; [apply cap_bounds; now apply clean_nonempty|]. split.
    + eexists. split; [reflexivity|]. rewrite cap_length. apply Nat.le_min_l.
    + eexists. split; [reflexivity|]. apply Hraw.
  - rewrite length_map, enumerate_length. unfold zs.
    now rewrite !length_combine.
Qed.

Lemma split_content content :
  exists raw_chunks,
    _split_text content Settings.chunk_size Settings.chunk_overlap
                Settings.chunk_separators = Ok raw_chunks /\
    Forall clean raw_chunks /\
    (raw_chunks = [] <-> word_count content = 0).
Proof.
  destruct (split_text_default content) as [raw Hs]. exists raw.
  split; [exact Hs|]. split; [now apply split_text_clean in Hs|].
  unfold Settings.chunk_size, Settings.chunk_overlap in Hs.
  destruct (split_text_empty_blank content 512 64 Settings.chunk_separators
                                    raw Hs); try lia.
  now split.
Qed.

(** X14 (the chunk records fit the table).  Whatever [ingest_document]
    ends with, the chunk records it hands to the storage are numbered
    0, 1, 2, ... without a gap or a repeat, each has a text of 1 to
    4000 characters, an enriched text of at most 4000 characters and a
    token count of at least 1 (the words of the whole segment, also
    when the stored text was cut); and when the call returns, its
    [document_id] is the document the records went to and its
    [chunk_count] is the number of records. *)
Theorem ingest_records_fit_the_table title content source doc_type
        (metadata : option M) (w w' : world E D) res :
  ingest_document env title content source doc_type metadata w = (res, w') ->
  exists evs,
    log w' = log w ++ evs /\
    forall id records,
      In (EvInsertChunks id records) evs ->
      List.map chunk_index records
      = List.map Z.of_nat (List.seq 0 (List.length records)) /\
      Forall fits records /\
      (forall r, res = Ok r ->
                 document_id r = id /\
                 chunk_count r = Z.of_nat (List.length records)).
Proof.
  unfold ingest_document, read_clock, record, with_db. cbn [db log clock].
  destruct (insert_document env (db w) title source doc_type metadata)
    as [[id|e] d1].
  - destruct (split_content content) as (raw & -> & Hclean & _).
    destruct (nonempty raw); cbn [negb].
    + set (enriched := List.map _ (enumerate raw)).
      destruct (embed_texts env enriched) as [embeddings|e].
      * destruct (chunk_records_fit raw enriched embeddings Hclean)
          as (Hidx & Hfit & _).
        set (records := chunk_records raw enriched embeddings) in *.
        unfold insert_chunks.
        destruct (execute_all env d1 id records) as [d2|e]; cbn [rbind];
          [destruct (commit env d2) as [d3|e]|];
          intros [= <- <-]; cbn [log];
          (eexists; split; [rewrite <- !app_assoc; reflexivity|]);
          intros id' records' [H|[H|[H|[]]]]; try discriminate;
          injection H as <- <-;
          (split; [exact Hidx|split; [exact Hfit|]]);
          intros r; try discriminate.
        intros [= <-]. now split.
      * intros [= <- <-]. cbn [log].
        eexists. split; [rewrite <- !app_assoc; reflexivity|].
        intros id' records' [H|[H|[]]]; discriminate.
    + intros [= <- <-]. cbn [log]. eexists. split; [reflexivity|].
      intros id' records' [H|[]]. discriminate.
  - intros [= <- <-]. cbn [log]. eexists. split; [reflexivity|].
    intros id' records' [H|[]]. discriminate.
Qed.

(** X15 (a document without words).  Once the document row is in,
    [ingest_document] embeds and stores chunks exactly when the content
    has a word.  For a content without a word it returns
    [chunk_count = 0] with the document inserted and nothing else done;
    for a content with a word it asks for one embedding per segment, at
    least one, and the texts to embed all begin with the enricher's
    bracket. *)
Theorem ingest_blank_content_stores_empty_document title content source
        doc_type (metadata : option M) (w : world E D) id d1 :
  insert_document env (db w) title source doc_type metadata = (Ok id, d1) ->
  (word_count content = 0 ->
   ingest_document env title content source doc_type metadata w
   = (Ok (mkIngestResult id title 0
                         (millis_between env (monotonic env (clock w))
                                         (monotonic env (S (clock w))))),
      mkWorld d1 (log w ++ [EvInsertDocument title]) (S (S (clock w))))) /\
  (word_count content <> 0 ->
   exists texts rest,
     log (snd (ingest_document env title content source doc_type metadata w))
     = log w ++ EvInsertDocument title :: EvEmbedTexts texts :: rest /\
     texts <> [] /\
     Forall (fun t => exists body, t = String "[" body) texts).
Proof.
  intros Hdoc. unfold ingest_document, read_clock, record, with_db.
  cbn [db log clock]. rewrite Hdoc.
  destruct (split_content content) as (raw & -> & Hclean & Hblank). split.
  - intros H0. apply Hblank in H0. subst raw. reflexivity.
  - intros Hw. destruct raw as [|c raw]; [now contradiction Hw; apply Hblank|].
    cbn [nonempty negb].
    set (enriched := List.map _ (enumerate (c :: raw))).
    assert (enriched <> []) as Hne by discriminate.
    assert (Forall (fun t => exists body, t = String "[" body) enriched) as Hb.
    { apply Forall_forall. intros t Ht.
      apply in_map_iff in Ht as ([i x] & <- & _). unfold _enrich_chunk.
      eexists. reflexivity. }
    destruct (embed_texts env enriched) as [embeddings|e].
    + destruct (insert_chunks env d1 id _) as [[n|e] d2]; cbn [snd log];
        exists enriched; eexists; (split; [|split; [exact Hne|exact Hb]]);
        rewrite <- !app_assoc; reflexivity.
    + cbn [snd log]. exists enriched, []. split; [|split; [exact Hne|exact Hb]].
      now rewrite <- !app_assoc.
Qed.

(** X16 (no undo).  [ingest_document] inserts the document before it
    does anything that can fail later, in a transaction of its own, and
    has no handler: when it raises after the document went in, the
    database is left exactly as the insertion of the document left it,
    with the document and none of its chunks; what is raised is the
    exception of the embedding model or of the insertion of the
    chunks. *)
Theorem ingest_failure_keeps_the_document title content source doc_type
        (metadata : option M) (w w' : world E D) id d1 e :
  insert_document env (db w) title source doc_type metadata = (Ok id, d1) ->
  ingest_document env title content source doc_type metadata w = (Raise e, w') ->
  db w' = d1 /\
  exists texts,
    In (EvEmbedTexts texts) (log w') /\
    (embed_texts env texts = Raise e \/
     exists embeddings records,
       embed_texts env texts = Ok embeddings /\
       In (EvInsertChunks id records) (log w') /\
       insert_chunks env d1 id records = (Raise e, d1)).
Proof.
  intros Hdoc. unfold ingest_document, read_clock, record, with_db.
  cbn [db log clock]. rewrite Hdoc.
  destruct (split_content content) as (raw & -> & _ & _).
  destruct (nonempty raw); cbn [negb]; [|discriminate].
  set (enriched := List.map _ (enumerate raw)).
  destruct (embed_texts env enriched) as [embeddings|e0] eqn:Ee.
  - set (records := chunk_records raw enriched embeddings).
    destruct (insert_chunks env d1 id records) as [[n|e1] d2] eqn:Ei;
      [discriminate|].
    assert (d2 = d1) as ->.
    { revert Ei. unfold insert_chunks.
      destruct (_ <- _ ;; _)%result; now intros [= _ <-]. }
    intros [= <- <-]. cbn [db log]. split; [reflexivity|].
    exists enriched. split.
    + apply in_or_app. left. apply in_or_app. right. now left.
    + right. exists embeddings, records. split; [exact Ee|].
      split; [apply in_or_app; right; now left|exact Ei].
  - intros [= <- <-]. cbn [db log]. split; [reflexivity|].
    exists enriched. split; [apply in_or_app; right; now left|now left].
Qed.

End Theorems.
End IngestionTheorems.

Module IngestionExamples.
Import PyStr Example Ingestion IngestionProps ExampleIngest IngestionTheorems.

Lemma ingest_records_fit_the_table_witness :
  exists res w',
    ingest_document env_ingest "t" "a b" None None None empty_store = (res, w') /\
    exists evs,
      log w' = log empty_store ++ evs /\
      forall id records,
        In (EvInsertChunks id records) evs ->
        List.map chunk_index records
        = List.map Z.of_nat (List.seq 0 (List.length records)) /\
        Forall fits records /\
        (forall r, res = Ok r ->
                   document_id r = id /\
                   chunk_count r = Z.of_nat (List.length records)).
Proof.
  eexists. eexists. split; [vm_compute; reflexivity|].
  apply (ingest_records_fit_the_table env_ingest "t" "a b" None None None
                                      empty_store).
  vm_compute. reflexivity.
Defined.

Lemma ingest_blank_content_stores_empty_document_witness :
  ingest_document env_ingest "t" tab None None None empty_store
  = (Ok (mkIngestResult 1 "t" 0 0),
     mkWorld (["t"%string], []) [EvInsertDocument "t"] 2) /\
  exists texts rest,
    log (snd (ingest_document env_ingest "t" "a b" None None None empty_store))
    = log empty_store ++ EvInsertDocument "t" :: EvEmbedTexts texts :: rest /\
    texts <> [] /\
    Forall (fun t => exists body, t = String "[" body) texts.
Proof.
  split.
  - apply (proj1 (ingest_blank_content_stores_empty_document
                    env_ingest "t" tab None None None empty_store
                    1 (["t"%string], []) eq_refl)).
    reflexivity.
  - apply (proj2 (ingest_blank_content_stores_empty_document
                    env_ingest "t" "a b" None None None empty_store
                    1 (["t"%string], []) eq_refl)).
    vm_compute. discriminate.
Defined.

Lemma ingest_failure_keeps_the_document_witness :
  exists w',
    ingest_document env_model_down "t" "a b" None None None empty_store
    = (Raise (BackendError "model"), w') /\
    db w' = (["t"%string], []) /\
    exists texts,
      In (EvEmbedTexts texts) (log w') /\
      (embed_texts env_model_down texts = Raise (BackendError "model") \/
       exists embeddings records,
         embed_texts env_model_down texts = Ok embeddings /\
         In (EvInsertChunks 1 records) (log w') /\
         insert_chunks env_model_down (["t"%string], []) 1 records
         = (Raise (BackendError "model"), (["t"%string], []))).
Proof.
  eexists. split; [vm_compute; reflexivity|].
  apply (ingest_failure_keeps_the_document
           env_model_down "t" "a b" None None None empty_store).
  - reflexivity.
  - vm_compute. reflexivity.
Defined.

End IngestionExamples.
